(** * External merge sort of fixed-width text files (src/sortFile.ts)

    A shallow embedding of the [SortFile] class: validation of the input,
    generation of sorted temporary segments and the k-way merge, over an
    explicit model of the file system the class talks to. *)

From Stdlib Require Import NArith ZArith Ascii String Strings.Byte Permutation Sorted.
From stdpp Require Import gmap strings list pretty.

Local Open Scope N_scope.
Local Open Scope nat_scope.

(** ** JavaScript strings and buffers *)

(** A JavaScript string is a sequence of UTF-16 code units; a [Buffer] is a
    sequence of bytes.  File paths only go through [slice] and template
    literals, they are kept as [string]. *)
Abbreviation jsstring := (list N).
Abbreviation buffer := (list byte).

Definition EOL : jsstring := [13%N; 10%N].
Definition TEMP_FILE_PREFIX : string := "-temp-".
Definition TEMP_FILE_EXTENSION : string := ".txt".
Definition MAX_ASCII_CHAR : jsstring := [127%N].

(** [WhiteSpace] and [LineTerminator] code units, the ones
    [String.prototype.trim] removes. *)
Definition is_white_space (c : N) : bool :=
  ((9 <=? c) && (c <=? 13) || (c =? 32) || (c =? 160) || (c =? 5760)
   || (8192 <=? c) && (c <=? 8202) || (c =? 8232) || (c =? 8233)
   || (c =? 8239) || (c =? 8287) || (c =? 12288) || (c =? 65279))%N.

Fixpoint trimStart (s : jsstring) : jsstring :=
  match s with
  | c :: s' => if is_white_space c then trimStart s' else s
  | [] => []
  end.

Definition trimEnd (s : jsstring) : jsstring := rev (trimStart (rev s)).

Definition trim (s : jsstring) : jsstring := trimEnd (trimStart s).

(** [a < b] on strings: code unit by code unit, a proper prefix is smaller. *)
Fixpoint js_lt (a b : jsstring) : bool :=
  match a, b with
  | _, [] => false
  | [], _ :: _ => true
  | x :: a', y :: b' =>
      if (x <? y)%N then true else if (y <? x)%N then false else js_lt a' b'
  end.

Definition js_le (a b : jsstring) : bool := negb (js_lt b a).

(** [s.padEnd(n)]: spaces are appended up to [n] code units. *)
Definition padEnd (n : nat) (s : jsstring) : jsstring :=
  s ++ replicate (n - length s) 32%N.

(** [lines.join(sep)] *)
Fixpoint join (sep : jsstring) (lines : list jsstring) : jsstring :=
  match lines with
  | [] => []
  | [l] => l
  | l :: rest => l ++ sep ++ join sep rest
  end.

(** [lines.sort()]: ascending by code units.  The result of sorting a list
    of strings under a total order does not depend on the algorithm; an
    insertion sort stands for the engine's. *)
Fixpoint sort_insert (x : jsstring) (l : list jsstring) : list jsstring :=
  match l with
  | [] => [x]
  | y :: l' => if js_lt y x then y :: sort_insert x l' else x :: l
  end.

Definition sort (lines : list jsstring) : list jsstring :=
  foldr sort_insert [] lines.

(** [lines.indexOf(x)], [-1] when [x] is no element. *)
Fixpoint indexOf (lines : list jsstring) (x : jsstring) : Z :=
  match lines with
  | [] => (-1)%Z
  | l :: rest =>
      if decide (l = x) then 0%Z
      else let i := indexOf rest x in if (i <? 0)%Z then (-1)%Z else (i + 1)%Z
  end.

(** [handles[i]] for a number [i]: [undefined] outside the array. *)
Definition array_get {A} (l : list A) (i : Z) : option A :=
  if (i <? 0)%Z then None else l !! Z.to_nat i.

(** [s.slice(0, -4)] *)
Definition slice_0_minus4 (s : string) : string :=
  String.substring 0 (String.length s - 4) s.

(** [Buffer.alloc(n)] is zero-filled. *)
Definition Buffer_alloc (n : nat) : buffer := replicate n "000"%byte.

(** [buf.toString("ascii")] clears the high bit of every byte. *)
Definition toString_ascii (buf : buffer) : jsstring :=
  map (λ b, N.land (Byte.to_N b) 127) buf.

(** [Buffer.from(s, "ascii")] and [writeFile(_, s, "ascii")] keep the low
    byte of every code unit. *)
Definition low_byte (c : N) : byte :=
  default "000"%byte (Byte.of_N (c mod 256)%N).

Definition Buffer_from_ascii (s : jsstring) : buffer := map low_byte s.

(** ** The file system and the effects of the class *)

(** The error kinds of the class, named as the specification names them:
    the first five are the [Error]s the validation methods throw, [IOFailure]
    is any rejection of an [fs] call, [TypeError] is the engine's error for a
    method call on [undefined]. *)
Inductive error : Type :=
  | InputNotFound
  | FileTooLarge
  | MalformedRecordWidth
  | RecordCountNotDivisible
  | OutputDirectoryMissing
  | IOFailure
  | TypeError.

(** How an [async] method ends: it returns, it throws, or (the [while]
    loops are run with fuel) it is still running when the fuel is out. *)
Inductive outcome (A : Type) : Type :=
  | Ok (a : A)
  | Throw (e : error)
  | OutOfFuel.
Arguments Ok {A} a.
Arguments Throw {A} e.
Arguments OutOfFuel {A}.

(** Regular files with their bytes, directories with the size [stat]
    reports for them, and the file handles that are open.  A handle is the
    path it was opened on: the class never renames a file and unlinks only
    after closing, so a read or a write through a handle acts on what the
    path holds at that moment (two handles on one path share its bytes). *)
Record fs : Type := Fs {
  files : gmap string buffer;
  dirs : gmap string nat;
  handles : list string
}.

Definition M (A : Type) : Type := fs → fs * outcome A.

#[global] Instance M_ret : MRet M := λ A a st, (st, Ok a).

#[global] Instance M_bind : MBind M := λ A B k m st,
  match m st with
  | (st', Ok a) => k a st'
  | (st', Throw e) => (st', Throw e)
  | (st', OutOfFuel) => (st', OutOfFuel)
  end.

Definition throw {A} (e : error) : M A := λ st, (st, Throw e).

Definition out_of_fuel {A} : M A := λ st, (st, OutOfFuel).

(** [try { m } catch (error) { h }] *)
Definition try_catch {A} (m : M A) (h : M A) : M A := λ st,
  match m st with
  | (st', Throw _) => h st'
  | r => r
  end.

(** [try { m } finally { fin }]: [fin] runs after [m] returned or threw, and
    its own exception replaces the result of [m]. *)
Definition try_finally {A} (m : M A) (fin : M unit) : M A := λ st,
  match m st with
  | (st', OutOfFuel) => (st', OutOfFuel)
  | (st', r) =>
      match fin st' with
      | (st'', Ok _) => (st'', r)
      | (st'', Throw e) => (st'', Throw e)
      | (st'', OutOfFuel) => (st'', OutOfFuel)
      end
  end.

(** [await Promise.all(ps)] for promises made by [map]: every operation is
    carried out, the result is the array of values, or a rejection (the
    first one in array order) when one of them rejected. *)
Fixpoint Promise_all {A} (ps : list (M A)) : M (list A) := λ st,
  match ps with
  | [] => (st, Ok [])
  | p :: ps' =>
      let '(st1, r) := p st in
      let '(st2, rs) := Promise_all ps' st1 in
      (st2, match r, rs with
            | OutOfFuel, _ | _, OutOfFuel => OutOfFuel
            | Throw e, _ => Throw e
            | Ok _, Throw e => Throw e
            | Ok a, Ok l => Ok (a :: l)
            end)
  end.

(** The directory part of a path: what is before its last ['/'], [None]
    when there is none (a path relative to the working directory). *)
Fixpoint dirname (p : string) : option string :=
  match p with
  | EmptyString => None
  | String c p' =>
      match dirname p' with
      | Some d => Some (String c d)
      | None => if Ascii.eqb c "/"%char then Some EmptyString else None
      end
  end.

(** The working directory and the root always exist. *)
Definition parent_exists (st : fs) (p : string) : bool :=
  match dirname p with
  | None | Some EmptyString => true
  | Some d => bool_decide (is_Some (dirs st !! d))
  end.

(** A path can be written when it is no directory and is a file already or
    lies in an existing directory. *)
Definition writable (st : fs) (p : string) : bool :=
  bool_decide (dirs st !! p = None)
  && (bool_decide (is_Some (files st !! p)) || parent_exists st p).

(** [fsp.access(p)] *)
Definition fsp_access (p : string) : M unit := λ st,
  if bool_decide (is_Some (files st !! p)) || bool_decide (is_Some (dirs st !! p))
  then (st, Ok tt) else (st, Throw IOFailure).

(** [(await fsp.stat(p)).size] *)
Definition fsp_stat_size (p : string) : M nat := λ st,
  match files st !! p, dirs st !! p with
  | Some data, _ => (st, Ok (length data))
  | None, Some size => (st, Ok size)
  | None, None => (st, Throw IOFailure)
  end.

(** [fsp.open(p, "r")] *)
Definition fsp_open_r (p : string) : M string := λ st,
  if bool_decide (is_Some (files st !! p)) || bool_decide (is_Some (dirs st !! p))
  then (Fs (files st) (dirs st) (p :: handles st), Ok p)
  else (st, Throw IOFailure).

(** [fsp.open(p, "w")]: the file is created or truncated. *)
Definition fsp_open_w (p : string) : M string := λ st,
  if writable st p
  then (Fs (<[p := []]> (files st)) (dirs st) (p :: handles st), Ok p)
  else (st, Throw IOFailure).

(** [fsp.writeFile(p, data)] *)
Definition fsp_writeFile (p : string) (data : buffer) : M unit := λ st,
  if writable st p
  then (Fs (<[p := data]> (files st)) (dirs st) (handles st), Ok tt)
  else (st, Throw IOFailure).

(** [fsp.unlink(p)] *)
Definition fsp_unlink (p : string) : M unit := λ st,
  match files st !! p with
  | Some _ => (Fs (delete p (files st)) (dirs st) (handles st), Ok tt)
  | None => (st, Throw IOFailure)
  end.

(** [handle.read(buf, 0, len, pos)]: up to [len] bytes from [pos] on are
    copied to the front of [buf]; what [buf] held behind them stays.  Every
    call of the class passes the length of [buf] as [len]. *)
Definition fh_read (h : string) (buf : buffer) (len pos : nat)
  : M (nat * buffer) := λ st,
  match files st !! h with
  | Some data =>
      let chunk := take len (drop pos data) in
      (st, Ok (length chunk, chunk ++ drop (length chunk) buf))
  | None => (st, Throw IOFailure)
  end.

(** [handle.write(data)] on a handle opened with ["w"]: the handle is the
    only writer of its file, its position is the end of the file. *)
Definition fh_write (h : string) (data : buffer) : M unit := λ st,
  match files st !! h with
  | Some old => (Fs (<[h := old ++ data]> (files st)) (dirs st) (handles st), Ok tt)
  | None => (st, Throw IOFailure)
  end.

Fixpoint remove_first (h : string) (hs : list string) : list string :=
  match hs with
  | [] => []
  | h' :: hs' => if decide (h' = h) then hs' else h' :: remove_first h hs'
  end.

(** [handle.close()] *)
Definition fh_close (h : string) : M unit := λ st,
  (Fs (files st) (dirs st) (remove_first h (handles st)), Ok tt).

(** ** The class [SortFile] *)

Record SortFile : Type := {
  maxFileSizeBytes : nat;
  numberOfLinesPerSegment : nat;
  lineSizeBytes : nat
}.

(** [a % b !== 0] on non-negative integers: [a % 0] is [NaN], which differs
    from [0]. *)
Definition rem_nonzero (a b : nat) : bool :=
  if b =? 0 then true else negb (a mod b =? 0).

(** [findMinLine]: the smallest non-empty line below the sentinel, and the
    first index that holds it. *)
Definition findMinLine (lines : list jsstring) : jsstring * Z :=
  let minLine :=
    fold_left
      (λ min current,
         if bool_decide (current ≠ []) && js_lt current min then current else min)
      lines MAX_ASCII_CHAR in
  let minIndex := indexOf lines minLine in
  (minLine, minIndex).

Section SortFile.

(** [buf.toString("utf8")] is the engine's decoder; the methods are
    parametric in it.  [this] is the instance, with its three fields. *)
Variable toString_utf8 : buffer → jsstring.

Variable this : SortFile.

Definition checkFileExists (filename : string) : M unit :=
  try_catch (fsp_access filename) (throw InputNotFound).

Definition checkFileSizeLimit (filename : string) : M unit :=
  size ← fsp_stat_size filename;
  if maxFileSizeBytes this <? size then throw FileTooLarge else mret tt.

(** The [while (true)] loop of [checkLineLengthAndCount]; its result is
    [lineCount] at the [break]. *)
Fixpoint checkLineLoop (fuel : nat) (fileHandle : string)
    (bytesRead : nat) (buf : buffer) (lineCount : nat) : M nat :=
  match fuel with
  | 0 => out_of_fuel
  | S fuel' =>
      '(readBytes, readBuffer) ←
        fh_read fileHandle buf (lineSizeBytes this) bytesRead;
      if readBytes =? 0 then mret lineCount
      else
        let line := trim (toString_ascii readBuffer) in
        if negb (length line + length EOL =? lineSizeBytes this)
        then throw MalformedRecordWidth
        else checkLineLoop fuel' fileHandle (bytesRead + readBytes)
               readBuffer (lineCount + 1)
  end.

Definition checkLineLengthAndCount (fuel : nat) (fileHandle : string)
  : M unit :=
  lineCount ←
    checkLineLoop fuel fileHandle 0 (Buffer_alloc (lineSizeBytes this)) 0;
  if rem_nonzero lineCount (numberOfLinesPerSegment this)
  then throw RecordCountNotDivisible
  else mret tt.

Definition validateFileContents (fuel : nat) (filename : string) : M unit :=
  fileHandle ← fsp_open_r filename;
  try_finally (checkLineLengthAndCount fuel fileHandle) (fh_close fileHandle).

Definition checkOutputDirectory (outFilename : string) : M unit :=
  try_catch (fsp_access outFilename) (throw OutputDirectoryMissing).

Definition validateInput (fuel : nat) (inFilename outFilename : string)
  : M unit :=
  checkFileExists inFilename;;
  checkFileSizeLimit inFilename;;
  validateFileContents fuel inFilename;;
  checkOutputDirectory outFilename.

(** The [for] loop of [readSegment]; [todo] is
    [numberOfLinesPerSegment - i]. *)
Fixpoint readSegmentLoop (todo : nat) (fileHandle : string)
    (startPosition i : nat) (buf : buffer) (lines : list jsstring)
  : M (list jsstring) :=
  match todo with
  | 0 => mret lines
  | S todo' =>
      '(bytesRead, readBuffer) ←
        fh_read fileHandle buf (lineSizeBytes this)
          (startPosition + i * lineSizeBytes this);
      if bytesRead =? 0 then mret lines
      else
        let line := trim (toString_utf8 readBuffer) in
        readSegmentLoop todo' fileHandle startPosition (i + 1) readBuffer
          (lines ++ [line])
  end.

Definition readSegment (fileHandle : string) (startPosition : nat)
  : M (list jsstring) :=
  readSegmentLoop (numberOfLinesPerSegment this) fileHandle startPosition 0
    (Buffer_alloc (lineSizeBytes this)) [].

Definition tempFilePath (fileNameNoEnd : string) (segmentCounter : nat)
  : string :=
  fileNameNoEnd +:+ TEMP_FILE_PREFIX +:+ pretty segmentCounter
  +:+ TEMP_FILE_EXTENSION.

Definition writeSortedSegment (lines : list jsstring) (segmentCounter : nat)
    (fileNameNoEnd : string) : M string :=
  let lines := sort lines in
  fsp_writeFile (tempFilePath fileNameNoEnd segmentCounter)
    (Buffer_from_ascii (join EOL lines ++ EOL));;
  mret (tempFilePath fileNameNoEnd segmentCounter).

(** The [while (true)] loop of [sortSegments]. *)
Fixpoint sortSegmentsLoop (fuel : nat) (fileHandle fileNameNoEnd : string)
    (segments : list string) (segmentCounter bytesRead : nat)
  : M (list string) :=
  match fuel with
  | 0 => out_of_fuel
  | S fuel' =>
      lines ← readSegment fileHandle bytesRead;
      if length lines =? 0 then mret segments
      else
        path ← writeSortedSegment lines segmentCounter fileNameNoEnd;
        sortSegmentsLoop fuel' fileHandle fileNameNoEnd (segments ++ [path])
          (segmentCounter + 1) (bytesRead + length lines * lineSizeBytes this)
  end.

Definition sortSegments (fuel : nat) (inFilename : string)
  : M (list string) :=
  let fileNameNoEnd := slice_0_minus4 inFilename in
  fileHandle ← fsp_open_r inFilename;
  try_finally (sortSegmentsLoop fuel fileHandle fileNameNoEnd [] 0 0)
    (fh_close fileHandle).

Definition readInitialLines (fileHandles : list string)
  : M (list jsstring) :=
  readResults ←
    Promise_all
      (map (λ handle,
              fh_read handle (Buffer_alloc (lineSizeBytes this))
                (lineSizeBytes this) 0)
         fileHandles);
  mret (map (λ result : nat * buffer, trim (toString_ascii result.2))
          readResults).

Definition writeLineToOutput (outFile : string) (line : jsstring) : M unit :=
  fh_write outFile
    (Buffer_from_ascii
       (padEnd (lineSizeBytes this - length EOL) line ++ EOL)).

(** [readNextLine]: [fileHandle] is [undefined] when [performMerge] indexed
    the handles outside the array, and the call of [read] on it is a
    [TypeError].  With a handle, [index] is the index it was found at, inside
    [lines] and [positions]. *)
Definition readNextLine (fileHandle : option string) (index : Z)
    (lines : list jsstring) (positions : list nat)
  : M (list jsstring * list nat) :=
  match fileHandle with
  | None => throw TypeError
  | Some handle =>
      let i := Z.to_nat index in
      let position := default 0 (positions !! i) in
      '(bytesRead, readBuffer) ←
        fh_read handle (Buffer_alloc (lineSizeBytes this))
          (lineSizeBytes this) position;
      let positions := <[i := position + lineSizeBytes this]> positions in
      if bytesRead =? 0 then mret (<[i := []]> lines, positions)
      else mret (<[i := trim (toString_ascii readBuffer)]> lines, positions)
  end.

(** The [while] loop of [performMerge]. *)
Fixpoint mergeLoop (fuel : nat) (fileHandles : list string)
    (outFile : string) (lines : list jsstring) (positions : list nat)
  : M unit :=
  if existsb (λ line, bool_decide (line ≠ [])) lines then
    match fuel with
    | 0 => out_of_fuel
    | S fuel' =>
        let '(minLine, minIndex) := findMinLine lines in
        writeLineToOutput outFile minLine;;
        '(lines', positions') ←
          readNextLine (array_get fileHandles minIndex) minIndex lines
            positions;
        mergeLoop fuel' fileHandles outFile lines' positions'
    end
  else mret tt.

Definition performMerge (fuel : nat) (fileHandles : list string)
    (outFile : string) : M unit :=
  lines ← readInitialLines fileHandles;
  let positions := replicate (length fileHandles) (lineSizeBytes this) in
  mergeLoop fuel fileHandles outFile lines positions.

Definition cleanupFiles (fileHandles : list string) (outFile : string)
    (segments : list string) : M unit :=
  Promise_all (map fh_close fileHandles);;
  fh_close outFile;;
  Promise_all (map fsp_unlink segments);;
  mret tt.

Definition mergeSegments (fuel : nat) (segments : list string)
    (outFilename : string) : M unit :=
  fileHandles ← Promise_all (map fsp_open_r segments);
  outFile ← fsp_open_w outFilename;
  try_finally (performMerge fuel fileHandles outFile)
    (cleanupFiles fileHandles outFile segments).

Definition Sort (fuel : nat) (inFilename outFilename : string) : M unit :=
  validateInput fuel inFilename outFilename;;
  sortedSegments ← sortSegments fuel inFilename;
  mergeSegments fuel sortedSegments outFilename.

End SortFile.

(** ** Notions of the specification *)

(** The fixed-width records of a file: [width] bytes each, the last one
    shorter when the length of the file is no multiple of [width]. *)
Definition chunks (width : nat) (data : buffer) : list buffer :=
  (λ i, take width (drop (i * width) data))
    <$> seq 0 ((length data + width - 1) / width).

(** The payload of a record as the class holds it in memory. *)
Definition payload (rec : buffer) : jsstring := trim (toString_ascii rec).

Definition payloads (width : nat) (data : buffer) : list jsstring :=
  payload <$> chunks width data.

(** Lexicographic byte order on records. *)
Definition bytes_le (a b : buffer) : bool :=
  js_le (Byte.to_N <$> a) (Byte.to_N <$> b).

(** [r[i] <= r[i+1]] for all adjacent records. *)
Definition sorted_records (rs : list buffer) : Prop :=
  ∀ i r r', rs !! i = Some r → rs !! S i = Some r' → bytes_le r r' = true.

Definition seven_bit (data : buffer) : Prop :=
  Forall (λ b, (Byte.to_N b < 128)%N) data.

(** A decoder that is the engine's on buffers of 7-bit bytes (where UTF-8 is
    ASCII); it serves to run the class on such files. *)
Definition toString_utf8_7bit (buf : buffer) : jsstring :=
  (λ b, if (Byte.to_N b <? 128)%N then Byte.to_N b else 65533%N) <$> buf.

(** What the development asks of the decoder. *)
Definition utf8_on_7bit (toString_utf8 : buffer → jsstring) : Prop :=
  ∀ buf, seven_bit buf → toString_utf8 buf = Byte.to_N <$> buf.

(** A record on disk: the payload and the line terminator. *)
Definition record (text : string) : buffer :=
  list_byte_of_string text ++ Buffer_from_ascii EOL.


(** A small instance of the class, with the driver's shape. *)
Definition sorter (segment width : nat) : SortFile :=
  {| maxFileSizeBytes := 1000;
     numberOfLinesPerSegment := segment;
     lineSizeBytes := width |}.

(** [a <= b] on strings, as a proposition. *)
Definition js_ordered (a b : jsstring) : Prop := js_le a b = true.

(** ** Notions of the proofs *)

(** An operation that leaves the file system as it was whenever it returns
    or throws. *)
Definition preserves {A} (m : M A) : Prop :=
  ∀ st st' r, m st = (st', r) → r ≠ OutOfFuel → st' = st.

(** The file system with one more open handle. *)
Definition with_handle (h : string) (st : fs) : fs :=
  Fs (files st) (dirs st) (h :: handles st).

Ltac unfold_M :=
  unfold mbind, M_bind, mret, M_ret, throw, out_of_fuel, try_catch,
    try_finally in *.

(** A record of the input the width check accepts: [width] bytes whose
    text, trimmed, has [width - 2] characters. *)
Definition valid_window (width : nat) (w : buffer) : Prop :=
  length w = width ∧ length (payload w) + length EOL = width.

(** A line as [writeSortedSegment] and [writeLineToOutput] put it on disk
    when it needs no padding. *)
Definition line_record (line : jsstring) : buffer :=
  Buffer_from_ascii (line ++ EOL).

Definition run_bytes (lines : list jsstring) : buffer :=
  concat (line_record <$> lines).

(** A string with no white space at either end. *)
Definition clean (s : jsstring) : Prop :=
  trimStart s = s ∧ trimStart (rev s) = rev s.

(** The lines of a validated file of 7-bit bytes: [width - 2] characters
    below 128, the first and the last no white space. *)
Definition good_line (width : nat) (l : jsstring) : Prop :=
  length l + length EOL = width ∧ Forall (λ c, (c < 128)%N) l ∧ clean l.

(** The lines of the segment made from a group of records. *)
Definition segment_lines (toString_utf8 : buffer → jsstring)
    (group : list buffer) : list jsstring :=
  sort ((λ w, trim (toString_utf8 w)) <$> group).

(** A group of whole records, one segment of the input. *)
Definition full_group (this : SortFile) (group : list buffer) : Prop :=
  length group = numberOfLinesPerSegment this
  ∧ Forall (λ w, length w = lineSizeBytes this) group.

(** The state of one run during the merge: the lines already written to the
    output and the lines still in the run, the first of which is
    buffered. *)
Definition cursor_line (c : list jsstring * list jsstring) : jsstring :=
  default [] (head c.2).

Definition cursor_position (width : nat)
    (c : list jsstring * list jsstring) : nat :=
  (length c.1 + 1) * width.

(** The file of a run holds the lines of its cursor. *)
Definition runs_on_disk (st : fs) (segments : list string)
    (cursors : list (list jsstring * list jsstring)) : Prop :=
  Forall2 (λ segment c, files st !! segment = Some (run_bytes (c.1 ++ c.2)))
    segments cursors.

(** A line [findMinLine] can select: its first character is not 127. *)
Definition below_sentinel (l : jsstring) : Prop := head l ≠ Some 127%N.

(** The lines of a cursor are good lines below the sentinel, in ascending
    order. *)
Definition good_cursor (width : nat)
    (c : list jsstring * list jsstring) : Prop :=
  Forall (good_line width) (c.1 ++ c.2)
  ∧ Forall below_sentinel c.2
  ∧ StronglySorted js_ordered c.2.

(** What an operation of the merge may change: the bytes of the output
    file. *)
Definition writes_only (outFile : string) (st st' : fs) : Prop :=
  dirs st' = dirs st ∧ handles st' = handles st
  ∧ ∀ p, p ≠ outFile → files st' !! p = files st !! p.

(** ** Notions of the further properties *)

(** What [fsp.access] and [fsp.open(p, "r")] ask of a path: it names a
    regular file or a directory. *)
Definition accessible (st : fs) (p : string) : bool :=
  bool_decide (is_Some (files st !! p)) || bool_decide (is_Some (dirs st !! p)).

(** What an operation leaves of the storage, however it ends: the
    directories, and the files whose path is not in [P]. *)
Definition touches_only (P : string → Prop) (st st' : fs) : Prop :=
  dirs st' = dirs st ∧ ∀ p, ¬ P p → files st' !! p = files st !! p.

Definition touching {A} (P : string → Prop) (m : M A) : Prop :=
  ∀ st, touches_only P st (m st).1.

(** The errors an operation can throw. *)
Definition throws_only {A} (P : error → Prop) (m : M A) : Prop :=
  ∀ st st' e, m st = (st', Throw e) → P e.

#[global] Instance valid_window_dec (width : nat) (w : buffer) :
  Decision (valid_window width w).
Proof. unfold valid_window. apply _. Defined.

(** What is before the last ['-'] of a string, [None] when it has none. *)
Fixpoint before_last_dash (p : string) : option string :=
  match p with
  | EmptyString => None
  | String c p' =>
      match before_last_dash p' with
      | Some d => Some (String c d)
      | None => if Ascii.eqb c "-"%char then Some EmptyString else None
      end
  end.

(** The size of the file at a path, 0 when there is none. *)
Definition file_size (st : fs) (p : string) : nat :=
  length (default [] (files st !! p)).

(** What run [i] can still cost the merge loop: nothing once its buffered
    line is the empty string, else one iteration and one per byte behind
    its position. *)
Definition merge_weight (st : fs) (fileHandles : list string)
    (lines : list jsstring) (positions : list nat) (i : nat) : nat :=
  match lines !! i with
  | Some (_ :: _) =>
      S (file_size st (default EmptyString (fileHandles !! i))
         - default 0 (positions !! i))
  | _ => 0
  end.


(** * Properties *)

(** ** The order on strings *)

Lemma js_lt_irrefl (a : jsstring) : js_lt a a = false.
Proof. induction a as [|x a IH]; simpl; [done|]. by rewrite N.ltb_irrefl. Qed.

Lemma js_lt_trans (a b c : jsstring) :
  js_lt a b = true → js_lt b c = true → js_lt a c = true.
Proof.
  revert b c. induction a as [|x a IH]; intros [|y b] [|z c]; simpl; try done.
  destruct (N.ltb_spec x y), (N.ltb_spec y x), (N.ltb_spec y z),
    (N.ltb_spec z y), (N.ltb_spec x z), (N.ltb_spec z x);
    try done; try lia; eauto.
Qed.

Lemma js_lt_asym (a b : jsstring) : js_lt a b = true → js_lt b a = false.
Proof.
  intros H. destruct (js_lt b a) eqn:E; [|done].
  pose proof (js_lt_trans _ _ _ H E) as Hn. by rewrite js_lt_irrefl in Hn.
Qed.

Lemma js_lt_connex (a b : jsstring) :
  js_lt a b = false → js_lt b a = false → a = b.
Proof.
  revert b. induction a as [|x a IH]; intros [|y b]; simpl; try done.
  destruct (N.ltb_spec x y), (N.ltb_spec y x); try done.
  intros ??. f_equal; [lia | eauto].
Qed.

Lemma js_le_refl (a : jsstring) : js_le a a = true.
Proof. unfold js_le. by rewrite js_lt_irrefl. Qed.

Lemma js_le_trans (a b c : jsstring) :
  js_le a b = true → js_le b c = true → js_le a c = true.
Proof.
  unfold js_le. intros Hab Hbc.
  destruct (js_lt c a) eqn:Hca; [|done].
  destruct (js_lt b a) eqn:E1; [done|].
  destruct (js_lt c b) eqn:E2; [done|].
  destruct (js_lt a b) eqn:E3.
  - by rewrite (js_lt_trans _ _ _ Hca E3) in E2.
  - rewrite (js_lt_connex _ _ E3 E1) in Hca. by rewrite Hca in E2.
Qed.

Lemma js_le_antisym (a b : jsstring) :
  js_le a b = true → js_le b a = true → a = b.
Proof.
  unfold js_le. intros H1 H2. apply js_lt_connex; by apply negb_true_iff.
Qed.

Lemma js_lt_le (a b : jsstring) : js_lt a b = true → js_le a b = true.
Proof. intros H. unfold js_le. by rewrite (js_lt_asym _ _ H). Qed.

(** ** [indexOf] and [findMinLine] *)

Lemma indexOf_range (lines : list jsstring) (x : jsstring) :
  (-1 ≤ indexOf lines x < Z.of_nat (length lines))%Z.
Proof.
  induction lines as [|l lines IH]; simpl; [lia|].
  case_decide; [lia|]. destruct (Z.ltb_spec (indexOf lines x) 0); lia.
Qed.

Lemma indexOf_first (lines : list jsstring) (x : jsstring) (i : nat) :
  lines !! i = Some x → (∀ j, j < i → lines !! j ≠ Some x) →
  indexOf lines x = Z.of_nat i.
Proof.
  revert i. induction lines as [|l lines IH]; intros i Hi Hlow; [done|].
  simpl. destruct i as [|i]; simpl in Hi.
  - injection Hi as ->. by rewrite decide_True.
  - rewrite decide_False.
    + rewrite (IH i Hi).
      * destruct (Z.ltb_spec (Z.of_nat i) 0); lia.
      * intros j Hj. apply (Hlow (S j)). lia.
    + intros ->. by apply (Hlow 0); [lia|].
Qed.

Lemma indexOf_not_elem (lines : list jsstring) (x : jsstring) :
  x ∉ lines → indexOf lines x = (-1)%Z.
Proof.
  induction lines as [|l lines IH]; intros Hx; simpl; [done|].
  rewrite decide_False; [|intros ->; apply Hx; left].
  rewrite IH; [done|]. intros ?. apply Hx. by right.
Qed.

Lemma indexOf_elem (lines : list jsstring) (x : jsstring) :
  x ∈ lines →
  ∃ i, indexOf lines x = Z.of_nat i ∧ lines !! i = Some x
       ∧ ∀ j, j < i → lines !! j ≠ Some x.
Proof.
  induction lines as [|l lines IH]; intros Hx; [by apply elem_of_nil in Hx|].
  destruct (decide (l = x)) as [->|Hne].
  - exists 0. simpl. rewrite decide_True by done. split_and!; [done..|lia].
  - apply elem_of_cons in Hx as [->|Hx]; [done|].
    destruct (IH Hx) as (i & Hi & Hl & Hlow). exists (S i). simpl.
    rewrite decide_False by done. rewrite Hi.
    destruct (Z.ltb_spec (Z.of_nat i) 0); [lia|]. split_and!; [lia|done|].
    intros [|j] Hj; simpl; [congruence|]. apply Hlow. lia.
Qed.

(** The accumulator of [findMinLine]'s [reduce]. *)
Lemma findMinLine_fold (lines : list jsstring) (init : jsstring) :
  let r :=
    fold_left
      (λ min current,
         if bool_decide (current ≠ []) && js_lt current min then current else min)
      lines init in
  (r = init ∨ (r ∈ lines ∧ r ≠ [] ∧ js_lt r init = true))
  ∧ ∀ l, l ∈ lines → l ≠ [] → js_le r l = true.
Proof.
  revert init. induction lines as [|c lines IH]; intros init; simpl.
  { split; [by left|]. intros l Hl. by apply elem_of_nil in Hl. }
  destruct (IH (if bool_decide (c ≠ []) && js_lt c init then c else init))
    as [Hr Hmin].
  set (r := fold_left _ lines _) in *.
  assert (Hle : js_le r (if bool_decide (c ≠ []) && js_lt c init then c else init) = true).
  { destruct Hr as [->|(_ & _ & Hlt)]; [apply js_le_refl|by apply js_lt_le]. }
  split.
  - destruct Hr as [Hr|(Hin & Hne & Hlt)].
    + destruct (bool_decide (c ≠ []) && js_lt c init) eqn:E; [|by left].
      apply andb_true_iff in E as [E1 E2]. apply bool_decide_eq_true in E1.
      right. rewrite Hr. split_and!; [left|done|done].
    + right. split_and!; [by right|done|].
      destruct (bool_decide (c ≠ []) && js_lt c init) eqn:E; [|done].
      apply andb_true_iff in E as [_ E2]. by eapply js_lt_trans.
  - intros l Hl Hne. apply elem_of_cons in Hl as [->|Hl]; [|by apply Hmin].
    eapply js_le_trans; [apply Hle|].
    rewrite bool_decide_eq_true_2 by done. simpl.
    destruct (js_lt c init) eqn:E; [apply js_le_refl|].
    unfold js_le. by rewrite E.
Qed.

(** X22: when the smallest non-exhausted buffered value is not greater than
    the sentinel [MAX_ASCII_CHAR], [findMinLine] returns that value and the
    lowest index that holds it, also when several buffers hold it. *)
Theorem findMinLine_lowest_index (lines : list jsstring) (i : nat) (v : jsstring) :
  lines !! i = Some v →
  v ≠ [] →
  (∀ l, l ∈ lines → l ≠ [] → js_le v l = true) →
  js_le v MAX_ASCII_CHAR = true →
  (∀ j, j < i → lines !! j ≠ Some v) →
  findMinLine lines = (v, Z.of_nat i).
Proof.
  intros Hi Hne Hmin Hmax Hlow. unfold findMinLine.
  destruct (findMinLine_fold lines MAX_ASCII_CHAR) as [Hr Hle].
  set (r := fold_left _ lines _) in *.
  assert (r = v) as ->.
  { apply js_le_antisym.
    - apply Hle; [|done]. apply list_elem_of_lookup. eauto.
    - destruct Hr as [->|(Hin & Hr & _)]; [done|by apply Hmin]. }
  by rewrite (indexOf_first _ _ _ Hi Hlow).
Qed.

Lemma findMinLine_lowest_index_witness :
  findMinLine [[98%N]; [97%N]; []; [97%N]] = ([97%N], 1%Z).
Proof.
  apply (findMinLine_lowest_index [[98%N]; [97%N]; []; [97%N]] 1 [97%N]).
  - reflexivity.
  - discriminate.
  - intros l Hl Hne. repeat (apply elem_of_cons in Hl as [->|Hl]); try done.
    by apply elem_of_nil in Hl.
  - reflexivity.
  - intros j Hj. assert (j = 0) as -> by lia. discriminate.
Defined.

(** C7: two buffers hold the same smallest non-exhausted value, a line
    that begins with the character 127 and goes on; the buffer of index 0
    is not selected: [findMinLine] returns the sentinel, a line no buffer
    holds, and the index [-1], although its comment says it finds the
    smallest line among all segments. *)
Lemma findMinLine_tie_above_sentinel :
  let v := [127%N; 97%N] in
  let lines := [v; v] in
  lines !! 0 = Some v ∧ lines !! 1 = Some v ∧ v ≠ []
  ∧ (∀ l, l ∈ lines → l ≠ [] → js_le v l = true)
  ∧ (findMinLine lines).2 ≠ 0%Z
  ∧ findMinLine lines = (MAX_ASCII_CHAR, (-1)%Z).
Proof.
  simpl. split_and!; try done.
  intros l Hl _. repeat (apply elem_of_cons in Hl as [->|Hl]); try done.
  by apply elem_of_nil in Hl.
Qed.

Lemma findMinLine_all_above (lines : list jsstring) :
  (∀ l, l ∈ lines → l ≠ [] → js_lt MAX_ASCII_CHAR l = true) →
  findMinLine lines = (MAX_ASCII_CHAR, (-1)%Z).
Proof.
  intros Habove. unfold findMinLine.
  destruct (findMinLine_fold lines MAX_ASCII_CHAR) as [Hr _].
  set (r := fold_left _ lines _) in *.
  assert (r = MAX_ASCII_CHAR) as ->.
  { destruct Hr as [->|(Hin & Hne & Hlt)]; [done|].
    by rewrite (js_lt_asym _ _ (Habove _ Hin Hne)) in Hlt. }
  rewrite indexOf_not_elem; [done|].
  intros Hin. specialize (Habove _ Hin). rewrite js_lt_irrefl in Habove.
  by specialize (Habove ltac:(done)).
Qed.

Lemma findMinLine_valid_index (lines : list jsstring) :
  (0 ≤ (findMinLine lines).2)%Z ↔
  (∃ l, l ∈ lines ∧ l ≠ [] ∧ js_lt l MAX_ASCII_CHAR = true)
  ∨ MAX_ASCII_CHAR ∈ lines.
Proof.
  unfold findMinLine. simpl.
  destruct (findMinLine_fold lines MAX_ASCII_CHAR) as [Hr Hle].
  set (r := fold_left _ lines _) in *.
  split.
  - intros Hidx. destruct (decide (r ∈ lines)) as [Hin|Hnin].
    + destruct Hr as [->|(_ & Hne & Hlt)]; [by right|left; eauto].
    + rewrite indexOf_not_elem in Hidx by done. lia.
  - intros Hex. assert (r ∈ lines) as Hin.
    { destruct Hr as [->|(? & _)]; [|done].
      destruct Hex as [(l & Hl & Hne & Hlt)|?]; [|done].
      specialize (Hle l Hl Hne). unfold js_le in Hle. by rewrite Hlt in Hle. }
    destruct (indexOf_elem _ _ Hin) as (i & -> & _). lia.
Qed.

Lemma existsb_non_empty (lines : list jsstring) :
  existsb (λ line, bool_decide (line ≠ [])) lines = true ↔
  ∃ l, l ∈ lines ∧ l ≠ [].
Proof.
  rewrite existsb_exists. split; intros (l & Hl & Hne); exists l.
  - split; [by apply list_elem_of_In|by apply bool_decide_eq_true in Hne].
  - split; [by apply list_elem_of_In|by apply bool_decide_eq_true].
Qed.

(** C9 (as amended): when some buffer is non-exhausted and every
    non-exhausted buffered value is greater than the sentinel (at least the
    sentinel and not equal to it), [findMinLine] returns the sentinel with
    [minIndex = -1]; [performMerge] then writes the sentinel as a record,
    indexes the handles outside the array and the cursor advance throws.
    The selection returns an index inside the array exactly when some
    non-exhausted value is strictly below the sentinel or some buffer holds
    the sentinel itself. *)
Theorem findMinLine_sentinel :
  (∀ (this : SortFile) (fuel : nat) (fileHandles : list string)
     (outFile : string) (lines : list jsstring) (positions : list nat)
     (st : fs) (old : buffer),
     (∃ l, l ∈ lines ∧ l ≠ []) →
     (∀ l, l ∈ lines → l ≠ [] → js_lt MAX_ASCII_CHAR l = true) →
     files st !! outFile = Some old →
     findMinLine lines = (MAX_ASCII_CHAR, (-1)%Z)
     ∧ array_get fileHandles (findMinLine lines).2 = None
     ∧ mergeLoop this (S fuel) fileHandles outFile lines positions st
       = (Fs (<[outFile :=
                  old ++ Buffer_from_ascii
                           (padEnd (lineSizeBytes this - length EOL)
                              MAX_ASCII_CHAR ++ EOL)]> (files st))
             (dirs st) (handles st),
          Throw TypeError))
  ∧ (∀ lines : list jsstring,
       (0 ≤ (findMinLine lines).2 < Z.of_nat (length lines))%Z ↔
       (∃ l, l ∈ lines ∧ l ≠ [] ∧ js_lt l MAX_ASCII_CHAR = true)
       ∨ MAX_ASCII_CHAR ∈ lines).
Proof.
  split.
  - intros this fuel fileHandles outFile lines positions st old Hex Habove Hout.
    pose proof (findMinLine_all_above lines Habove) as Hmin.
    rewrite Hmin. split_and!; [done..|].
    cbn [mergeLoop]. apply existsb_non_empty in Hex. rewrite Hex, Hmin.
    unfold mbind, M_bind, writeLineToOutput, fh_write. by rewrite Hout.
  - intros lines. rewrite <- findMinLine_valid_index.
    pose proof (indexOf_range lines (findMinLine lines).1) as Hr.
    unfold findMinLine in *. simpl in *. lia.
Qed.

Lemma findMinLine_sentinel_witness :
  findMinLine [[]; [127%N; 97%N]] = (MAX_ASCII_CHAR, (-1)%Z)
  ∧ ((0 ≤ (findMinLine [[127%N]]).2 < 1)%Z ↔
     (∃ l, l ∈ [[127%N]] ∧ l ≠ [] ∧ js_lt l MAX_ASCII_CHAR = true)
     ∨ MAX_ASCII_CHAR ∈ [[127%N]]).
Proof.
  split.
  - apply (proj1 findMinLine_sentinel
             {| maxFileSizeBytes := 100; numberOfLinesPerSegment := 1;
                lineSizeBytes := 4 |}
             0 ["run0"; "run1"] "out" [[]; [127%N; 97%N]] [4; 4]
             (Fs {[ "out" := [] ]} ∅ []) []).
    + exists [127%N; 97%N]. split; [|discriminate]. right. left.
    + intros l Hl Hne. repeat (apply elem_of_cons in Hl as [->|Hl]); try done.
      by apply elem_of_nil in Hl.
    + reflexivity.
  - apply (proj2 findMinLine_sentinel [[127%N]]).
Defined.

(** C9 as stated fails when a buffer holds exactly the sentinel: every
    non-exhausted value is at least the sentinel, none is strictly below it,
    and [findMinLine] returns the index of that buffer, not [-1]. *)
Lemma findMinLine_equal_sentinel :
  let lines := [[]; MAX_ASCII_CHAR] in
  (∃ l, l ∈ lines ∧ l ≠ [])
  ∧ (∀ l, l ∈ lines → l ≠ [] → js_le MAX_ASCII_CHAR l = true)
  ∧ (∀ l, l ∈ lines → l ≠ [] → js_lt l MAX_ASCII_CHAR = false)
  ∧ findMinLine lines = (MAX_ASCII_CHAR, 1%Z)
  ∧ (findMinLine lines).2 ≠ (-1)%Z.
Proof.
  simpl. split_and!; try done.
  - exists MAX_ASCII_CHAR. split; [|done]. right. left.
  - intros l Hl Hne. repeat (apply elem_of_cons in Hl as [->|Hl]); try done.
    by apply elem_of_nil in Hl.
  - intros l Hl Hne. repeat (apply elem_of_cons in Hl as [->|Hl]); try done.
    by apply elem_of_nil in Hl.
Qed.

(** ** Effects of the primitives *)

Lemma fs_eta (st : fs) : Fs (files st) (dirs st) (handles st) = st.
Proof. by destruct st. Qed.

Lemma remove_first_head (h : string) (hs : list string) :
  remove_first h (h :: hs) = hs.
Proof. simpl. by rewrite decide_True. Qed.

Lemma preserves_bind {A B} (m : M A) (k : A → M B) :
  preserves m → (∀ a, preserves (k a)) → preserves (m ≫= k).
Proof.
  intros Hm Hk st st' r. unfold_M.
  destruct (m st) as [st1 [a|e|]] eqn:E.
  - intros Hka Hr. rewrite (Hk _ _ _ _ Hka Hr). by eapply Hm.
  - intros [= <- <-] _. by eapply Hm.
  - by intros [= <- <-].
Qed.

Lemma preserves_try_catch {A} (m h : M A) :
  preserves m → preserves h → preserves (try_catch m h).
Proof.
  intros Hm Hh st st' r. unfold_M.
  destruct (m st) as [st1 [a|e|]] eqn:E.
  - intros [= <- <-] _. by eapply Hm.
  - intros Hhr Hr. rewrite (Hh _ _ _ Hhr Hr). by eapply Hm.
  - by intros [= <- <-].
Qed.

Lemma preserves_access (p : string) : preserves (fsp_access p).
Proof. intros st st' r. unfold fsp_access. by destruct (_ || _); intros [= <- <-]. Qed.

Lemma preserves_stat (p : string) : preserves (fsp_stat_size p).
Proof.
  intros st st' r. unfold fsp_stat_size.
  by destruct (files st !! p), (dirs st !! p); intros [= <- <-].
Qed.

Lemma preserves_throw {A} (e : error) : preserves (@throw A e).
Proof. by intros st st' r [= <- <-]. Qed.

Lemma preserves_ret {A} (a : A) : preserves (mret a).
Proof. by intros st st' r [= <- <-]. Qed.

Lemma fh_read_state (h : string) (buf : buffer) (len pos : nat) (st : fs) :
  (fh_read h buf len pos st).1 = st.
Proof. unfold fh_read. by destruct (files st !! h). Qed.

Lemma checkLineLoop_state (this : SortFile) (fuel : nat) (h : string)
    (bytesRead : nat) (buf : buffer) (lineCount : nat) (st : fs) :
  (checkLineLoop this fuel h bytesRead buf lineCount st).1 = st.
Proof.
  revert bytesRead buf lineCount.
  induction fuel as [|fuel IH]; intros bytesRead buf lineCount; [done|].
  cbn [checkLineLoop]. unfold_M. unfold fh_read.
  destruct (files st !! h) as [data|]; [|done].
  destruct (_ =? 0); [done|]. destruct (negb _); [done|]. apply IH.
Qed.

Lemma checkLineLengthAndCount_state (this : SortFile) (fuel : nat)
    (h : string) (st : fs) :
  (checkLineLengthAndCount this fuel h st).1 = st.
Proof.
  unfold checkLineLengthAndCount. unfold_M.
  pose proof (checkLineLoop_state this fuel h 0
                (Buffer_alloc (lineSizeBytes this)) 0 st) as Hst.
  destruct (checkLineLoop _ _ _ _ _ _ _) as [st1 [count| |]];
    simpl in Hst; subst st1; [|done..].
  by destruct (rem_nonzero _ _).
Qed.

Lemma preserves_validateFileContents (this : SortFile) (fuel : nat)
    (filename : string) :
  preserves (validateFileContents this fuel filename).
Proof.
  intros st st' r. unfold validateFileContents. unfold_M.
  unfold fsp_open_r, fh_close.
  destruct (_ || _); [|by intros [= <- <-]].
  match goal with
  | |- context [checkLineLengthAndCount ?t ?f ?h ?s] =>
      pose proof (checkLineLengthAndCount_state t f h s) as Hst;
      destruct (checkLineLengthAndCount t f h s) as [st1 [[]|e|]];
      simpl in Hst; subst st1; cbn [files dirs handles]
  end.
  all: rewrite ?remove_first_head, ?fs_eta; by intros [= <- <-].
Qed.

(** Validation that returns or throws leaves the file system as it was. *)
Lemma preserves_validateInput (this : SortFile) (fuel : nat)
    (inFilename outFilename : string) :
  preserves (validateInput this fuel inFilename outFilename).
Proof.
  unfold validateInput, checkFileExists, checkFileSizeLimit,
    checkOutputDirectory.
  repeat first
    [ apply preserves_validateFileContents
    | apply preserves_bind; [|intros ?]
    | apply preserves_try_catch
    | apply preserves_access
    | apply preserves_stat
    | apply preserves_throw
    | apply (preserves_ret (A := ()))
    | match goal with |- preserves (if ?b then _ else _) => destruct b end ].
Qed.

(** ** Running one step *)

Lemma bind_Ok {A B} (m : M A) (k : A → M B) (st st' : fs) (a : A) :
  m st = (st', Ok a) → (m ≫= k) st = k a st'.
Proof. intros H. unfold_M. by rewrite H. Qed.

Lemma bind_Throw {A B} (m : M A) (k : A → M B) (st st' : fs) (e : error) :
  m st = (st', Throw e) → (m ≫= k) st = (st', Throw e).
Proof. intros H. unfold_M. by rewrite H. Qed.

Lemma try_finally_run {A} (m : M A) (fin : M unit) (st st1 st2 : fs)
    (r : outcome A) :
  m st = (st1, r) → r ≠ OutOfFuel → fin st1 = (st2, Ok ()) →
  try_finally m fin st = (st2, r).
Proof. intros Hm Hr Hfin. unfold_M. rewrite Hm, Hfin. by destruct r. Qed.

Lemma fsp_open_r_file (p : string) (st : fs) (data : buffer) :
  files st !! p = Some data → fsp_open_r p st = (with_handle p st, Ok p).
Proof. intros H. unfold fsp_open_r. by rewrite H. Qed.

Lemma fh_close_with_handle (h : string) (st : fs) :
  fh_close h (with_handle h st) = (st, Ok ()).
Proof.
  unfold fh_close, with_handle. cbn [files dirs handles].
  by rewrite remove_first_head, fs_eta.
Qed.

Lemma fh_read_file (h : string) (buf : buffer) (len pos : nat) (st : fs)
    (data : buffer) :
  files st !! h = Some data →
  fh_read h buf len pos st
  = (st, Ok (length (take len (drop pos data)),
             take len (drop pos data)
             ++ drop (length (take len (drop pos data))) buf)).
Proof. intros H. unfold fh_read. by rewrite H. Qed.

Lemma fsp_access_file (p : string) (st : fs) (data : buffer) :
  files st !! p = Some data → fsp_access p st = (st, Ok ()).
Proof. intros H. unfold fsp_access. by rewrite H. Qed.

Lemma checkFileExists_file (p : string) (st : fs) (data : buffer) :
  files st !! p = Some data → checkFileExists p st = (st, Ok ()).
Proof.
  intros H. unfold checkFileExists. unfold_M.
  by rewrite (fsp_access_file _ _ _ H).
Qed.

Lemma checkOutputDirectory_file (p : string) (st : fs) (data : buffer) :
  files st !! p = Some data → checkOutputDirectory p st = (st, Ok ()).
Proof.
  intros H. unfold checkOutputDirectory. unfold_M.
  by rewrite (fsp_access_file _ _ _ H).
Qed.

(** [checkOutputDirectory] passes exactly when the output path itself is
    there, as a file or as a directory. *)
Lemma checkOutputDirectory_spec (p : string) (st : fs) :
  checkOutputDirectory p st
  = (st, if bool_decide (is_Some (files st !! p))
            || bool_decide (is_Some (dirs st !! p))
         then Ok () else Throw OutputDirectoryMissing).
Proof.
  unfold checkOutputDirectory. unfold_M. unfold fsp_access.
  by destruct (_ || _).
Qed.

Lemma checkFileSizeLimit_file (this : SortFile) (p : string) (st : fs)
    (data : buffer) :
  files st !! p = Some data → length data ≤ maxFileSizeBytes this →
  checkFileSizeLimit this p st = (st, Ok ()).
Proof.
  intros H Hle. unfold checkFileSizeLimit, fsp_stat_size. unfold_M.
  rewrite H. by rewrite (proj2 (Nat.ltb_ge _ _) Hle).
Qed.

Lemma validateFileContents_run (this : SortFile) (fuel : nat) (p : string)
    (st : fs) (data : buffer) (r : outcome ()) :
  files st !! p = Some data →
  checkLineLengthAndCount this fuel p (with_handle p st)
  = (with_handle p st, r) →
  r ≠ OutOfFuel →
  validateFileContents this fuel p st = (st, r).
Proof.
  intros H Hcheck Hr. unfold validateFileContents.
  rewrite (bind_Ok _ _ _ _ _ (fsp_open_r_file _ _ _ H)).
  eapply try_finally_run; [done..|apply fh_close_with_handle].
Qed.

Lemma validateInput_run (this : SortFile) (fuel : nat)
    (inFilename outFilename : string) (st : fs) (data old : buffer) :
  files st !! inFilename = Some data →
  length data ≤ maxFileSizeBytes this →
  checkLineLengthAndCount this fuel inFilename (with_handle inFilename st)
  = (with_handle inFilename st, Ok ()) →
  files st !! outFilename = Some old →
  validateInput this fuel inFilename outFilename st = (st, Ok ()).
Proof.
  intros Hin Hsize Hcheck Hout. unfold validateInput.
  rewrite (bind_Ok _ _ _ _ _ (checkFileExists_file _ _ _ Hin)).
  rewrite (bind_Ok _ _ _ _ _ (checkFileSizeLimit_file _ _ _ _ Hin Hsize)).
  rewrite (bind_Ok _ _ _ _ _
             (validateFileContents_run _ _ _ _ _ _ Hin Hcheck ltac:(done))).
  by eapply checkOutputDirectory_file.
Qed.

(** ** The end of the file *)

Lemma checkLineLoop_eof (this : SortFile) (fuel : nat) (h : string)
    (pos : nat) (buf : buffer) (count : nat) (st : fs) (data : buffer) :
  files st !! h = Some data → length data ≤ pos →
  checkLineLoop this (S fuel) h pos buf count st = (st, Ok count).
Proof.
  intros H Hpos. cbn [checkLineLoop].
  rewrite (bind_Ok _ _ _ _ _ (fh_read_file _ _ _ _ _ _ H)).
  by rewrite drop_ge, take_nil.
Qed.

Lemma readSegmentLoop_eof (toString_utf8 : buffer → jsstring)
    (this : SortFile) (todo : nat) (h : string) (start i : nat)
    (buf : buffer) (lines : list jsstring) (st : fs) (data : buffer) :
  files st !! h = Some data →
  length data ≤ start + i * lineSizeBytes this →
  readSegmentLoop toString_utf8 this todo h start i buf lines st
  = (st, Ok lines).
Proof.
  intros H Hpos. destruct todo as [|todo]; [done|]. cbn [readSegmentLoop].
  rewrite (bind_Ok _ _ _ _ _ (fh_read_file _ _ _ _ _ _ H)).
  by rewrite drop_ge, take_nil.
Qed.

Lemma sortSegments_run (toString_utf8 : buffer → jsstring)
    (this : SortFile) (fuel : nat) (p : string) (st st' : fs)
    (data : buffer) (r : outcome (list string)) :
  files st !! p = Some data →
  sortSegmentsLoop toString_utf8 this fuel p (slice_0_minus4 p) [] 0 0
    (with_handle p st) = (with_handle p st', r) →
  r ≠ OutOfFuel →
  sortSegments toString_utf8 this fuel p st = (st', r).
Proof.
  intros H Hloop Hr. unfold sortSegments.
  rewrite (bind_Ok _ _ _ _ _ (fsp_open_r_file _ _ _ H)).
  eapply try_finally_run; [done..|apply fh_close_with_handle].
Qed.

(** ** The empty input *)

(** C10 (as amended): for an empty input file, a segment size that is not
    zero and an output path that is an existing regular file (validation
    asks for the output path itself to exist), [Sort] succeeds: validation
    passes, no segment is made, nothing is written but the output file,
    which is truncated to the empty file, and every handle is closed
    again. *)
Theorem Sort_empty_input (toString_utf8 : buffer → jsstring)
    (this : SortFile) (fuel : nat) (inFilename outFilename : string)
    (st : fs) (old : buffer) :
  files st !! inFilename = Some [] →
  files st !! outFilename = Some old →
  dirs st !! outFilename = None →
  numberOfLinesPerSegment this ≠ 0 →
  fuel ≠ 0 →
  validateInput this fuel inFilename outFilename st = (st, Ok ())
  ∧ sortSegments toString_utf8 this fuel inFilename st = (st, Ok [])
  ∧ Sort toString_utf8 this fuel inFilename outFilename st
    = (Fs (<[outFilename := []]> (files st)) (dirs st) (handles st), Ok ()).
Proof.
  intros Hin Hout Hdir Hn Hfuel.
  destruct fuel as [|fuel]; [done|].
  assert (Hval : validateInput this (S fuel) inFilename outFilename st = (st, Ok ())).
  { eapply validateInput_run; [done|simpl; lia| |done].
    unfold checkLineLengthAndCount.
    erewrite bind_Ok; [|by eapply checkLineLoop_eof; [apply Hin|simpl; lia]].
    unfold rem_nonzero.
    destruct (Nat.eqb_spec (numberOfLinesPerSegment this) 0) as [|_]; [done|].
    by rewrite Nat.Div0.mod_0_l. }
  assert (Hseg : sortSegments toString_utf8 this (S fuel) inFilename st = (st, Ok [])).
  { eapply sortSegments_run; [done| |done]. cbn [sortSegmentsLoop].
    erewrite bind_Ok;
      [|by eapply readSegmentLoop_eof; [apply Hin|simpl; lia]].
    done. }
  split_and!; [done..|].
  unfold Sort. rewrite (bind_Ok _ _ _ _ _ Hval), (bind_Ok _ _ _ _ _ Hseg).
  unfold mergeSegments, performMerge, readInitialLines, cleanupFiles.
  unfold_M. unfold fsp_open_w, writable, fh_close. simpl.
  rewrite Hdir, Hout. simpl. by rewrite decide_True.
Qed.

Lemma Sort_empty_input_witness :
  let st := Fs {[ "in.txt" := []; "out.txt" := record "alice" ]} ∅ [] in
  validateInput (sorter 2 7) 1 "in.txt" "out.txt" st = (st, Ok ())
  ∧ sortSegments toString_utf8_7bit (sorter 2 7) 1 "in.txt" st = (st, Ok [])
  ∧ Sort toString_utf8_7bit (sorter 2 7) 1 "in.txt" "out.txt" st
    = (Fs (<["out.txt" := []]> (files st)) (dirs st) (handles st), Ok ()).
Proof.
  intros st.
  apply (Sort_empty_input toString_utf8_7bit (sorter 2 7) 1 "in.txt"
           "out.txt" st (record "alice")).
  - reflexivity.
  - reflexivity.
  - reflexivity.
  - discriminate.
  - discriminate.
Defined.

(** C10 as stated fails for a segment size of zero: [0 % 0] is [NaN], the
    divisibility check throws and the empty file is rejected. *)
Lemma Sort_empty_input_segment_size_zero :
  let st := Fs {[ "in.txt" := []; "out.txt" := [] ]} ∅ [] in
  files st !! "in.txt" = Some []
  ∧ Sort toString_utf8_7bit (sorter 0 7) 100 "in.txt" "out.txt" st
    = (st, Throw RecordCountNotDivisible).
Proof. split; vm_compute; reflexivity. Qed.

(** ** Behaviour at concrete inputs *)

(** C6: the output file does not exist yet, its parent directory does, and
    [checkOutputDirectory] (which tests the output path itself, although its
    name, its comment and its message speak of the directory) throws
    [OutputDirectoryMissing], so [Sort] fails; opening the path for writing
    would have created the file. *)
Theorem checkOutputDirectory_new_file_rejected :
  let st := Fs {[ "TestFiles/5InALine.txt" := record "alice" ]}
               {[ "TestFiles" := 4096 ]} [] in
  let outFilename := "TestFiles/output1.txt" in
  dirname outFilename = Some "TestFiles"
  ∧ parent_exists st outFilename = true
  ∧ files st !! outFilename = None
  ∧ checkOutputDirectory outFilename st = (st, Throw OutputDirectoryMissing)
  ∧ Sort toString_utf8_7bit (sorter 1 7) 100 "TestFiles/5InALine.txt"
      outFilename st = (st, Throw OutputDirectoryMissing)
  ∧ (fsp_open_w outFilename st).2 = Ok outFilename.
Proof. split_and!; vm_compute; reflexivity. Qed.

(** C4: a file whose last record has two bytes instead of seven passes the
    width check (the short read leaves the end of the previous record in
    the buffer, and the whole buffer is measured), and so passes
    validation; a file whose only record has seven bytes, with a payload
    that ends in a space, is rejected. *)
Theorem checkLineLengthAndCount_short_record_accepted :
  let short := record "abcde" ++ list_byte_of_string "xy" in
  let st := Fs {[ "in.txt" := short; "out.txt" := [] ]} ∅ [] in
  let padded := record "abcd " in
  let st' := Fs {[ "in.txt" := padded; "out.txt" := [] ]} ∅ [] in
  chunks 7 short = [record "abcde"; list_byte_of_string "xy"]
  ∧ checkLineLengthAndCount (sorter 1 7) 100 "in.txt" st = (st, Ok ())
  ∧ validateInput (sorter 1 7) 100 "in.txt" "out.txt" st = (st, Ok ())
  ∧ chunks 7 padded = [padded] ∧ length padded = 7
  ∧ checkLineLengthAndCount (sorter 1 7) 100 "in.txt" st'
    = (st', Throw MalformedRecordWidth).
Proof. split_and!; vm_compute; reflexivity. Qed.

(** C1: a file with a full record and then a record of two bytes passes
    validation, [Sort] succeeds, and the records of the output are not in
    order: the output is [abcde], then [xy] and five zero bytes, then five
    zero bytes, each followed by the line terminator.  The second record
    written is greater than the third, and the output cut into records of
    seven bytes is not in order either. *)
Theorem Sort_short_record_unsorted :
  let st := Fs {[ "in.txt" := record "abcde" ++ list_byte_of_string "xy";
                  "out.txt" := [] ]} ∅ [] in
  let zeros := replicate 5 "000"%byte in
  let output :=
    record "abcde"
    ++ (list_byte_of_string "xy" ++ zeros ++ Buffer_from_ascii EOL)
    ++ (zeros ++ Buffer_from_ascii EOL) in
  validateInput (sorter 1 7) 100 "in.txt" "out.txt" st = (st, Ok ())
  ∧ Sort toString_utf8_7bit (sorter 1 7) 100 "in.txt" "out.txt" st
    = (Fs (<["out.txt" := output]> (files st)) ∅ [], Ok ())
  ∧ bytes_le (list_byte_of_string "xy" ++ zeros ++ Buffer_from_ascii EOL)
      (zeros ++ Buffer_from_ascii EOL) = false
  ∧ chunks 7 output !! 1 = Some (list_byte_of_string "xy" ++ zeros)
  ∧ chunks 7 output !! 2 = Some (Buffer_from_ascii EOL ++ zeros)
  ∧ ¬ sorted_records (chunks 7 output).
Proof.
  split_and!; try (vm_compute; reflexivity).
  intros Hsorted. by specialize (Hsorted 1 _ _ eq_refl eq_refl).
Qed.

(** C3: the output path is a directory: it passes validation, the segment
    is written, and [mergeSegments] fails when it opens the output, before
    its [try]; the cleanup does not run, the temporary file stays on
    storage and its handle stays open. *)
Theorem mergeSegments_open_failure_leaks :
  let st := Fs {[ "d/in.txt" := record "abcde" ]} {[ "d" := 4096 ]} [] in
  validateInput (sorter 1 7) 100 "d/in.txt" "d" st = (st, Ok ())
  ∧ sortSegments toString_utf8_7bit (sorter 1 7) 100 "d/in.txt" st
    = (Fs (<["d/in-temp-0.txt" := record "abcde"]> (files st)) (dirs st) [],
       Ok ["d/in-temp-0.txt"])
  ∧ Sort toString_utf8_7bit (sorter 1 7) 100 "d/in.txt" "d" st
    = (Fs (<["d/in-temp-0.txt" := record "abcde"]> (files st)) (dirs st)
          ["d/in-temp-0.txt"],
       Throw IOFailure).
Proof. split_and!; vm_compute; reflexivity. Qed.

(** ** The names of the temporary files *)

Lemma string_length_app (s t : string) :
  String.length (s +:+ t) = String.length s + String.length t.
Proof. induction s as [|c s IH]; simpl; [done|]. by rewrite IH. Qed.

Lemma substring_0_app (s t : string) :
  String.substring 0 (String.length s) (s +:+ t) = s.
Proof.
  induction s as [|c s IH]; simpl; [by destruct t|]. by rewrite IH.
Qed.

Lemma string_length_substring (n : nat) (s : string) :
  n ≤ String.length s → String.length (String.substring 0 n s) = n.
Proof.
  revert s. induction n as [|n IH]; intros [|c s]; simpl; try lia.
  intros ?. rewrite IH; lia.
Qed.


(** A temporary file never has the path of the input file. *)
Lemma tempFilePath_ne_input (inFilename : string) (i : nat) :
  tempFilePath (slice_0_minus4 inFilename) i ≠ inFilename.
Proof.
  intros Heq. apply (f_equal String.length) in Heq.
  unfold tempFilePath, slice_0_minus4 in Heq.
  rewrite !string_length_app in Heq.
  rewrite string_length_substring in Heq by lia.
  unfold TEMP_FILE_PREFIX, TEMP_FILE_EXTENSION in Heq. simpl in Heq. lia.
Qed.

(** Two temporary files of one input have different paths. *)
Lemma tempFilePath_inj (fileNameNoEnd : string) (i j : nat) :
  tempFilePath fileNameNoEnd i = tempFilePath fileNameNoEnd j → i = j.
Proof.
  unfold tempFilePath. intros Heq.
  apply (inj (String.app fileNameNoEnd)) in Heq.
  apply (inj (String.app TEMP_FILE_PREFIX)) in Heq.
  assert (∀ s t u, s +:+ u = t +:+ u → s = t) as Hcancel.
  { intros s. induction s as [|c s IH]; intros [|d t] u H; simpl in *.
    - done.
    - apply (f_equal String.length) in H.
      rewrite !string_length_app in H. simpl in H. lia.
    - apply (f_equal String.length) in H.
      rewrite !string_length_app in H. simpl in H. lia.
    - injection H as -> H. f_equal. eauto. }
  apply Hcancel in Heq. by apply (inj pretty) in Heq.
Qed.

Lemma dirname_app_no_slash (s t : string) :
  dirname t = None → dirname (s +:+ t) = dirname s.
Proof.
  intros Ht. induction s as [|c s IH]; simpl; [done|]. by rewrite IH.
Qed.

Lemma dirname_pretty_N_go (x : N) (s : string) :
  dirname s = None → dirname (pretty_N_go x s) = None.
Proof.
  revert s. induction (N.lt_wf_0 x) as [x _ IH]; intros s Hs.
  assert (x = 0 ∨ 0 < x)%N as [->|?] by lia; [by rewrite pretty_N_go_0|].
  rewrite pretty_N_go_step by done. apply IH; [by apply N.div_lt|].
  simpl. rewrite Hs. unfold pretty_N_char. by repeat case_match.
Qed.

Lemma dirname_pretty (i : nat) : dirname (pretty i) = None.
Proof.
  unfold pretty, pretty_nat, pretty, pretty_N.
  case_decide; [done|]. by apply dirname_pretty_N_go.
Qed.

Lemma dirname_tempFilePath (fileNameNoEnd : string) (i : nat) :
  dirname (tempFilePath fileNameNoEnd i) = dirname fileNameNoEnd.
Proof.
  unfold tempFilePath. apply dirname_app_no_slash.
  unfold TEMP_FILE_PREFIX.
  change ("-temp-" +:+ pretty i +:+ TEMP_FILE_EXTENSION)
    with (String "-" (String "t" (String "e" (String "m" (String "p"
            (String "-" (pretty i +:+ TEMP_FILE_EXTENSION))))))).
  assert (dirname (pretty i +:+ TEMP_FILE_EXTENSION) = None) as Hd.
  { rewrite dirname_app_no_slash; [apply dirname_pretty|done]. }
  simpl. by rewrite Hd.
Qed.

(** ** The segments [sortSegments] makes *)

Lemma readSegmentLoop_state (toString_utf8 : buffer → jsstring)
    (this : SortFile) (todo : nat) (h : string) (start i : nat)
    (buf : buffer) (lines : list jsstring) (st : fs) :
  (readSegmentLoop toString_utf8 this todo h start i buf lines st).1 = st.
Proof.
  revert i buf lines. induction todo as [|todo IH]; intros i buf lines; [done|].
  cbn [readSegmentLoop]. unfold_M. unfold fh_read.
  destruct (files st !! h); [|done]. destruct (_ =? 0); [done|]. apply IH.
Qed.

Lemma sortSegmentsLoop_paths (toString_utf8 : buffer → jsstring)
    (this : SortFile) (fuel : nat) (h noEnd : string)
    (segments : list string) (counter bytesRead : nat) (st st' : fs)
    (segments' : list string) :
  sortSegmentsLoop toString_utf8 this fuel h noEnd segments counter bytesRead
    st = (st', Ok segments') →
  segments = tempFilePath noEnd <$> seq 0 counter →
  (∀ p, p ∈ segments → is_Some (files st !! p)) →
  segments' = tempFilePath noEnd <$> seq 0 (length segments')
  ∧ ∀ p, p ∈ segments' → is_Some (files st' !! p).
Proof.
  revert segments counter bytesRead st.
  induction fuel as [|fuel IH]; intros segments counter bytesRead st;
    [done|].
  cbn [sortSegmentsLoop]. unfold_M. unfold readSegment.
  pose proof (readSegmentLoop_state toString_utf8 this
                (numberOfLinesPerSegment this) h bytesRead 0
                (Buffer_alloc (lineSizeBytes this)) [] st) as Hst.
  destruct (readSegmentLoop _ _ _ _ _ _ _ _ _) as [st1 [lines|e|]];
    simpl in Hst; subst st1; [|done..].
  destruct (length lines =? 0).
  - intros [= <- <-] -> Hfiles.
    by rewrite length_fmap, length_seq.
  - unfold writeSortedSegment, fsp_writeFile. unfold_M.
    destruct (writable st _); [|done].
    intros Hloop -> Hfiles.
    eapply IH; [exact Hloop|..].
    + by rewrite Nat.add_1_r, seq_S, fmap_app.
    + cbn [files]. intros p Hp. apply elem_of_app in Hp as [Hp|Hp].
      * destruct (decide (tempFilePath noEnd counter = p)) as [->|Hne].
        -- by rewrite lookup_insert_eq.
        -- rewrite lookup_insert_ne by done. by apply Hfiles.
      * apply list_elem_of_singleton in Hp as ->. by rewrite lookup_insert_eq.
Qed.

(** ** Trimming and the encoding of records *)

Lemma trimStart_suffix (s : jsstring) :
  ∃ ws, s = ws ++ trimStart s.
Proof.
  induction s as [|c s [ws IH]]; [by exists []|]. simpl.
  destruct (is_white_space c); [|by exists []].
  exists (c :: ws). simpl. by rewrite <- IH.
Qed.

Lemma trimStart_head (s t : jsstring) (c : N) :
  trimStart s = c :: t → is_white_space c = false.
Proof.
  induction s as [|d s IH]; [done|]. simpl.
  destruct (is_white_space d) eqn:E; [done|]. by intros [= <- _].
Qed.

Lemma trimStart_idemp (s : jsstring) : trimStart (trimStart s) = trimStart s.
Proof.
  destruct (trimStart s) as [|c t] eqn:E; [done|].
  simpl. by rewrite (trimStart_head _ _ _ E).
Qed.

Lemma trimStart_cons_clean (c : N) (s : jsstring) :
  is_white_space c = false → trimStart (c :: s) = c :: s.
Proof. intros H. simpl. by rewrite H. Qed.

Lemma trim_clean (s : jsstring) : clean (trim s).
Proof.
  unfold clean, trim, trimEnd. rewrite rev_involutive, trimStart_idemp.
  split; [|done].
  destruct (trimStart_suffix (rev (trimStart s))) as [ws Hws].
  apply (f_equal (@rev N)) in Hws. rewrite rev_involutive, rev_app_distr in Hws.
  destruct (rev (trimStart (rev (trimStart s)))) as [|c u] eqn:Eu; [done|].
  apply trimStart_cons_clean. simpl in Hws. by eapply trimStart_head.
Qed.

Lemma clean_trim (s : jsstring) : clean s → trim s = s.
Proof.
  intros [H1 H2]. unfold trim, trimEnd. by rewrite H1, H2, rev_involutive.
Qed.

Lemma trim_app_EOL (s : jsstring) : clean s → s ≠ [] → trim (s ++ EOL) = s.
Proof.
  intros [H1 H2] Hne. unfold trim, trimEnd.
  assert (trimStart (s ++ EOL) = s ++ EOL) as ->.
  { destruct s as [|c s]; [done|].
    rewrite <- app_comm_cons. apply trimStart_cons_clean.
    by eapply trimStart_head. }
  rewrite rev_app_distr.
  change (rev EOL ++ rev s) with (10%N :: 13%N :: rev s).
  change (trimStart (10%N :: 13%N :: rev s)) with (trimStart (rev s)).
  by rewrite H2, rev_involutive.
Qed.

Lemma Forall_trimStart (P : N → Prop) (s : jsstring) :
  Forall P s → Forall P (trimStart s).
Proof.
  induction 1 as [|c s Hc Hs IH]; [done|]. simpl.
  destruct (is_white_space c); [done|]. by constructor.
Qed.

Lemma Forall_trim (P : N → Prop) (s : jsstring) :
  Forall P s → Forall P (trim s).
Proof.
  intros H. unfold trim, trimEnd.
  apply Forall_rev, Forall_trimStart, Forall_rev. by apply Forall_trimStart.
Qed.

Lemma toString_ascii_7bit (buf : buffer) :
  Forall (λ c, (c < 128)%N) (toString_ascii buf).
Proof.
  unfold toString_ascii. apply Forall_fmap, Forall_forall. intros b _. simpl.
  change 127%N with (N.ones 7). rewrite N.land_ones.
  apply N.mod_lt. done.
Qed.

Lemma toString_ascii_seven_bit (buf : buffer) :
  seven_bit buf → toString_ascii buf = Byte.to_N <$> buf.
Proof.
  unfold seven_bit, toString_ascii. induction 1 as [|b buf Hb _ IH]; [done|].
  simpl. f_equal; [|done].
  change 127%N with (N.ones 7). rewrite N.land_ones.
  by apply N.mod_small.
Qed.

Lemma low_byte_to_N (c : N) : (c < 128)%N → Byte.to_N (low_byte c) = c.
Proof.
  intros Hc. unfold low_byte. rewrite N.mod_small by lia.
  destruct (Byte.of_N c) as [b|] eqn:E.
  - simpl. by apply Byte.to_of_N.
  - apply Byte.of_N_None_iff in E. lia.
Qed.

Lemma toString_ascii_from_ascii (s : jsstring) :
  Forall (λ c, (c < 128)%N) s → toString_ascii (Buffer_from_ascii s) = s.
Proof.
  unfold toString_ascii, Buffer_from_ascii.
  induction 1 as [|c s Hc _ IH]; [done|]. simpl.
  rewrite low_byte_to_N by done. f_equal; [|done].
  change 127%N with (N.ones 7). rewrite N.land_ones. by apply N.mod_small.
Qed.

Lemma seven_bit_from_ascii (s : jsstring) :
  Forall (λ c, (c < 128)%N) s → seven_bit (Buffer_from_ascii s).
Proof.
  unfold seven_bit, Buffer_from_ascii. intros H. apply Forall_fmap.
  eapply Forall_impl; [exact H|]. intros c Hc. simpl.
  by rewrite low_byte_to_N.
Qed.

Lemma good_line_non_empty (width : nat) (l : jsstring) :
  3 ≤ width → good_line width l → l ≠ [].
Proof. intros Hw [Hlen _] ->. simpl in Hlen. lia. Qed.

Lemma length_line_record (width : nat) (l : jsstring) :
  good_line width l → length (line_record l) = width.
Proof.
  intros [Hlen _]. unfold line_record, Buffer_from_ascii.
  by rewrite length_fmap, length_app.
Qed.

Lemma payload_line_record (width : nat) (l : jsstring) :
  3 ≤ width → good_line width l → payload (line_record l) = l.
Proof.
  intros Hw Hl. pose proof (good_line_non_empty _ _ Hw Hl) as Hne.
  destruct Hl as (Hlen & H7 & Hclean). unfold payload, line_record.
  rewrite toString_ascii_from_ascii.
  - by apply trim_app_EOL.
  - apply Forall_app. split; [done|]. by repeat constructor.
Qed.

(** The payload of a valid record of 7-bit bytes is a good line. *)
Lemma good_line_payload (width : nat) (w : buffer) :
  valid_window width w → good_line width (payload w).
Proof.
  intros [_ Hlen]. split_and!; [done| |apply trim_clean].
  apply Forall_trim, toString_ascii_7bit.
Qed.

Lemma padEnd_full (n : nat) (s : jsstring) : n ≤ length s → padEnd n s = s.
Proof.
  intros H. unfold padEnd. replace (n - length s) with 0 by lia.
  simpl. by rewrite app_nil_r.
Qed.

Lemma join_EOL (lines : list jsstring) :
  lines ≠ [] →
  Buffer_from_ascii (join EOL lines ++ EOL) = run_bytes lines.
Proof.
  unfold run_bytes, line_record, Buffer_from_ascii.
  induction lines as [|l lines IH]; [done|]. intros _.
  destruct lines as [|l' lines]; [by rewrite fmap_cons, concat_cons, app_nil_r|].
  rewrite fmap_cons, concat_cons, <- IH by done.
  change (join EOL (l :: l' :: lines))
    with (l ++ EOL ++ join EOL (l' :: lines)).
  rewrite <- fmap_app. f_equal. by rewrite <- !app_assoc.
Qed.

(** ** [sort] *)

Lemma sort_insert_perm (x : jsstring) (l : list jsstring) :
  sort_insert x l ≡ₚ x :: l.
Proof.
  induction l as [|y l IH]; simpl; [done|].
  destruct (js_lt y x); [|done]. rewrite IH. apply perm_swap.
Qed.

Lemma sort_perm (l : list jsstring) : sort l ≡ₚ l.
Proof.
  induction l as [|x l IH]; simpl; [done|].
  by rewrite sort_insert_perm, IH.
Qed.

Lemma sort_insert_HdRel (x y : jsstring) (l : list jsstring) :
  js_ordered y x → HdRel js_ordered y l → HdRel js_ordered y (sort_insert x l).
Proof.
  intros Hyx Hl. destruct l as [|z l]; simpl; [by constructor|].
  inversion_clear Hl. destruct (js_lt z x); by constructor.
Qed.

Lemma sort_insert_sorted (x : jsstring) (l : list jsstring) :
  Sorted js_ordered l → Sorted js_ordered (sort_insert x l).
Proof.
  induction 1 as [|y l Hl IH Hy]; simpl; [by repeat constructor|].
  destruct (js_lt y x) eqn:E.
  - constructor; [done|]. apply sort_insert_HdRel; [|done]. by apply js_lt_le.
  - constructor; [by constructor|]. constructor. unfold js_ordered, js_le.
    by rewrite E.
Qed.

Lemma sort_sorted (l : list jsstring) : StronglySorted js_ordered (sort l).
Proof.
  apply Sorted_StronglySorted.
  - intros a b c. apply js_le_trans.
  - induction l as [|x l IH]; simpl; [constructor|].
    by apply sort_insert_sorted.
Qed.

Lemma length_sort (l : list jsstring) : length (sort l) = length l.
Proof. by rewrite sort_perm. Qed.

(** A sorted list is determined by its elements. *)
Lemma sorted_perm_eq (l1 l2 : list jsstring) :
  StronglySorted js_ordered l1 → StronglySorted js_ordered l2 →
  l1 ≡ₚ l2 → l1 = l2.
Proof.
  intros H1. revert l2. induction H1 as [|x l1 Hs1 IH Hx]; intros l2 H2 Hp.
  { by apply Permutation_nil in Hp. }
  destruct H2 as [|y l2 Hs2 Hy].
  { symmetry in Hp. by apply Permutation_nil in Hp. }
  assert (x = y) as <-.
  { apply js_le_antisym.
    - assert (y ∈ x :: l1) as Hin by (rewrite Hp; left).
      apply elem_of_cons in Hin as [->|Hin]; [apply js_le_refl|].
      by apply (proj1 (Forall_forall _ _) Hx).
    - assert (x ∈ y :: l2) as Hin by (rewrite <- Hp; left).
      apply elem_of_cons in Hin as [->|Hin]; [apply js_le_refl|].
      by apply (proj1 (Forall_forall _ _) Hy). }
  f_equal. apply IH; [done|]. by apply Permutation_cons_inv in Hp.
Qed.

Lemma sorted_perm_sort (l l0 : list jsstring) :
  StronglySorted js_ordered l → l ≡ₚ l0 → l = sort l0.
Proof.
  intros Hs Hp. apply sorted_perm_eq; [done|apply sort_sorted|].
  by rewrite sort_perm.
Qed.


(** ** Validation of a file of whole records *)

Lemma valid_window_width (width : nat) (w : buffer) :
  valid_window width w → 2 ≤ width.
Proof. intros [_ H]. simpl in H. lia. Qed.

Lemma checkLineLoop_windows (this : SortFile) (h : string) (st : fs)
    (rest : list buffer) :
  Forall (valid_window (lineSizeBytes this)) rest →
  ∀ (fuel : nat) (pre buf : buffer) (count : nat),
    length buf = lineSizeBytes this →
    files st !! h = Some (pre ++ concat rest) →
    length rest < fuel →
    checkLineLoop this fuel h (length pre) buf count st
    = (st, Ok (count + length rest)).
Proof.
  induction 1 as [|w rest Hw Hrest IH]; intros fuel pre buf count Hbuf Hfile Hfuel;
    (destruct fuel as [|fuel]; [simpl in Hfuel; lia|]).
  - rewrite (checkLineLoop_eof _ _ _ _ _ _ _ _ Hfile).
    + by rewrite Nat.add_0_r.
    + simpl. rewrite app_nil_r. lia.
  - pose proof (valid_window_width _ _ Hw) as Hwidth.
    destruct Hw as [Hlen Hpay].
    cbn [checkLineLoop].
    rewrite (bind_Ok _ _ _ _ _ (fh_read_file _ _ _ _ _ _ Hfile)).
    rewrite drop_app_length, concat_cons.
    rewrite take_app_length' by done.
    rewrite Hlen, (drop_ge buf) by lia. rewrite app_nil_r.
    destruct (Nat.eqb_spec (lineSizeBytes this) 0) as [|_]; [lia|].
    fold (payload w). rewrite (proj2 (Nat.eqb_eq _ _) Hpay).
    change (negb true) with false. cbv iota.
    replace (length pre + lineSizeBytes this) with (length (pre ++ w))
      by (rewrite length_app; lia).
    rewrite (IH fuel (pre ++ w) w (count + 1)).
    + simpl. do 2 f_equal. lia.
    + done.
    + by rewrite <- app_assoc.
    + simpl in Hfuel. lia.
Qed.

Lemma checkLineLengthAndCount_windows (this : SortFile) (fuel : nat)
    (h : string) (st : fs) (ws : list buffer) :
  Forall (valid_window (lineSizeBytes this)) ws →
  files st !! h = Some (concat ws) →
  length ws < fuel →
  checkLineLengthAndCount this fuel h st
  = (st, if rem_nonzero (length ws) (numberOfLinesPerSegment this)
         then Throw RecordCountNotDivisible else Ok ()).
Proof.
  intros Hws Hfile Hfuel. unfold checkLineLengthAndCount.
  pose proof (checkLineLoop_windows this h st ws Hws fuel []
                (Buffer_alloc (lineSizeBytes this)) 0
                (length_replicate _ _) Hfile Hfuel) as Hloop.
  change (length (@nil byte)) with 0 in Hloop.
  rewrite (bind_Ok _ _ _ _ _ Hloop).
  simpl. by destruct (rem_nonzero _ _).
Qed.

(** A file of whole valid records passes the width check; validation then
    turns on the number of records. *)
Lemma validateInput_windows (this : SortFile) (fuel : nat)
    (inFilename outFilename : string) (st : fs) (ws : list buffer)
    (old : buffer) :
  files st !! inFilename = Some (concat ws) →
  length (concat ws) ≤ maxFileSizeBytes this →
  Forall (valid_window (lineSizeBytes this)) ws →
  length ws < fuel →
  files st !! outFilename = Some old →
  validateInput this fuel inFilename outFilename st
  = (st, if rem_nonzero (length ws) (numberOfLinesPerSegment this)
         then Throw RecordCountNotDivisible else Ok ()).
Proof.
  intros Hin Hsize Hws Hfuel Hout.
  pose proof (checkLineLengthAndCount_windows this fuel inFilename
                (with_handle inFilename st) ws Hws Hin Hfuel) as Hcheck.
  destruct (rem_nonzero _ _).
  - unfold validateInput.
    rewrite (bind_Ok _ _ _ _ _ (checkFileExists_file _ _ _ Hin)).
    rewrite (bind_Ok _ _ _ _ _ (checkFileSizeLimit_file _ _ _ _ Hin Hsize)).
    by rewrite (bind_Throw _ _ _ _ _
                  (validateFileContents_run _ _ _ _ _ _ Hin Hcheck ltac:(done))).
  - by eapply validateInput_run.
Qed.

(** The width check throws at the first whole record whose trimmed text has
    not [lineSizeBytes - 2] characters. *)
Lemma checkLineLoop_invalid_window (this : SortFile) (h : string) (st : fs)
    (ws : list buffer) (w tail : buffer) :
  lineSizeBytes this ≠ 0 →
  Forall (valid_window (lineSizeBytes this)) ws →
  length w = lineSizeBytes this →
  length (payload w) + length EOL ≠ lineSizeBytes this →
  ∀ (fuel : nat) (pre buf : buffer) (count : nat),
    length buf = lineSizeBytes this →
    files st !! h = Some (pre ++ concat ws ++ w ++ tail) →
    length ws < fuel →
    checkLineLoop this fuel h (length pre) buf count st
    = (st, Throw MalformedRecordWidth).
Proof.
  intros HL Hws Hlen Hbad.
  induction Hws as [|w' ws Hw' Hws IH]; intros fuel pre buf count Hbuf Hfile Hfuel;
    (destruct fuel as [|fuel]; [simpl in Hfuel; lia|]).
  - cbn [checkLineLoop].
    rewrite (bind_Ok _ _ _ _ _ (fh_read_file _ _ _ _ _ _ Hfile)).
    rewrite drop_app_length. cbn [concat app].
    rewrite take_app_length' by done.
    rewrite Hlen, (drop_ge buf) by lia. rewrite app_nil_r.
    destruct (Nat.eqb_spec (lineSizeBytes this) 0) as [|_]; [lia|].
    fold (payload w).
    by rewrite (proj2 (Nat.eqb_neq _ _) Hbad).
  - destruct Hw' as [Hlen' Hpay'].
    cbn [checkLineLoop].
    rewrite (bind_Ok _ _ _ _ _ (fh_read_file _ _ _ _ _ _ Hfile)).
    rewrite drop_app_length, concat_cons, <- !app_assoc.
    rewrite take_app_length' by done.
    rewrite Hlen', (drop_ge buf) by lia. rewrite app_nil_r.
    destruct (Nat.eqb_spec (lineSizeBytes this) 0) as [|_]; [lia|].
    fold (payload w'). rewrite (proj2 (Nat.eqb_eq _ _) Hpay').
    change (negb true) with false. cbv iota.
    replace (length pre + lineSizeBytes this) with (length (pre ++ w'))
      by (rewrite length_app; lia).
    apply IH; [done| |simpl in Hfuel; lia].
    by rewrite Hfile, concat_cons, <- !app_assoc.
Qed.

(** ** Validation terminates *)

Lemma checkLineLoop_total (this : SortFile) (h : string) (st : fs)
    (fuel : nat) :
  ∀ (bytesRead : nat) (buf : buffer) (count : nat),
    0 < fuel →
    (∀ data, files st !! h = Some data → length data - bytesRead < fuel) →
    (checkLineLoop this fuel h bytesRead buf count st).2 ≠ OutOfFuel.
Proof.
  induction fuel as [|fuel IH]; intros bytesRead buf count Hpos Hfuel; [lia|].
  cbn [checkLineLoop]. unfold_M. unfold fh_read.
  destruct (files st !! h) as [data|] eqn:Hfile; [|done].
  specialize (Hfuel data eq_refl).
  destruct (Nat.eqb_spec (length (take (lineSizeBytes this)
                                    (drop bytesRead data))) 0) as [|Hne];
    [done|].
  destruct (negb _); [done|].
  assert (bytesRead < length data) as Hlt.
  { destruct (decide (bytesRead < length data)); [done|].
    rewrite drop_ge, take_nil in Hne by lia. done. }
  apply IH; [lia|]. intros data' [= <-]. lia.
Qed.

Lemma bind_total {A B} (m : M A) (k : A → M B) (st : fs) :
  (m st).2 ≠ OutOfFuel →
  (∀ a st', m st = (st', Ok a) → (k a st').2 ≠ OutOfFuel) →
  ((m ≫= k) st).2 ≠ OutOfFuel.
Proof.
  intros Hm Hk. unfold_M. destruct (m st) as [st' [a| |]]; [by apply Hk|done..].
Qed.

(** With fuel above the size of the input file, validation returns or
    throws. *)
Lemma validateInput_total (this : SortFile) (fuel : nat)
    (inFilename outFilename : string) (st : fs) :
  0 < fuel →
  (∀ data, files st !! inFilename = Some data → length data < fuel) →
  (validateInput this fuel inFilename outFilename st).2 ≠ OutOfFuel.
Proof.
  intros Hpos Hfuel. unfold validateInput.
  apply bind_total.
  { unfold checkFileExists, fsp_access. unfold_M. by destruct (_ || _). }
  intros [] st1 H1.
  apply (preserves_try_catch _ _ (preserves_access _) (preserves_throw _))
    in H1 as ->; [|done].
  apply bind_total.
  { unfold checkFileSizeLimit, fsp_stat_size. unfold_M.
    destruct (files st !! inFilename), (dirs st !! inFilename); try done.
    all: by destruct (_ <? _). }
  intros [] st2 H2.
  assert (st2 = st) as ->.
  { revert H2. unfold checkFileSizeLimit, fsp_stat_size. unfold_M.
    destruct (files st !! inFilename), (dirs st !! inFilename); try done.
    all: destruct (_ <? _); by intros [= <-]. }
  apply bind_total.
  { unfold validateFileContents. apply bind_total.
    { unfold fsp_open_r. by destruct (_ || _). }
    intros h st3. unfold fsp_open_r.
    destruct (_ || _); [|done]. intros [= <- <-].
    unfold try_finally, checkLineLengthAndCount, fh_close. unfold_M.
    match goal with
    | |- context [checkLineLoop ?t ?f ?h ?b ?bf ?c ?s] =>
        pose proof (checkLineLoop_total t h s f b bf c Hpos) as Htot;
        destruct (checkLineLoop t f h b bf c s) as [st4 [count| |]]
    end.
    - by destruct (rem_nonzero _ _).
    - done.
    - exfalso. apply Htot; [|done]. cbn [files]. intros data Hdata.
      specialize (Hfuel data Hdata). lia. }
  intros [] st5 _. unfold checkOutputDirectory, fsp_access. unfold_M.
  by destruct (_ || _).
Qed.

(** ** Failed validation *)

(** C5: when validation throws, [Sort] throws the same error and the file
    system is as before: no file was created, truncated or left open.  In
    particular a file of whole valid records whose number is no multiple of
    the segment size makes [Sort] throw [RecordCountNotDivisible].  With
    fuel above the size of the input file validation returns or throws. *)
Theorem Sort_validation_failure :
  (∀ (toString_utf8 : buffer → jsstring) (this : SortFile) (fuel : nat)
     (inFilename outFilename : string) (st st' : fs) (e : error),
     validateInput this fuel inFilename outFilename st = (st', Throw e) →
     st' = st
     ∧ Sort toString_utf8 this fuel inFilename outFilename st
       = (st, Throw e))
  ∧ (∀ (toString_utf8 : buffer → jsstring) (this : SortFile) (fuel : nat)
       (inFilename outFilename : string) (st : fs) (ws : list buffer),
       files st !! inFilename = Some (concat ws) →
       length (concat ws) ≤ maxFileSizeBytes this →
       Forall (valid_window (lineSizeBytes this)) ws →
       rem_nonzero (length ws) (numberOfLinesPerSegment this) = true →
       length ws < fuel →
       Sort toString_utf8 this fuel inFilename outFilename st
       = (st, Throw RecordCountNotDivisible))
  ∧ (∀ (this : SortFile) (fuel : nat) (inFilename outFilename : string)
       (st : fs),
       0 < fuel →
       (∀ data, files st !! inFilename = Some data → length data < fuel) →
       (validateInput this fuel inFilename outFilename st).2 ≠ OutOfFuel).
Proof.
  assert (∀ (toString_utf8 : buffer → jsstring) (this : SortFile)
            (fuel : nat) (inFilename outFilename : string) (st st' : fs)
            (e : error),
            validateInput this fuel inFilename outFilename st
            = (st', Throw e) →
            st' = st
            ∧ Sort toString_utf8 this fuel inFilename outFilename st
              = (st, Throw e)) as Hgeneral.
  { intros toString_utf8 this fuel inFilename outFilename st st' e Hval.
    assert (st' = st) as ->
      by by eapply (preserves_validateInput _ _ _ _ _ _ _ Hval).
    split; [done|]. unfold Sort. by rewrite (bind_Throw _ _ _ _ _ Hval). }
  split; [done|]. split; [|by apply validateInput_total].
  intros toString_utf8 this fuel inFilename outFilename st ws
    Hin Hsize Hws Hrem Hfuel.
  eapply Hgeneral. unfold validateInput.
  rewrite (bind_Ok _ _ _ _ _ (checkFileExists_file _ _ _ Hin)).
  rewrite (bind_Ok _ _ _ _ _ (checkFileSizeLimit_file _ _ _ _ Hin Hsize)).
  erewrite bind_Throw; [done|].
  eapply validateFileContents_run; [done| |done].
  erewrite checkLineLengthAndCount_windows; [|done..]. by rewrite Hrem.
Qed.

Lemma Sort_validation_failure_witness :
  let st := Fs {[ "in.txt" := concat [record "brian"; record "alice";
                                      record "danie"] ]} ∅ [] in
  (st = st
   ∧ Sort toString_utf8_7bit (sorter 2 7) 100 "in.txt" "missing/out.txt" st
     = (st, Throw RecordCountNotDivisible))
  ∧ Sort toString_utf8_7bit (sorter 2 7) 100 "in.txt" "out.txt" st
    = (st, Throw RecordCountNotDivisible).
Proof.
  intros st. split.
  - apply (proj1 Sort_validation_failure toString_utf8_7bit (sorter 2 7) 100
             "in.txt" "missing/out.txt" st st RecordCountNotDivisible).
    vm_compute. reflexivity.
  - apply (proj1 (proj2 Sort_validation_failure) toString_utf8_7bit
             (sorter 2 7) 100
             "in.txt" "out.txt" st
             [record "brian"; record "alice"; record "danie"]).
    + reflexivity.
    + vm_compute. lia.
    + repeat constructor.
    + reflexivity.
    + vm_compute. lia.
Defined.

(** ** Segments of a file of whole records *)

Lemma readSegmentLoop_windows (toString_utf8 : buffer → jsstring)
    (this : SortFile) (h : string) (start : nat) (st : fs) (todo : nat) :
  lineSizeBytes this ≠ 0 →
  ∀ (rest : list buffer) (pre buf : buffer) (i : nat) (lines : list jsstring),
    Forall (λ w, length w = lineSizeBytes this) rest →
    length buf = lineSizeBytes this →
    files st !! h = Some (pre ++ concat rest) →
    start + i * lineSizeBytes this = length pre →
    readSegmentLoop toString_utf8 this todo h start i buf lines st
    = (st, Ok (lines ++ ((λ w, trim (toString_utf8 w)) <$> take todo rest))).
Proof.
  intros HL. induction todo as [|todo IH];
    intros rest pre buf i lines Hrest Hbuf Hfile Hpos.
  { simpl. by rewrite app_nil_r. }
  destruct Hrest as [|w rest Hw Hrest].
  - rewrite (readSegmentLoop_eof _ _ _ _ _ _ _ _ _ _ Hfile).
    + simpl. by rewrite app_nil_r.
    + simpl. rewrite app_nil_r. lia.
  - cbn [readSegmentLoop].
    rewrite (bind_Ok _ _ _ _ _ (fh_read_file _ _ _ _ _ _ Hfile)).
    rewrite Hpos, drop_app_length, concat_cons.
    rewrite take_app_length' by done.
    rewrite Hw, (drop_ge buf) by lia. rewrite app_nil_r.
    destruct (Nat.eqb_spec (lineSizeBytes this) 0) as [|_]; [lia|].
    rewrite (IH rest (pre ++ w) w (i + 1)); try done.
    + simpl. by rewrite <- app_assoc.
    + by rewrite <- app_assoc.
    + rewrite length_app. lia.
Qed.

Lemma length_concat_windows (width : nat) (ws : list buffer) :
  Forall (λ w, length w = width) ws → length (concat ws) = length ws * width.
Proof.
  induction 1 as [|w ws Hw _ IH]; [done|].
  rewrite concat_cons, length_app, IH, Hw. simpl. lia.
Qed.

Lemma writable_insert (st : fs) (p q : string) (data : buffer)
    (hs : list string) :
  writable st p = true →
  writable (Fs (<[q := data]> (files st)) (dirs st) hs) p = true.
Proof.
  unfold writable, parent_exists. cbn [files dirs].
  intros H. apply andb_true_iff in H as [H1 H2]. rewrite H1. simpl.
  apply orb_true_iff in H2 as [H2|H2]; [|by rewrite H2, orb_true_r].
  apply bool_decide_eq_true in H2. apply orb_true_iff. left.
  apply bool_decide_eq_true.
  destruct (decide (q = p)) as [->|Hne];
    [by rewrite lookup_insert_eq|by rewrite lookup_insert_ne].
Qed.

Lemma sortSegmentsLoop_groups (toString_utf8 : buffer → jsstring)
    (this : SortFile) (h noEnd : string) :
  numberOfLinesPerSegment this ≠ 0 →
  lineSizeBytes this ≠ 0 →
  (∀ j, tempFilePath noEnd j ≠ h) →
  ∀ (gs : list (list buffer)) (fuel : nat) (pre : buffer)
    (segments : list string) (counter : nat) (st : fs),
    Forall (full_group this) gs →
    files st !! h = Some (pre ++ concat (concat gs)) →
    (∀ j, writable st (tempFilePath noEnd j) = true) →
    length gs < fuel →
    ∃ fl,
      sortSegmentsLoop toString_utf8 this fuel h noEnd segments counter
        (length pre) st
      = (Fs fl (dirs st) (handles st),
         Ok (segments
             ++ (tempFilePath noEnd <$> seq counter (length gs))))
      ∧ (∀ j g, gs !! j = Some g →
           fl !! tempFilePath noEnd (counter + j)
           = Some (run_bytes (segment_lines toString_utf8 g)))
      ∧ (∀ p, (∀ j, j < length gs → p ≠ tempFilePath noEnd (counter + j)) →
           fl !! p = files st !! p).
Proof.
  intros Hn HL Htemp gs.
  induction gs as [|g gs IH];
    intros fuel pre segments counter st Hgs Hfile Hwr Hfuel;
    (destruct fuel as [|fuel]; [simpl in Hfuel; lia|]).
  - exists (files st). cbn [sortSegmentsLoop]. unfold readSegment.
    erewrite bind_Ok;
      [|eapply readSegmentLoop_eof;
        [exact Hfile|simpl; rewrite app_nil_r; lia]].
    simpl. rewrite app_nil_r, fs_eta. split_and!; [done| |done].
    intros j g' Hj. by rewrite lookup_nil in Hj.
  - apply Forall_cons in Hgs as [[Hlen Hg] Hgs].
    assert (Forall (λ w, length w = lineSizeBytes this) (concat (g :: gs)))
      as Hall.
    { rewrite concat_cons. apply Forall_app. split; [done|].
      apply Forall_concat. eapply Forall_impl; [exact Hgs|]. by intros ? [_ ?]. }
    cbn [sortSegmentsLoop]. unfold readSegment.
    erewrite bind_Ok;
      [|eapply (readSegmentLoop_windows toString_utf8 this h (length pre) st
                  (numberOfLinesPerSegment this) HL _ pre);
        [exact Hall|apply length_replicate|exact Hfile|simpl; lia]].
    rewrite app_nil_l, concat_cons, take_app_length' by done.
    rewrite length_fmap, Hlen.
    destruct (Nat.eqb_spec (numberOfLinesPerSegment this) 0) as [|_]; [done|].
    unfold writeSortedSegment.
    assert (sort ((λ w, trim (toString_utf8 w)) <$> g) ≠ []) as Hne.
    { intros Hnil. apply (f_equal length) in Hnil.
      rewrite length_sort, length_fmap in Hnil. simpl in Hnil. lia. }
    rewrite (join_EOL _ Hne). fold (segment_lines toString_utf8 g).
    unfold fsp_writeFile at 1. unfold_M. rewrite (Hwr counter).
    set (st1 := Fs (<[tempFilePath noEnd counter :=
                        run_bytes (segment_lines toString_utf8 g)]> (files st))
                   (dirs st) (handles st)).
    replace (length pre + numberOfLinesPerSegment this * lineSizeBytes this)
      with (length (pre ++ concat g))
      by (rewrite length_app, (length_concat_windows _ _ Hg); lia).
    destruct (IH fuel (pre ++ concat g)
                (segments ++ [tempFilePath noEnd counter]) (counter + 1) st1)
      as (fl & Hloop & Hsegs & Hframe).
    + done.
    + unfold st1. cbn [files]. rewrite lookup_insert_ne by apply Htemp.
      by rewrite Hfile, concat_cons, concat_app, app_assoc.
    + intros j. by apply writable_insert.
    + simpl in Hfuel. lia.
    + exists fl. split_and!.
      * rewrite Hloop. unfold st1. cbn [dirs handles]. do 2 f_equal.
        rewrite <- app_assoc. f_equal. simpl. by rewrite Nat.add_1_r.
      * intros [|j] g' Hj; simpl in Hj.
        -- injection Hj as <-. rewrite Nat.add_0_r, Hframe.
           ++ unfold st1. cbn [files]. by rewrite lookup_insert_eq.
           ++ intros j _ Heq. apply tempFilePath_inj in Heq. lia.
        -- replace (counter + S j) with (counter + 1 + j) by lia. by apply Hsegs.
      * intros p Hp. rewrite Hframe.
        -- unfold st1. cbn [files]. rewrite lookup_insert_ne; [done|].
           intros Heq. apply (Hp 0); [simpl; lia|]. by rewrite Nat.add_0_r.
        -- intros j Hj Heq. apply (Hp (S j)); [simpl; lia|].
           by replace (counter + S j) with (counter + 1 + j) by lia.
Qed.

(** ** The segment loop terminates *)

Lemma readSegmentLoop_total (toString_utf8 : buffer → jsstring)
    (this : SortFile) (todo : nat) (h : string) (start : nat) (st : fs) :
  ∀ (i : nat) (buf : buffer) (lines : list jsstring),
    (readSegmentLoop toString_utf8 this todo h start i buf lines st).2
    ≠ OutOfFuel.
Proof.
  induction todo as [|todo IH]; intros i buf lines; [done|].
  cbn [readSegmentLoop]. unfold_M. unfold fh_read.
  destruct (files st !! h); [|done]. destruct (_ =? 0); [done|]. apply IH.
Qed.

(** A segment with a line in it was read inside the file. *)
Lemma readSegment_progress (toString_utf8 : buffer → jsstring)
    (this : SortFile) (h : string) (start : nat) (st st' : fs)
    (lines : list jsstring) :
  readSegment toString_utf8 this h start st = (st', Ok lines) →
  lines ≠ [] →
  ∃ data, files st !! h = Some data ∧ start < length data
          ∧ 0 < lineSizeBytes this.
Proof.
  unfold readSegment.
  destruct (numberOfLinesPerSegment this) as [|todo];
    [by intros [= <- <-]|].
  cbn [readSegmentLoop]. unfold_M. unfold fh_read.
  destruct (files st !! h) as [data|]; [|done].
  destruct (Nat.eqb_spec (length (take (lineSizeBytes this)
                                    (drop (start + 0 * lineSizeBytes this)
                                       data))) 0) as [|Hne];
    [by intros [= <- <-]|].
  intros _ _. exists data. split; [done|].
  rewrite Nat.mul_0_l, Nat.add_0_r in Hne.
  destruct (decide (start < length data)) as [Hlt|Hge].
  - split; [done|]. destruct (lineSizeBytes this); [|lia].
    by rewrite take_0 in Hne.
  - by rewrite drop_ge, take_nil in Hne by lia.
Qed.

Lemma sortSegmentsLoop_total (toString_utf8 : buffer → jsstring)
    (this : SortFile) (h noEnd : string) :
  (∀ j, tempFilePath noEnd j ≠ h) →
  ∀ (fuel : nat) (segments : list string) (counter bytesRead : nat)
    (st : fs),
    0 < fuel →
    (∀ data, files st !! h = Some data → length data - bytesRead < fuel) →
    (sortSegmentsLoop toString_utf8 this fuel h noEnd segments counter
       bytesRead st).2 ≠ OutOfFuel.
Proof.
  intros Htemp fuel.
  induction fuel as [|fuel IH];
    intros segments counter bytesRead st Hpos Hfuel; [lia|].
  cbn [sortSegmentsLoop]. unfold_M.
  pose proof (readSegmentLoop_total toString_utf8 this
                (numberOfLinesPerSegment this) h bytesRead st 0
                (Buffer_alloc (lineSizeBytes this)) []) as Htot.
  pose proof (readSegmentLoop_state toString_utf8 this
                (numberOfLinesPerSegment this) h bytesRead 0
                (Buffer_alloc (lineSizeBytes this)) [] st) as Hst.
  fold (readSegment toString_utf8 this h bytesRead) in Htot, Hst |- *.
  destruct (readSegment toString_utf8 this h bytesRead st)
    as [st1 [lines| |]] eqn:Hread; simpl in Hst; subst st1; [|done..].
  destruct (Nat.eqb_spec (length lines) 0) as [|Hne]; [done|].
  destruct (readSegment_progress _ _ _ _ _ _ _ Hread)
    as (data & Hdata & Hlt & HL); [by intros ->|].
  unfold writeSortedSegment, fsp_writeFile. unfold_M.
  destruct (writable st _); [|done].
  specialize (Hfuel data Hdata).
  apply IH; [lia|]. cbn [files]. intros data'.
  rewrite lookup_insert_ne by apply Htemp. rewrite Hdata. intros [= <-].
  assert (1 ≤ length lines * lineSizeBytes this) by nia. lia.
Qed.

(** With fuel above the size of the input file, [sortSegments] returns or
    throws. *)
Lemma sortSegments_total (toString_utf8 : buffer → jsstring)
    (this : SortFile) (fuel : nat) (inFilename : string) (st : fs) :
  0 < fuel →
  (∀ data, files st !! inFilename = Some data → length data < fuel) →
  (sortSegments toString_utf8 this fuel inFilename st).2 ≠ OutOfFuel.
Proof.
  intros Hpos Hfuel. unfold sortSegments. apply bind_total.
  { unfold fsp_open_r. by destruct (_ || _). }
  intros h st1. unfold fsp_open_r. destruct (_ || _); [|done].
  intros [= <- <-]. unfold try_finally.
  pose proof (sortSegmentsLoop_total toString_utf8 this inFilename
                (slice_0_minus4 inFilename)
                (tempFilePath_ne_input inFilename) fuel [] 0 0
                (Fs (files st) (dirs st) (inFilename :: handles st)) Hpos)
    as Htot.
  destruct (sortSegmentsLoop _ _ _ _ _ _ _ _ _) as [st2 [segs|e|]].
  - done.
  - done.
  - exfalso. apply Htot; [|done]. cbn [files]. intros data Hdata.
    specialize (Hfuel data Hdata). lia.
Qed.




(** ** Reading a run *)

Lemma run_bytes_app (a b : list jsstring) :
  run_bytes (a ++ b) = run_bytes a ++ run_bytes b.
Proof. unfold run_bytes. by rewrite fmap_app, concat_app. Qed.

Lemma run_bytes_cons (x : jsstring) (r : list jsstring) :
  run_bytes (x :: r) = line_record x ++ run_bytes r.
Proof. done. Qed.

Lemma length_run_bytes (width : nat) (r : list jsstring) :
  Forall (good_line width) r → length (run_bytes r) = length r * width.
Proof.
  induction 1 as [|x r Hx _ IH]; [done|].
  rewrite run_bytes_cons, length_app, IH, (length_line_record _ _ Hx).
  simpl. lia.
Qed.

Lemma read_run (width : nat) (d r : list jsstring) :
  Forall (good_line width) d →
  Forall (good_line width) r →
  take width (drop (length d * width) (run_bytes (d ++ r)))
  = default [] (line_record <$> head r).
Proof.
  intros Hd Hr. rewrite run_bytes_app.
  rewrite <- (length_run_bytes _ _ Hd), drop_app_length.
  destruct Hr as [|x r Hx Hr];
    [change (run_bytes []) with (@nil byte); by rewrite take_nil|].
  rewrite run_bytes_cons. simpl.
  by rewrite take_app_length' by (symmetry; by eapply length_line_record).
Qed.

Lemma good_line_below (width : nat) (l : jsstring) :
  3 ≤ width → good_line width l → below_sentinel l →
  js_lt l MAX_ASCII_CHAR = true.
Proof.
  intros Hw Hl Hb. pose proof (good_line_non_empty _ _ Hw Hl) as Hne.
  destruct Hl as (_ & H7 & _). destruct l as [|c l]; [done|].
  apply Forall_cons in H7 as [Hc _]. unfold below_sentinel in Hb.
  simpl in *. destruct (N.ltb_spec c 127) as [|Hge]; [done|].
  assert (c = 127%N) as -> by lia. done.
Qed.

(** When some line is non-empty and all non-empty lines are below the
    sentinel, [findMinLine] selects a non-empty line, at most any other
    non-empty line, and an index that holds it. *)
Lemma findMinLine_below (lines : list jsstring) :
  (∃ l, l ∈ lines ∧ l ≠ []) →
  (∀ l, l ∈ lines → l ≠ [] → js_lt l MAX_ASCII_CHAR = true) →
  ∃ i v, findMinLine lines = (v, Z.of_nat i) ∧ lines !! i = Some v
         ∧ v ≠ [] ∧ ∀ l, l ∈ lines → l ≠ [] → js_ordered v l.
Proof.
  intros (l0 & Hl0 & Hne0) Hbelow. unfold findMinLine.
  destruct (findMinLine_fold lines MAX_ASCII_CHAR) as [Hr Hle].
  set (r := fold_left _ lines _) in *.
  destruct Hr as [Hr|(Hin & Hne & _)].
  - specialize (Hle l0 Hl0 Hne0). rewrite Hr in Hle. unfold js_le in Hle.
    by rewrite (Hbelow l0 Hl0 Hne0) in Hle.
  - destruct (indexOf_elem _ _ Hin) as (i & Hi & Hlook & _).
    exists i, r. by rewrite Hi.
Qed.

(** ** The merge loop *)

Lemma insert_middle {A} (l1 l2 : list A) (x y : A) :
  <[length l1 := x]> (l1 ++ y :: l2) = l1 ++ x :: l2.
Proof. induction l1 as [|z l1 IH]; simpl; [done|]. by rewrite IH. Qed.

Lemma runs_on_disk_write (st : fs) (segments : list string)
    (cursors : list (list jsstring * list jsstring)) (outFile : string)
    (data : buffer) :
  outFile ∉ segments →
  runs_on_disk st segments cursors →
  runs_on_disk
    (Fs (<[outFile := data]> (files st)) (dirs st) (handles st))
    segments cursors.
Proof.
  intros Hout Hruns. unfold runs_on_disk in *.
  induction Hruns as [|seg c segs cs Hseg Hruns IH]; [constructor|].
  apply not_elem_of_cons in Hout as [Hne Hout].
  constructor; [|by apply IH]. cbn [files]. by rewrite lookup_insert_ne.
Qed.

Lemma elem_of_concat {A} (x : A) (ls : list (list A)) :
  x ∈ concat ls ↔ ∃ l, x ∈ l ∧ l ∈ ls.
Proof.
  induction ls as [|l ls IH].
  - split; [by intros ?%elem_of_nil|by intros (l & _ & ?%elem_of_nil)].
  - rewrite concat_cons, elem_of_app, IH. split.
    + intros [?|(l' & ? & ?)]; [exists l; split; [done|left]|].
      exists l'. split; [done|by right].
    + intros (l' & Hx & [->|Hl']%elem_of_cons); [by left|right; eauto].
Qed.

Lemma cursor_line_head (width : nat) (c : list jsstring * list jsstring) :
  3 ≤ width → good_cursor width c →
  (c.2 = [] ∧ cursor_line c = [])
  ∨ ∃ r, c.2 = cursor_line c :: r
         ∧ good_line width (cursor_line c)
         ∧ below_sentinel (cursor_line c)
         ∧ cursor_line c ≠ [].
Proof.
  intros Hw (Hgood & Hbelow & _). destruct c as [d [|x r]]; [by left|].
  right. exists r. cbn [snd fst] in *. unfold cursor_line. cbn.
  apply Forall_app in Hgood as [_ Hgood].
  apply Forall_cons in Hgood as [Hx _]. apply Forall_cons in Hbelow as [Hb _].
  split_and!; try done. by eapply good_line_non_empty.
Qed.

Lemma StronglySorted_snoc (emitted : list jsstring) (v : jsstring) :
  StronglySorted js_ordered emitted →
  (∀ e, e ∈ emitted → js_ordered e v) →
  StronglySorted js_ordered (emitted ++ [v]).
Proof.
  induction 1 as [|e emitted Hsorted IH He]; intros Hv; simpl.
  - by repeat constructor.
  - constructor.
    + apply IH. intros e' He'. apply Hv. by right.
    + apply Forall_app. split; [done|]. constructor; [|done]. apply Hv. left.
Qed.

(** The selected line is at most every line still in a run. *)
Lemma selected_le_remaining (width : nat)
    (cursors : list (list jsstring * list jsstring)) (v : jsstring) :
  3 ≤ width →
  Forall (good_cursor width) cursors →
  (∀ l, l ∈ cursor_line <$> cursors → l ≠ [] → js_ordered v l) →
  ∀ x, x ∈ concat (snd <$> cursors) → js_ordered v x.
Proof.
  intros Hw Hgood Hmin x Hx.
  apply elem_of_concat in Hx as (rest & Hx & Hrest).
  apply list_elem_of_fmap in Hrest as (c & -> & Hc).
  pose proof (proj1 (Forall_forall _ _) Hgood c Hc) as Hgc.
  destruct (cursor_line_head _ _ Hw Hgc) as [[Hnil _]|(r & Hr & _ & _ & Hne)].
  { rewrite Hnil in Hx. by apply elem_of_nil in Hx. }
  assert (js_ordered v (cursor_line c)) as Hvh.
  { apply Hmin; [|done]. apply list_elem_of_fmap. eauto. }
  destruct Hgc as (_ & _ & Hsorted). rewrite Hr in Hx, Hsorted.
  apply elem_of_cons in Hx as [->|Hx]; [done|].
  apply StronglySorted_inv in Hsorted as [_ Hall].
  eapply js_le_trans; [exact Hvh|].
  by apply (proj1 (Forall_forall _ _) Hall).
Qed.

(** The loop on runs of good lines: the class, the paths of the runs and
    the output path, which is none of them. *)
Section MergeLoop.

Variable this : SortFile.
Variables (segments : list string) (outFile : string).
Hypothesis HL : 3 ≤ lineSizeBytes this.
Hypothesis Hout : outFile ∉ segments.

Lemma readNextLine_cursor (seg : string)
    (cs1 cs2 : list (list jsstring * list jsstring))
    (d r : list jsstring) (v : jsstring) (st : fs) :
  Forall (good_line (lineSizeBytes this)) (d ++ v :: r) →
  files st !! seg = Some (run_bytes (d ++ v :: r)) →
  readNextLine this (Some seg) (Z.of_nat (length cs1))
    (cursor_line <$> cs1 ++ (d, v :: r) :: cs2)
    (cursor_position (lineSizeBytes this) <$> cs1 ++ (d, v :: r) :: cs2) st
  = (st, Ok (cursor_line <$> cs1 ++ (d ++ [v], r) :: cs2,
             cursor_position (lineSizeBytes this)
               <$> cs1 ++ (d ++ [v], r) :: cs2)).
Proof.
  intros Hgood Hseg.
  unfold readNextLine. rewrite Nat2Z.id.
  assert ((cursor_position (lineSizeBytes this) <$> cs1 ++ (d, v :: r) :: cs2)
            !! length cs1
          = Some ((length d + 1) * lineSizeBytes this)) as ->.
  { rewrite fmap_app, fmap_cons. apply list_lookup_middle.
    by rewrite length_fmap. }
  cbn [default from_option]. unfold id.
  assert (files st !! seg = Some (run_bytes ((d ++ [v]) ++ r))) as Hseg1
    by by rewrite <- app_assoc.
  rewrite (bind_Ok _ _ _ _ _ (fh_read_file _ _ _ _ _ _ Hseg1)).
  assert (Forall (good_line (lineSizeBytes this)) (d ++ [v])
          ∧ Forall (good_line (lineSizeBytes this)) r) as [Hgd Hgr].
  { apply Forall_app in Hgood as [? Hgood].
    apply Forall_cons in Hgood as [? ?].
    split; [|done]. apply Forall_app. split; [done|]. by constructor. }
  replace ((length d + 1) * lineSizeBytes this)
    with (length (d ++ [v]) * lineSizeBytes this)
    by (rewrite length_app; simpl; lia).
  rewrite (read_run _ _ _ Hgd Hgr).
  assert (∀ nl,
            <[length cs1 := nl]>
              (cursor_line <$> cs1 ++ (d, v :: r) :: cs2)
            = (cursor_line <$> cs1) ++ nl :: (cursor_line <$> cs2)) as Hlines.
  { intros nl. rewrite fmap_app, fmap_cons.
    rewrite <- (length_fmap cursor_line cs1). apply insert_middle. }
  assert (<[length cs1 :=
              length (d ++ [v]) * lineSizeBytes this + lineSizeBytes this]>
            (cursor_position (lineSizeBytes this) <$> cs1 ++ (d, v :: r) :: cs2)
          = cursor_position (lineSizeBytes this)
              <$> cs1 ++ (d ++ [v], r) :: cs2) as ->.
  { rewrite !fmap_app, !fmap_cons.
    rewrite <- (length_fmap (cursor_position (lineSizeBytes this)) cs1).
    rewrite insert_middle. do 2 f_equal. unfold cursor_position.
    cbn [fst]. lia. }
  destruct Hgr as [|x r Hx Hgr].
  - cbn [head fmap option_fmap option_map default from_option length].
    cbn [Nat.eqb]. rewrite Hlines. unfold_M.
    by rewrite !fmap_app, !fmap_cons.
  - cbn [head fmap option_fmap option_map default from_option]. unfold id.
    rewrite (length_line_record _ _ Hx).
    destruct (Nat.eqb_spec (lineSizeBytes this) 0) as [|_]; [lia|].
    unfold Buffer_alloc. rewrite drop_ge by (rewrite length_replicate; lia).
    rewrite app_nil_r. fold (payload (line_record x)).
    rewrite (payload_line_record _ _ HL Hx), Hlines. unfold_M.
    by rewrite !fmap_app, !fmap_cons.
Qed.

Lemma merge_step (cs1 cs2 : list (list jsstring * list jsstring))
    (d r : list jsstring) (v : jsstring) (emitted : list jsstring)
    (st : fs) (fuel : nat) :
  runs_on_disk st segments (cs1 ++ (d, v :: r) :: cs2) →
  Forall (good_line (lineSizeBytes this)) (d ++ v :: r) →
  files st !! outFile = Some (run_bytes emitted) →
  findMinLine (cursor_line <$> cs1 ++ (d, v :: r) :: cs2)
  = (v, Z.of_nat (length cs1)) →
  mergeLoop this (S fuel) segments outFile
    (cursor_line <$> cs1 ++ (d, v :: r) :: cs2)
    (cursor_position (lineSizeBytes this) <$> cs1 ++ (d, v :: r) :: cs2) st
  = mergeLoop this fuel segments outFile
      (cursor_line <$> cs1 ++ (d ++ [v], r) :: cs2)
      (cursor_position (lineSizeBytes this) <$> cs1 ++ (d ++ [v], r) :: cs2)
      (Fs (<[outFile := run_bytes (emitted ++ [v])]> (files st)) (dirs st)
          (handles st))
  ∧ runs_on_disk
      (Fs (<[outFile := run_bytes (emitted ++ [v])]> (files st)) (dirs st)
          (handles st))
      segments (cs1 ++ (d ++ [v], r) :: cs2).
Proof.
  intros Hruns Hgood Hfile Hmin.
  set (st1 := Fs (<[outFile := run_bytes (emitted ++ [v])]> (files st))
                 (dirs st) (handles st)).
  assert (Hgv : good_line (lineSizeBytes this) v).
  { apply Forall_app in Hgood as [_ Hgood]. by apply Forall_cons in Hgood as [? _]. }
  pose proof (good_line_non_empty _ _ HL Hgv) as Hvne.
  assert (Hruns1 : runs_on_disk st1 segments (cs1 ++ (d ++ [v], r) :: cs2)).
  { apply runs_on_disk_write; [done|]. unfold runs_on_disk in *.
    apply Forall2_app_inv_r in Hruns as (s1 & s2 & H1 & H2 & ->).
    apply Forall2_cons_inv_r in H2 as (seg & s2' & Hseg & H2 & ->).
    apply Forall2_app; [done|]. constructor; [|done].
    cbn [fst snd] in *. by rewrite <- app_assoc. }
  split; [|done].
  unfold runs_on_disk in Hruns.
  apply Forall2_app_inv_r in Hruns as (s1 & s2 & H1 & H2 & ->).
  apply Forall2_cons_inv_r in H2 as (seg & s2' & Hseg & H2 & ->).
  cbn [fst snd] in Hseg.
  pose proof (Forall2_length _ _ _ H1) as Hlen1.
  assert (seg ≠ outFile) as Hseg_out.
  { intros ->. apply Hout. apply elem_of_app. right. left. }
  cbn [mergeLoop].
  assert (existsb (λ line, bool_decide (line ≠ []))
            (cursor_line <$> cs1 ++ (d, v :: r) :: cs2) = true) as ->.
  { apply existsb_non_empty. exists v. split; [|done].
    rewrite fmap_app, fmap_cons. apply elem_of_app. right. left. }
  rewrite Hmin.
  (* the selected line is written *)
  assert (writeLineToOutput this outFile v st = (st1, Ok ())) as Hwrite.
  { unfold writeLineToOutput, fh_write. rewrite Hfile.
    rewrite padEnd_full by (destruct Hgv as [Hlen _]; simpl in *; lia).
    fold (line_record v). unfold st1. do 3 f_equal.
    rewrite run_bytes_app, run_bytes_cons.
    change (run_bytes []) with (@nil byte). by rewrite app_nil_r. }
  rewrite (bind_Ok _ _ _ _ _ Hwrite).
  (* the cursor of the selected run advances *)
  assert (array_get (s1 ++ seg :: s2') (Z.of_nat (length cs1)) = Some seg) as ->.
  { unfold array_get. destruct (Z.ltb_spec (Z.of_nat (length cs1)) 0); [lia|].
    rewrite Nat2Z.id, <- Hlen1. by apply list_lookup_middle. }
  assert (files st1 !! seg = Some (run_bytes (d ++ v :: r))) as Hseg1.
  { unfold st1. cbn [files]. by rewrite lookup_insert_ne by done. }
  by rewrite (bind_Ok _ _ _ _ _
                (readNextLine_cursor seg cs1 cs2 d r v st1 Hgood Hseg1)).
Qed.

Lemma mergeLoop_cursors :
  ∀ (fuel : nat) (cursors : list (list jsstring * list jsstring))
    (emitted : list jsstring) (st : fs),
    length (concat (snd <$> cursors)) ≤ fuel →
    runs_on_disk st segments cursors →
    Forall (good_cursor (lineSizeBytes this)) cursors →
    files st !! outFile = Some (run_bytes emitted) →
    StronglySorted js_ordered emitted →
    (∀ e x, e ∈ emitted → x ∈ concat (snd <$> cursors) → js_ordered e x) →
    ∃ emitted',
      mergeLoop this fuel segments outFile (cursor_line <$> cursors)
        (cursor_position (lineSizeBytes this) <$> cursors) st
      = (Fs (<[outFile := run_bytes emitted']> (files st)) (dirs st)
            (handles st), Ok ())
      ∧ emitted' ≡ₚ emitted ++ concat (snd <$> cursors)
      ∧ StronglySorted js_ordered emitted'.
Proof.
  intros fuel.
  induction fuel as [|fuel IH];
    intros cursors emitted st Hfuel Hruns Hgood Hfile Hsorted Hbound.
  all: destruct (existsb (λ line, bool_decide (line ≠ []))
                   (cursor_line <$> cursors)) eqn:Hex.
  all: try (
    (* every run is exhausted *)
    assert (concat (snd <$> cursors) = []) as Hnil;
    [ apply not_true_iff_false in Hex; rewrite existsb_non_empty in Hex;
      clear -Hex Hgood HL; induction Hgood as [|c cs Hc _ IH]; [done|];
      rewrite fmap_cons, concat_cons;
      destruct (cursor_line_head _ _ HL Hc) as [[-> _]|(r & _ & _ & _ & Hne)];
      [ apply IH; intros (l & Hl & Hlne); apply Hex; exists l;
        split; [by right|done]
      | exfalso; apply Hex; exists (cursor_line c); split; [left|done] ]
    | exists emitted; rewrite Hnil, app_nil_r; split_and!; [|done..];
      first [ destruct fuel; cbn [mergeLoop]; rewrite Hex
            | cbn [mergeLoop]; rewrite Hex ];
      unfold_M; by rewrite (insert_id _ _ _ Hfile), fs_eta ]).
  - (* no fuel, and a line to write: the bound on the fuel forbids it *)
    exfalso. apply existsb_non_empty in Hex as (l & Hl & Hne).
    apply list_elem_of_fmap in Hl as (c & -> & Hc).
    pose proof (proj1 (Forall_forall _ _) Hgood c Hc) as Hgc.
    destruct (cursor_line_head _ _ HL Hgc) as [[_ ?]|(r & Hr & _)]; [done|].
    apply list_elem_of_split in Hc as (cs1 & cs2 & ->).
    rewrite fmap_app, fmap_cons, concat_app, concat_cons, Hr in Hfuel.
    rewrite !length_app in Hfuel. simpl in Hfuel. lia.
  - (* one iteration *)
    destruct (findMinLine_below (cursor_line <$> cursors))
      as (i & v & Hmin & Hi & Hvne & Hle).
    { by apply existsb_non_empty. }
    { intros l Hl Hne. apply list_elem_of_fmap in Hl as (c & -> & Hc).
      pose proof (proj1 (Forall_forall _ _) Hgood c Hc) as Hgc.
      destruct (cursor_line_head _ _ HL Hgc) as [[_ ?]|(r & _ & Hg & Hb & _)];
        [done|]. by eapply good_line_below. }
    apply list_lookup_fmap_Some in Hi as (c & Hv & Hc).
    pose proof (take_drop_middle _ _ _ Hc) as Hsplit.
    pose proof (lookup_lt_Some _ _ _ Hc) as Hlt.
    set (cs1 := take i cursors) in *. set (cs2 := drop (S i) cursors) in *.
    assert (length cs1 = i) as Hlen1 by (unfold cs1; rewrite length_take; lia).
    pose proof (proj1 (Forall_forall _ _) Hgood c
                  ltac:(by eapply list_elem_of_lookup_2)) as Hgc.
    destruct (cursor_line_head _ _ HL Hgc) as [[_ ?]|(r & Hr & _)];
      [congruence|].
    rewrite <- Hv in Hr. clear Hv.
    destruct c as [d rest]. cbn [snd] in Hr. subst rest.
    rewrite <- Hsplit in *. rewrite <- Hlen1 in Hmin.
    assert (Forall (good_cursor (lineSizeBytes this)) cs1
            ∧ good_cursor (lineSizeBytes this) (d, v :: r)
            ∧ Forall (good_cursor (lineSizeBytes this)) cs2)
      as (Hg1 & (Hgl & Hgb & Hgs) & Hg2).
    { apply Forall_app in Hgood as [? Hgood].
      by apply Forall_cons in Hgood as [? ?]. }
    cbn [fst snd] in Hgl, Hgb, Hgs.
    destruct (merge_step cs1 cs2 d r v emitted st fuel Hruns Hgl Hfile Hmin)
      as [Hstep Hruns1].
    rewrite Hstep.
    assert (∀ x, x ∈ concat (snd <$> cs1 ++ (d, v :: r) :: cs2) →
                 js_ordered v x) as Hvmin.
    { by apply (selected_le_remaining (lineSizeBytes this)). }
    assert (∀ x, x ∈ concat (snd <$> cs1 ++ (d ++ [v], r) :: cs2) →
                 x ∈ concat (snd <$> cs1 ++ (d, v :: r) :: cs2)) as Hsub.
    { intros x. rewrite !fmap_app, !fmap_cons, !concat_app, !concat_cons.
      cbn [snd]. rewrite !elem_of_app, elem_of_cons. tauto. }
    destruct (IH (cs1 ++ (d ++ [v], r) :: cs2) (emitted ++ [v])
                (Fs (<[outFile := run_bytes (emitted ++ [v])]> (files st))
                    (dirs st) (handles st)))
      as (emitted' & Hloop & Hperm & Hsorted').
    + rewrite fmap_app, fmap_cons, concat_app, concat_cons, !length_app
        in Hfuel |- *. cbn [snd length] in Hfuel |- *. lia.
    + done.
    + apply Forall_app. split; [done|]. constructor; [|done].
      split_and!; cbn [fst snd].
      * by rewrite <- app_assoc.
      * by apply Forall_cons in Hgb as [_ ?].
      * by apply StronglySorted_inv in Hgs as [? _].
    + cbn [files]. by rewrite lookup_insert_eq.
    + apply StronglySorted_snoc; [done|]. intros e He.
      apply Hbound; [done|]. rewrite fmap_app, fmap_cons, concat_app, concat_cons.
      cbn [snd]. apply elem_of_app. right. left.
    + intros e x He Hx. apply elem_of_app in He as [He|He].
      * apply Hbound; [done|]. by apply Hsub.
      * apply list_elem_of_singleton in He as ->. by apply Hvmin, Hsub.
    + exists emitted'. split_and!; [|..|done].
      * rewrite Hloop. cbn [files dirs handles].
        by rewrite insert_insert_eq.
      * rewrite Hperm. rewrite !fmap_app, !fmap_cons, !concat_app, !concat_cons.
        cbn [snd]. rewrite <- !app_assoc. apply Permutation_app_head.
        simpl. apply Permutation_middle.
Qed.

End MergeLoop.

(** ** Opening, closing and deleting the runs *)

Lemma Promise_all_open (segments : list string) :
  ∀ st : fs,
    Forall (λ segment, is_Some (files st !! segment)) segments →
    Promise_all (map fsp_open_r segments) st
    = (Fs (files st) (dirs st) (rev segments ++ handles st), Ok segments).
Proof.
  induction segments as [|seg segments IH]; intros st Hfiles.
  { simpl. by rewrite fs_eta. }
  apply Forall_cons in Hfiles as [[data Hseg] Hfiles].
  cbn [map Promise_all]. rewrite (fsp_open_r_file _ _ _ Hseg).
  rewrite (IH (with_handle seg st)) by done.
  unfold with_handle. cbn [files dirs handles].
  simpl rev. by rewrite <- app_assoc.
Qed.

Lemma elem_of_rev {A} (x : A) (l : list A) : x ∈ rev l ↔ x ∈ l.
Proof. rewrite !list_elem_of_In. symmetry. apply in_rev. Qed.

Lemma remove_first_app_notin (h : string) (pre l : list string) :
  h ∉ pre → remove_first h (pre ++ l) = pre ++ remove_first h l.
Proof.
  induction pre as [|x pre IH]; intros Hnotin; simpl; [done|].
  apply not_elem_of_cons in Hnotin as [Hne Hnotin].
  rewrite decide_False by done. by rewrite IH.
Qed.

Lemma Promise_all_close (fl : gmap string buffer) (ds : gmap string nat)
    (hs : list string) (segments : list string) :
  NoDup segments →
  ∀ pre : list string,
    (∀ s, s ∈ segments → s ∉ pre) →
    ∃ l, Promise_all (map fh_close segments)
           (Fs fl ds (pre ++ rev segments ++ hs))
         = (Fs fl ds (pre ++ hs), Ok l).
Proof.
  induction 1 as [|seg segments Hnotin Hnodup IH]; intros pre Hpre.
  { by exists []. }
  cbn [map Promise_all]. unfold fh_close at 1. cbn [files dirs handles].
  assert (remove_first seg (pre ++ rev (seg :: segments) ++ hs)
          = pre ++ rev segments ++ hs) as ->.
  { simpl rev. rewrite <- app_assoc.
    rewrite remove_first_app_notin by (apply Hpre; left).
    rewrite remove_first_app_notin by (by rewrite elem_of_rev).
    cbn [app]. by rewrite (remove_first_head seg hs). }
  destruct (IH pre) as [l Hl].
  { intros s Hs. apply Hpre. by right. }
  rewrite Hl. by eexists.
Qed.

Lemma Promise_all_unlink (ds : gmap string nat) (hs : list string)
    (segments : list string) :
  NoDup segments →
  ∀ fl : gmap string buffer,
    (∀ s, s ∈ segments → is_Some (fl !! s)) →
    ∃ fl' l,
      Promise_all (map fsp_unlink segments) (Fs fl ds hs)
      = (Fs fl' ds hs, Ok l)
      ∧ ∀ p, fl' !! p = if decide (p ∈ segments) then None else fl !! p.
Proof.
  induction 1 as [|seg segments Hnotin Hnodup IH]; intros fl Hfiles.
  { exists fl, []. split; [done|]. intros p. rewrite decide_False; [done|].
    apply not_elem_of_nil. }
  cbn [map Promise_all]. unfold fsp_unlink at 1. cbn [files dirs handles].
  destruct (Hfiles seg ltac:(left)) as [data ->].
  destruct (IH (delete seg fl)) as (fl' & l & Hall & Hlook).
  { intros s Hs. rewrite lookup_delete_ne; [apply Hfiles; by right|].
    by intros ->. }
  rewrite Hall. exists fl', (() :: l). split; [done|].
  intros p. rewrite Hlook. destruct (decide (p = seg)) as [->|Hne].
  - rewrite decide_False by done. rewrite decide_True by left.
    apply lookup_delete_eq.
  - rewrite lookup_delete_ne by done.
    destruct (decide (p ∈ segments)) as [Hin|Hnin].
    + by rewrite decide_True by by right.
    + rewrite decide_False; [done|]. by intros [?|?]%elem_of_cons.
Qed.

Lemma readInitialLines_cursors (this : SortFile) (st : fs)
    (segments : list string) (runs : list (list jsstring)) :
  3 ≤ lineSizeBytes this →
  Forall2 (λ segment r, files st !! segment = Some (run_bytes r))
    segments runs →
  Forall (λ r, r ≠ [] ∧ Forall (good_line (lineSizeBytes this)) r) runs →
  readInitialLines this segments st
  = (st, Ok (cursor_line <$> ((λ r, ([], r)) <$> runs))).
Proof.
  intros HL Hdisk Hruns. unfold readInitialLines.
  assert (Promise_all
            (map (λ handle,
                    fh_read handle (Buffer_alloc (lineSizeBytes this))
                      (lineSizeBytes this) 0) segments) st
          = (st, Ok ((λ r, (lineSizeBytes this,
                            default [] (line_record <$> head r))) <$> runs)))
    as Hall.
  { induction Hdisk as [|seg r segs rs Hseg Hdisk IH]; [done|].
    apply Forall_cons in Hruns as [[Hne Hgood] Hruns].
    cbn [map Promise_all]. rewrite (fh_read_file _ _ _ _ _ _ Hseg).
    rewrite (IH Hruns). rewrite fmap_cons. do 3 f_equal.
    pose proof (read_run (lineSizeBytes this) [] r ltac:(done) Hgood) as Hread.
    cbn [length app] in Hread. rewrite Nat.mul_0_l in Hread. rewrite Hread.
    destruct Hgood as [|x r Hx _]; [done|].
    cbn [head fmap option_fmap option_map default from_option]. unfold id.
    rewrite (length_line_record _ _ Hx).
    unfold Buffer_alloc. rewrite drop_ge by (rewrite length_replicate; lia).
    by rewrite app_nil_r. }
  rewrite (bind_Ok _ _ _ _ _ Hall). unfold_M. do 2 f_equal.
  rewrite <- !list_fmap_compose. apply Forall_fmap_ext_1.
  eapply Forall_impl; [exact Hruns|]. intros r [Hne Hgood]. simpl.
  destruct Hgood as [|x r Hx _]; [done|]. unfold cursor_line. simpl.
  fold (payload (line_record x)). by eapply payload_line_record.
Qed.

(** ** The cleanup of [mergeSegments] *)

Lemma Promise_all_read_state (this : SortFile) (fileHandles : list string)
    (st : fs) :
  (Promise_all
     (map (λ handle,
             fh_read handle (Buffer_alloc (lineSizeBytes this))
               (lineSizeBytes this) 0) fileHandles) st).1 = st.
Proof.
  induction fileHandles as [|h hs IH]; [done|]. cbn [map Promise_all].
  pose proof (fh_read_state h (Buffer_alloc (lineSizeBytes this))
                (lineSizeBytes this) 0 st) as Hst.
  destruct (fh_read _ _ _ _ _) as [st1 r]. simpl in Hst. subst st1.
  destruct (Promise_all _ _) as [st2 rs]. simpl in IH. by subst st2.
Qed.

Lemma writes_only_refl (outFile : string) (st : fs) :
  writes_only outFile st st.
Proof. done. Qed.

Lemma writes_only_trans (outFile : string) (st1 st2 st3 : fs) :
  writes_only outFile st1 st2 → writes_only outFile st2 st3 →
  writes_only outFile st1 st3.
Proof.
  intros (Hd1 & Hh1 & Hf1) (Hd2 & Hh2 & Hf2). split_and!; [congruence..|].
  intros p Hp. by rewrite Hf2, Hf1.
Qed.

Lemma mergeLoop_writes_only (this : SortFile) (fileHandles : list string)
    (outFile : string) (fuel : nat) :
  ∀ (lines : list jsstring) (positions : list nat) (st : fs),
    writes_only outFile st
      (mergeLoop this fuel fileHandles outFile lines positions st).1.
Proof.
  induction fuel as [|fuel IH]; intros lines positions st.
  { cbn [mergeLoop]. by destruct (existsb _ _). }
  cbn [mergeLoop]. destruct (existsb _ _); [|done].
  destruct (findMinLine lines) as [minLine minIndex].
  unfold_M. unfold writeLineToOutput, fh_write.
  destruct (files st !! outFile) as [old|] eqn:Hout; [|done].
  match goal with
  | |- context [readNextLine ?t ?h ?i ?l ?p ?s] =>
      assert ((readNextLine t h i l p s).1 = s) as Hst;
      [|destruct (readNextLine t h i l p s) as [st1 [[lines' positions']| |]];
        simpl in Hst; subst st1]
  end.
  { unfold readNextLine. destruct (array_get _ _); [|done]. unfold_M.
    match goal with
    | |- context [fh_read ?h ?b ?l ?p ?s] =>
        pose proof (fh_read_state h b l p s) as Hst;
        destruct (fh_read h b l p s) as [st1 [[n rb]| |]];
        simpl in Hst; subst st1; [|done..]
    end.
    by destruct (_ =? 0). }
  - eapply writes_only_trans; [|apply IH].
    split_and!; [done..|]. intros p Hp. cbn [files].
    by rewrite lookup_insert_ne.
  - split_and!; [done..|]. intros p Hp. cbn [files fst].
    by rewrite lookup_insert_ne.
  - split_and!; [done..|]. intros p Hp. cbn [files fst].
    by rewrite lookup_insert_ne.
Qed.

Lemma performMerge_writes_only (this : SortFile) (fuel : nat)
    (fileHandles : list string) (outFile : string) (st : fs) :
  writes_only outFile st (performMerge this fuel fileHandles outFile st).1.
Proof.
  unfold performMerge, readInitialLines. unfold_M.
  pose proof (Promise_all_read_state this fileHandles st) as Hst.
  destruct (Promise_all _ _) as [st1 [rs| |]]; simpl in Hst; subst st1;
    [|done..].
  apply mergeLoop_writes_only.
Qed.

Lemma remove_first_app_in (h : string) (pre l : list string) :
  h ∈ pre → remove_first h (pre ++ l) = remove_first h pre ++ l.
Proof.
  induction pre as [|x pre IH]; intros Hin; [by apply elem_of_nil in Hin|].
  simpl. case_decide; [done|].
  apply elem_of_cons in Hin as [->|Hin]; [done|]. simpl. by rewrite IH.
Qed.

Lemma remove_first_perm (h : string) (l : list string) :
  h ∈ l → h :: remove_first h l ≡ₚ l.
Proof.
  induction l as [|x l IH]; intros Hin; [by apply elem_of_nil in Hin|].
  simpl. case_decide as Heq; [by rewrite Heq|].
  apply elem_of_cons in Hin as [->|Hin]; [done|].
  rewrite perm_swap. by rewrite IH.
Qed.

(** Closing one handle per opened handle, in any order, leaves the handles
    that were open before. *)
Lemma remove_first_all (closed : list string) :
  ∀ opened hs : list string,
    opened ≡ₚ closed →
    foldl (λ l h, remove_first h l) (opened ++ hs) closed = hs.
Proof.
  induction closed as [|h closed IH]; intros opened hs Hperm.
  { apply Permutation_nil_r in Hperm as ->. done. }
  assert (h ∈ opened) as Hin by (rewrite Hperm; left).
  cbn [foldl]. rewrite remove_first_app_in by done. apply IH.
  apply (Permutation_cons_inv (a := h)).
  by rewrite remove_first_perm.
Qed.

Lemma Promise_all_close_any (fl : gmap string buffer) (ds : gmap string nat)
    (fileHandles : list string) :
  ∀ hs : list string,
    ∃ l, Promise_all (map fh_close fileHandles) (Fs fl ds hs)
         = (Fs fl ds (foldl (λ l h, remove_first h l) hs fileHandles), Ok l).
Proof.
  induction fileHandles as [|h fileHandles IH]; intros hs; [by exists []|].
  cbn [map Promise_all foldl]. unfold fh_close at 1. cbn [files dirs handles].
  destruct (IH (remove_first h hs)) as [l ->]. by eexists.
Qed.

Lemma Promise_all_unlink_any (ds : gmap string nat) (hs : list string)
    (segments : list string) :
  ∀ fl : gmap string buffer,
    ∃ fl' r,
      Promise_all (map fsp_unlink segments) (Fs fl ds hs) = (Fs fl' ds hs, r)
      ∧ r ≠ OutOfFuel
      ∧ (∀ p, p ∈ segments → fl' !! p = None)
      ∧ (∀ p, fl !! p = None → fl' !! p = None)
      ∧ (∀ p, p ∉ segments → fl' !! p = fl !! p).
Proof.
  induction segments as [|seg segments IH]; intros fl.
  { exists fl, (Ok []). split_and!; try done.
    by intros p ?%elem_of_nil. }
  cbn [map Promise_all]. unfold fsp_unlink at 1. cbn [files dirs handles].
  destruct (fl !! seg) as [data|] eqn:Hseg.
  - destruct (IH (delete seg fl)) as (fl' & r & -> & Hr & Hgone & Hnone & Hframe).
    eexists fl', _. split_and!; [done|by destruct r|..].
    + intros p [->|Hp]%elem_of_cons; [|by apply Hgone].
      apply Hnone, lookup_delete_eq.
    + intros p Hp. apply Hnone.
      destruct (decide (p = seg)) as [->|?];
        [apply lookup_delete_eq|by rewrite lookup_delete_ne].
    + intros p Hp. apply not_elem_of_cons in Hp as [Hne Hp].
      rewrite Hframe by done. by rewrite lookup_delete_ne.
  - destruct (IH fl) as (fl' & r & -> & Hr & Hgone & Hnone & Hframe).
    eexists fl', _. split_and!; [done|by destruct r|..].
    + intros p [->|Hp]%elem_of_cons; [by apply Hnone|by apply Hgone].
    + done.
    + intros p Hp. apply not_elem_of_cons in Hp as [_ Hp]. by apply Hframe.
Qed.

(** Once [mergeSegments] has opened the runs and the output, the cleanup is
    unconditional: whether [performMerge] returns or throws, every handle
    it opened is closed again and every run file is deleted. *)
Lemma mergeSegments_cleanup (this : SortFile) (fuel : nat)
    (segments : list string) (outFilename : string) (st st' : fs)
    (r : outcome ()) :
  Forall (λ segment, is_Some (files st !! segment)) segments →
  writable st outFilename = true →
  mergeSegments this fuel segments outFilename st = (st', r) →
  r ≠ OutOfFuel →
  handles st' = handles st
  ∧ dirs st' = dirs st
  ∧ (∀ p, p ∈ segments → files st' !! p = None)
  ∧ (∀ p, p ∉ segments → p ≠ outFilename → files st' !! p = files st !! p).
Proof.
  intros Hfiles Hwr. unfold mergeSegments.
  rewrite (bind_Ok _ _ _ _ _ (Promise_all_open segments st Hfiles)).
  set (st_b := Fs (<[outFilename := []]> (files st)) (dirs st)
                  (outFilename :: rev segments ++ handles st)).
  assert (fsp_open_w outFilename
            (Fs (files st) (dirs st) (rev segments ++ handles st))
          = (st_b, Ok outFilename)) as Hopen.
  { unfold fsp_open_w.
    change (writable (Fs (files st) (dirs st) (rev segments ++ handles st))
              outFilename) with (writable st outFilename).
    by rewrite Hwr. }
  rewrite (bind_Ok _ _ _ _ _ Hopen). unfold try_finally.
  pose proof (performMerge_writes_only this fuel segments outFilename st_b)
    as (Hd & Hh & Hf).
  destruct (performMerge this fuel segments outFilename st_b) as [st_c rm].
  cbn [fst] in Hd, Hh, Hf.
  assert (∃ st_d rc,
            cleanupFiles segments outFilename segments st_c = (st_d, rc)
            ∧ rc ≠ OutOfFuel
            ∧ handles st_d = handles st ∧ dirs st_d = dirs st
            ∧ (∀ p, p ∈ segments → files st_d !! p = None)
            ∧ (∀ p, p ∉ segments → files st_d !! p = files st_c !! p))
    as (st_d & rc & Hclean & Hrc & Hh' & Hd' & Hgone & Hframe).
  { unfold cleanupFiles. destruct st_c as [fl_c ds_c hs_c].
    cbn [files dirs handles] in *. subst ds_c hs_c.
    destruct (Promise_all_close_any fl_c (dirs st) segments
                (outFilename :: rev segments ++ handles st)) as [l Hclose].
    rewrite (bind_Ok _ _ _ _ _ Hclose).
    unfold fh_close at 1. unfold_M. cbn [files dirs handles].
    pose proof (remove_first_all (segments ++ [outFilename])
                  (outFilename :: rev segments) (handles st)) as Hall.
    rewrite foldl_app in Hall. cbn [foldl app] in Hall. rewrite Hall.
    2:{ rewrite <- Permutation_cons_append. constructor.
        apply Permutation_sym, Permutation_rev. }
    destruct (Promise_all_unlink_any (dirs st) (handles st) segments fl_c)
      as (fl' & ru & -> & Hru & Hgone & _ & Hframe).
    destruct ru as [lu|e|]; [| |done]; eexists _, _;
      (split; [reflexivity|]); cbn [files dirs handles]; by split_and!. }
  rewrite Hclean.
  assert (∀ rr, (st', r) = (st_d, rr) → r ≠ OutOfFuel →
            handles st' = handles st ∧ dirs st' = dirs st
            ∧ (∀ p, p ∈ segments → files st' !! p = None)
            ∧ (∀ p, p ∉ segments → p ≠ outFilename →
                 files st' !! p = files st !! p)) as Hfinal.
  { intros rr [= -> _] _. split_and!; [done..|].
    intros p Hp Hne. rewrite Hframe, Hf by done. unfold st_b. cbn [files].
    by rewrite lookup_insert_ne. }
  destruct rm as [[]|e|].
  - destruct rc as [[]|e|]; [| |done]; intros Heq; by eapply Hfinal.
  - destruct rc as [[]|e'|]; [| |done]; intros Heq; by eapply Hfinal.
  - intros [= <- <-]. done.
Qed.

(** ** [mergeSegments] on sorted runs *)

Lemma cleanupFiles_run (segments : list string) (outFile : string)
    (fl : gmap string buffer) (ds : gmap string nat) (hs : list string) :
  NoDup segments →
  outFile ∉ segments →
  (∀ s, s ∈ segments → is_Some (fl !! s)) →
  ∃ fl',
    cleanupFiles segments outFile segments
      (Fs fl ds (outFile :: rev segments ++ hs))
    = (Fs fl' ds hs, Ok ())
    ∧ ∀ p, fl' !! p = if decide (p ∈ segments) then None else fl !! p.
Proof.
  intros Hnodup Hout Hfiles. unfold cleanupFiles.
  destruct (Promise_all_close fl ds hs segments Hnodup [outFile]) as [l Hclose].
  { intros s Hs [->|?%elem_of_nil]%elem_of_cons; done. }
  cbn [app] in Hclose. rewrite (bind_Ok _ _ _ _ _ Hclose).
  assert (fh_close outFile (Fs fl ds (outFile :: hs)) = (Fs fl ds hs, Ok ()))
    as Hcloseout.
  { unfold fh_close. cbn [files dirs handles]. by rewrite remove_first_head. }
  rewrite (bind_Ok _ _ _ _ _ Hcloseout).
  destruct (Promise_all_unlink ds hs segments Hnodup fl Hfiles)
    as (fl' & l' & Hunlink & Hlook).
  rewrite (bind_Ok _ _ _ _ _ Hunlink). by exists fl'.
Qed.

Lemma mergeSegments_runs (this : SortFile) (fuel : nat)
    (segments : list string) (outFilename : string) (st : fs)
    (runs : list (list jsstring)) :
  3 ≤ lineSizeBytes this →
  NoDup segments →
  outFilename ∉ segments →
  writable st outFilename = true →
  Forall2 (λ segment r, files st !! segment = Some (run_bytes r))
    segments runs →
  Forall (λ r, r ≠ [] ∧ good_cursor (lineSizeBytes this) ([], r)) runs →
  length (concat runs) ≤ fuel →
  ∃ fl lines,
    mergeSegments this fuel segments outFilename st
    = (Fs fl (dirs st) (handles st), Ok ())
    ∧ fl !! outFilename = Some (run_bytes lines)
    ∧ lines ≡ₚ concat runs
    ∧ StronglySorted js_ordered lines
    ∧ ∀ p, p ≠ outFilename →
        fl !! p = if decide (p ∈ segments) then None else files st !! p.
Proof.
  intros HL Hnodup Hout Hwr Hdisk Hruns Hfuel. unfold mergeSegments.
  assert (Forall (λ segment, is_Some (files st !! segment)) segments) as Hex.
  { clear -Hdisk. induction Hdisk; constructor; eauto. }
  rewrite (bind_Ok _ _ _ _ _ (Promise_all_open segments st Hex)).
  set (st_b := Fs (<[outFilename := []]> (files st)) (dirs st)
                  (outFilename :: rev segments ++ handles st)).
  assert (fsp_open_w outFilename
            (Fs (files st) (dirs st) (rev segments ++ handles st))
          = (st_b, Ok outFilename)) as Hopen.
  { unfold fsp_open_w.
    change (writable (Fs (files st) (dirs st) (rev segments ++ handles st))
              outFilename) with (writable st outFilename).
    by rewrite Hwr. }
  rewrite (bind_Ok _ _ _ _ _ Hopen).
  set (cursors := (λ r : list jsstring, (@nil jsstring, r)) <$> runs).
  assert (runs_on_disk st_b segments cursors) as Hdisk_b.
  { unfold runs_on_disk, cursors. apply Forall2_fmap_r.
    clear -Hdisk Hout. induction Hdisk as [|seg r segs rs Hseg Hdisk IH];
      [constructor|].
    apply not_elem_of_cons in Hout as [Hne Hout].
    constructor; [|by apply IH]. cbn [files fst snd app st_b].
    by rewrite lookup_insert_ne. }
  assert (Forall (good_cursor (lineSizeBytes this)) cursors) as Hgood.
  { unfold cursors. apply Forall_fmap. eapply Forall_impl; [exact Hruns|].
    by intros r [_ ?]. }
  assert (concat (snd <$> cursors) = concat runs) as Hconcat.
  { unfold cursors. rewrite <- list_fmap_compose. f_equal.
    rewrite <- (list_fmap_id runs) at 2. by apply list_fmap_ext. }
  destruct (mergeLoop_cursors this segments outFilename HL Hout fuel cursors []
              st_b) as (lines & Hloop & Hperm & Hsorted).
  { by rewrite Hconcat. }
  { done. }
  { done. }
  { unfold st_b. cbn [files]. by rewrite lookup_insert_eq. }
  { constructor. }
  { by intros e x ?%elem_of_nil. }
  assert (performMerge this fuel segments outFilename st_b
          = (Fs (<[outFilename := run_bytes lines]> (files st_b)) (dirs st_b)
                (handles st_b), Ok ())) as Hmerge.
  { unfold performMerge.
    assert (Forall2 (λ segment r, files st_b !! segment = Some (run_bytes r))
              segments runs) as Hdisk_b'.
    { clear -Hdisk Hout. induction Hdisk as [|seg r segs rs Hseg Hdisk IH];
        [constructor|].
      apply not_elem_of_cons in Hout as [Hne Hout].
      constructor; [|by apply IH]. cbn [files st_b].
      by rewrite lookup_insert_ne. }
    assert (Forall (λ r, r ≠ [] ∧ Forall (good_line (lineSizeBytes this)) r)
              runs) as Hruns'.
    { eapply Forall_impl; [exact Hruns|]. by intros r [? [? _]]. }
    rewrite (bind_Ok _ _ _ _ _
               (readInitialLines_cursors this st_b segments runs HL Hdisk_b'
                  Hruns')).
    fold cursors.
    assert (replicate (length segments) (lineSizeBytes this)
            = cursor_position (lineSizeBytes this) <$> cursors) as ->; [|done].
    rewrite (Forall2_length _ _ _ Hdisk). unfold cursors.
    rewrite <- list_fmap_compose. clear.
    induction runs as [|r runs IH]; [done|]. simpl. rewrite IH. f_equal.
    unfold cursor_position. simpl. lia. }
  destruct (cleanupFiles_run segments outFilename
              (<[outFilename := run_bytes lines]> (files st_b)) (dirs st)
              (handles st) Hnodup Hout) as (fl & Hclean & Hlook).
  { intros s Hs. rewrite lookup_insert_ne by (by intros ->).
    unfold st_b. cbn [files]. rewrite lookup_insert_ne by (by intros ->).
    by apply (proj1 (Forall_forall _ _) Hex). }
  exists fl, lines. split_and!.
  - eapply try_finally_run; [exact Hmerge|done|exact Hclean].
  - rewrite Hlook, decide_False by done. apply lookup_insert_eq.
  - by rewrite Hperm, Hconcat.
  - done.
  - intros p Hp. rewrite Hlook. case_decide; [done|].
    rewrite lookup_insert_ne by done. unfold st_b. cbn [files].
    by rewrite lookup_insert_ne.
Qed.

(** ** Records and groups of records *)

Lemma chunks_nil (width : nat) : width ≠ 0 → chunks width [] = [].
Proof.
  intros Hw. unfold chunks. cbn [length].
  by rewrite Nat.add_0_l, Nat.div_small by lia.
Qed.

Lemma chunks_app (width : nat) (w rest : buffer) :
  width ≠ 0 → length w = width →
  chunks width (w ++ rest) = w :: chunks width rest.
Proof.
  intros Hw Hlen. unfold chunks. rewrite length_app, Hlen.
  replace ((width + length rest + width - 1) / width)
    with (S ((length rest + width - 1) / width)).
  - cbn [seq fmap list_fmap]. rewrite Nat.mul_0_l, drop_0.
    rewrite take_app_length' by done. f_equal.
    rewrite <- fmap_S_seq, <- list_fmap_compose.
    apply list_fmap_ext. intros _ i _. simpl.
    replace (width + i * width) with (length w + i * width) by lia.
    by rewrite drop_app_add'.
  - replace (width + length rest + width - 1)
      with (1 * width + (length rest + width - 1)) by lia.
    rewrite Nat.div_add_l by done. lia.
Qed.

Lemma chunks_concat (width : nat) (ws : list buffer) :
  width ≠ 0 → Forall (λ w, length w = width) ws →
  chunks width (concat ws) = ws.
Proof.
  intros Hw. induction 1 as [|w ws Hlen _ IH]; [by apply chunks_nil|].
  by rewrite concat_cons, chunks_app, IH.
Qed.

(** A list whose length is a multiple of [n] splits into groups of [n]. *)
Lemma groups_of {A} (n : nat) (l : list A) :
  n ≠ 0 → length l mod n = 0 →
  ∃ gs, l = concat gs ∧ Forall (λ g, length g = n) gs.
Proof.
  intros Hn Hmod. apply Nat.Lcm0.mod_divide in Hmod as [q Hq].
  revert l Hq. induction q as [|q IH]; intros l Hq.
  - exists []. split; [|done]. by apply nil_length_inv.
  - destruct (IH (drop n l)) as (gs & Hgs & Hall).
    { rewrite length_drop. lia. }
    exists (take n l :: gs). split.
    + by rewrite concat_cons, <- Hgs, take_drop.
    + constructor; [|done]. rewrite length_take. lia.
Qed.

Lemma concat_perm {A} (ls ls' : list (list A)) :
  Forall2 Permutation ls ls' → concat ls ≡ₚ concat ls'.
Proof.
  induction 1 as [|l l' ls ls' Hl _ IH]; [done|].
  rewrite !concat_cons. by rewrite Hl, IH.
Qed.

Lemma concat_fmap {A B} (f : A → B) (ls : list (list A)) :
  concat ((λ l : list A, f <$> l) <$> ls) = f <$> concat ls.
Proof.
  induction ls as [|l ls IH]; [done|].
  by rewrite !fmap_cons, !concat_cons, fmap_app, IH.
Qed.

(** ** The records of a file *)

Lemma payloads_concat (width : nat) (ws : list buffer) :
  Forall (valid_window width) ws →
  payloads width (concat ws) = payload <$> ws.
Proof.
  intros Hws. unfold payloads.
  destruct ws as [|w ws].
  { change (concat []) with (@nil byte).
    destruct width; [done|]. by rewrite (chunks_nil (S width)). }
  rewrite chunks_concat; [done| |].
  - apply Forall_cons in Hws as [Hw _].
    pose proof (valid_window_width _ _ Hw). lia.
  - eapply Forall_impl; [exact Hws|]. by intros ? [? _].
Qed.

Lemma chunks_run_bytes (width : nat) (lines : list jsstring) :
  3 ≤ width → Forall (good_line width) lines →
  chunks width (run_bytes lines) = line_record <$> lines.
Proof.
  intros Hw Hlines. unfold run_bytes. apply chunks_concat; [lia|].
  apply Forall_fmap. eapply Forall_impl; [exact Hlines|].
  intros l Hl. by apply length_line_record.
Qed.

Lemma payloads_run_bytes (width : nat) (lines : list jsstring) :
  3 ≤ width → Forall (good_line width) lines →
  payloads width (run_bytes lines) = lines.
Proof.
  intros Hw Hlines. unfold payloads. rewrite chunks_run_bytes by done.
  rewrite <- list_fmap_compose. rewrite <- (list_fmap_id lines) at 2.
  apply list_fmap_ext. intros _ l Hl%list_elem_of_lookup_2. simpl.
  apply (payload_line_record width); [done|].
  by apply (proj1 (Forall_forall _ _) Hlines).
Qed.

Lemma js_lt_app_same (a b s : jsstring) :
  length a = length b → js_lt (a ++ s) (b ++ s) = js_lt a b.
Proof.
  revert b. induction a as [|x a IH]; intros [|y b] Hlen; try done.
  - simpl. apply js_lt_irrefl.
  - simpl. rewrite IH by (simpl in Hlen; lia). done.
Qed.

Lemma bytes_le_line_record (width : nat) (a b : jsstring) :
  good_line width a → good_line width b →
  bytes_le (line_record a) (line_record b) = js_le a b.
Proof.
  intros (Ha & Ha7 & _) (Hb & Hb7 & _). unfold bytes_le, line_record.
  assert (∀ s, Forall (λ c, (c < 128)%N) s →
               Byte.to_N <$> Buffer_from_ascii (s ++ EOL) = s ++ EOL) as Hdec.
  { intros s Hs. rewrite <- toString_ascii_seven_bit.
    - apply toString_ascii_from_ascii. apply Forall_app. split; [done|].
      by repeat constructor.
    - apply seven_bit_from_ascii. apply Forall_app. split; [done|].
      by repeat constructor. }
  rewrite !Hdec by done. unfold js_le. rewrite js_lt_app_same; [done|].
  simpl in *. lia.
Qed.

Lemma StronglySorted_drop (l1 l2 : list jsstring) :
  StronglySorted js_ordered (l1 ++ l2) → StronglySorted js_ordered l2.
Proof.
  induction l1 as [|x l1 IH]; [done|]. simpl.
  intros [H _]%StronglySorted_inv. by apply IH.
Qed.

Lemma sorted_records_run_bytes (width : nat) (lines : list jsstring) :
  3 ≤ width → Forall (good_line width) lines →
  StronglySorted js_ordered lines →
  sorted_records (chunks width (run_bytes lines)).
Proof.
  intros Hw Hgood Hsorted. rewrite chunks_run_bytes by done.
  intros i r r' Hr Hr'.
  apply list_lookup_fmap_Some in Hr as (a & -> & Ha).
  apply list_lookup_fmap_Some in Hr' as (b & -> & Hb).
  rewrite (bytes_le_line_record width).
  - pose proof (take_drop_middle _ _ _ Ha) as Hsplit.
    rewrite <- Hsplit in Hsorted.
    apply StronglySorted_drop, StronglySorted_inv in Hsorted as [_ Hall].
    apply (proj1 (Forall_forall _ _) Hall).
    apply list_elem_of_lookup. exists 0. by rewrite lookup_drop, Nat.add_0_r.
  - apply (proj1 (Forall_forall _ _) Hgood). by eapply list_elem_of_lookup_2.
  - apply (proj1 (Forall_forall _ _) Hgood). by eapply list_elem_of_lookup_2.
Qed.

Lemma toString_utf8_7bit_ok : utf8_on_7bit toString_utf8_7bit.
Proof.
  intros buf. unfold seven_bit, toString_utf8_7bit.
  induction 1 as [|b buf Hb _ IH]; [done|].
  rewrite !fmap_cons, IH. f_equal.
  by rewrite (proj2 (N.ltb_lt _ _) Hb).
Qed.

Lemma decode_window (toString_utf8 : buffer → jsstring) (w : buffer) :
  utf8_on_7bit toString_utf8 → seven_bit w →
  trim (toString_utf8 w) = payload w.
Proof.
  intros Hutf8 Hw. unfold payload.
  by rewrite (Hutf8 w Hw), (toString_ascii_seven_bit w Hw).
Qed.

(** ** [Sort] on a file of whole records *)

(** The input file is a sequence [ws] of whole records of 7-bit bytes the
    width check accepts, none beginning with the sentinel character, in a
    number that is a multiple of the segment size; the output path is an
    existing regular file and none of the temporary paths, which can be
    written; the fuel is above the number of records. *)
Section WholeRecords.

Variable toString_utf8 : buffer → jsstring.
Variable this : SortFile.
Variables (fuel : nat) (inFilename outFilename : string).
Variables (st : fs) (ws : list buffer) (old : buffer).

Hypothesis Hutf8 : utf8_on_7bit toString_utf8.
Hypothesis HL : 3 ≤ lineSizeBytes this.
Hypothesis Hn : numberOfLinesPerSegment this ≠ 0.
Hypothesis Hin : files st !! inFilename = Some (concat ws).
Hypothesis Hsize : length (concat ws) ≤ maxFileSizeBytes this.
Hypothesis Hvalid : Forall (valid_window (lineSizeBytes this)) ws.
Hypothesis H7 : Forall seven_bit ws.
Hypothesis Hbelow : Forall (λ w, below_sentinel (payload w)) ws.
Hypothesis Hmod : length ws mod numberOfLinesPerSegment this = 0.
Hypothesis Hout : files st !! outFilename = Some old.
Hypothesis Hdir : dirs st !! outFilename = None.
Hypothesis Hwr :
  ∀ i, writable st (tempFilePath (slice_0_minus4 inFilename) i) = true.
Hypothesis Halias :
  ∀ i, tempFilePath (slice_0_minus4 inFilename) i ≠ outFilename.
Hypothesis Hfuel : length ws < fuel.

Lemma Sort_whole_records :
  ∃ fl lines,
    Sort toString_utf8 this fuel inFilename outFilename st
    = (Fs fl (dirs st) (handles st), Ok ())
    ∧ fl !! outFilename = Some (run_bytes lines)
    ∧ lines ≡ₚ payload <$> ws
    ∧ StronglySorted js_ordered lines
    ∧ (∀ p, p ≠ outFilename →
         (∀ i, p ≠ tempFilePath (slice_0_minus4 inFilename) i) →
         fl !! p = files st !! p)
    ∧ (∀ i, i < length ws / numberOfLinesPerSegment this →
         fl !! tempFilePath (slice_0_minus4 inFilename) i = None).
Proof.
  set (noEnd := slice_0_minus4 inFilename) in *.
  (* validation *)
  assert (validateInput this fuel inFilename outFilename st = (st, Ok ()))
    as Hval.
  { rewrite (validateInput_windows this fuel inFilename outFilename st ws old)
      by done.
    unfold rem_nonzero.
    destruct (Nat.eqb_spec (numberOfLinesPerSegment this) 0) as [|_]; [done|].
    by rewrite Hmod. }
  (* the segments *)
  destruct (groups_of _ ws Hn Hmod) as (gs & -> & Hgs).
  assert (Forall (full_group this) gs) as Hfull.
  { apply Forall_forall. intros g Hg. split.
    - by apply (proj1 (Forall_forall _ _) Hgs).
    - apply Forall_forall. intros w Hw.
      assert (w ∈ concat gs) as Hw' by (apply elem_of_concat; eauto).
      by destruct (proj1 (Forall_forall _ _) Hvalid w Hw'). }
  assert (length (concat gs) = length gs * numberOfLinesPerSegment this)
    as Hcount.
  { clear -Hgs. induction Hgs as [|g gs Hg _ IH]; [done|].
    rewrite concat_cons, length_app, IH, Hg. simpl. lia. }
  assert (length gs ≤ length (concat gs)) as Hle.
  { rewrite Hcount. destruct (numberOfLinesPerSegment this); [done|]. nia. }
  destruct (sortSegmentsLoop_groups toString_utf8 this inFilename noEnd Hn
              ltac:(lia) (tempFilePath_ne_input inFilename) gs fuel []
              [] 0 (with_handle inFilename st))
    as (fl1 & Hloop & Hsegs & Hframe1); [done|done|done|lia|].
  cbn [app length files dirs handles with_handle] in Hloop, Hsegs, Hframe1.
  set (segments := tempFilePath noEnd <$> seq 0 (length gs)) in *.
  set (st2 := Fs fl1 (dirs st) (handles st)).
  assert (sortSegments toString_utf8 this fuel inFilename st
          = (st2, Ok segments)) as Hsort.
  { by eapply sortSegments_run. }
  (* the merge *)
  set (runs := segment_lines toString_utf8 <$> gs).
  assert (∀ g, g ∈ gs →
            Forall (good_line (lineSizeBytes this))
              ((λ w, trim (toString_utf8 w)) <$> g)
            ∧ Forall below_sentinel ((λ w, trim (toString_utf8 w)) <$> g)
            ∧ (λ w, trim (toString_utf8 w)) <$> g = payload <$> g) as Hlines.
  { intros g Hg.
    assert ((λ w, trim (toString_utf8 w)) <$> g = payload <$> g) as Heq.
    { apply list_fmap_ext. intros _ w Hw%list_elem_of_lookup_2.
      apply decode_window; [done|].
      apply (proj1 (Forall_forall _ _) H7). apply elem_of_concat. eauto. }
    rewrite Heq. split_and!; [| |done].
    - apply Forall_fmap, Forall_forall. intros w Hw. apply good_line_payload.
      apply (proj1 (Forall_forall _ _) Hvalid). apply elem_of_concat. eauto.
    - apply Forall_fmap, Forall_forall. intros w Hw.
      apply (proj1 (Forall_forall _ _) Hbelow). apply elem_of_concat. eauto. }
  assert (NoDup segments) as Hnodup.
  { unfold segments. apply NoDup_fmap_2; [|apply NoDup_seq].
    intros i j. apply tempFilePath_inj. }
  assert (outFilename ∉ segments) as Hnotin.
  { unfold segments. intros (i & Heq & _)%list_elem_of_fmap.
    by apply (Halias i). }
  assert (fl1 !! outFilename = Some old) as Hout1.
  { rewrite Hframe1; [done|]. intros j _ Heq. by apply (Halias (0 + j)). }
  assert (concat runs ≡ₚ payload <$> concat gs) as Hruns.
  { rewrite <- concat_fmap. apply concat_perm. unfold runs.
    apply Forall2_fmap. apply Forall_Forall2_diag, Forall_forall.
    intros g Hg. destruct (Hlines g Hg) as (_ & _ & <-).
    unfold segment_lines. apply sort_perm. }
  destruct (mergeSegments_runs this fuel segments outFilename st2 runs)
    as (fl & lines & Hmerge & Hfile & Hperm & Hsorted & Hframe); try done.
  { unfold writable, st2. cbn [files dirs]. rewrite Hdir, Hout1.
    rewrite bool_decide_eq_true_2 by done.
    by rewrite bool_decide_eq_true_2 by eauto. }
  { unfold segments, runs, st2. cbn [files].
    apply Forall2_fmap_l, Forall2_fmap_r.
    apply Forall2_same_length_lookup_2; [by rewrite length_seq|].
    intros i j g Hj Hg. apply lookup_seq in Hj as [-> _]. simpl.
    by apply (Hsegs i g). }
  { unfold runs. apply Forall_fmap, Forall_forall. intros g Hg.
    destruct (Hlines g Hg) as (Hgood & Hbel & _).
    unfold segment_lines. cbn. split.
    - intros Hnil. apply (f_equal length) in Hnil.
      rewrite length_sort, length_fmap in Hnil.
      rewrite (proj1 (Forall_forall _ _) Hgs g Hg) in Hnil. simpl in Hnil. lia.
    - split_and!; cbn [fst snd app].
      + by rewrite sort_perm.
      + by rewrite sort_perm.
      + apply sort_sorted. }
  { rewrite Hruns, length_fmap. lia. }
  exists fl, lines. split_and!.
  - unfold Sort. rewrite (bind_Ok _ _ _ _ _ Hval), (bind_Ok _ _ _ _ _ Hsort).
    exact Hmerge.
  - done.
  - by rewrite Hperm.
  - done.
  - intros p Hp Htemp. rewrite (Hframe p Hp), decide_False.
    + unfold st2. cbn [files]. apply Hframe1. intros j _. apply Htemp.
    + unfold segments. intros (i & Heq & _)%list_elem_of_fmap.
      by apply (Htemp i).
  - intros i Hi. rewrite Hframe by apply Halias.
    rewrite decide_True; [done|]. unfold segments.
    apply list_elem_of_fmap. exists i. split; [done|].
    apply elem_of_seq. rewrite Hcount, Nat.div_mul in Hi by done. lia.
Qed.

(** For these input files, [Sort] succeeds and the record payloads of the
    output file are those of the input file, rearranged. *)
Theorem Sort_permutation :
  ∃ fl output,
    Sort toString_utf8 this fuel inFilename outFilename st
    = (Fs fl (dirs st) (handles st), Ok ())
    ∧ fl !! outFilename = Some output
    ∧ payloads (lineSizeBytes this) output
      ≡ₚ payloads (lineSizeBytes this) (concat ws).
Proof.
  destruct Sort_whole_records as (fl & lines & HSort & Hfile & Hperm & _);
    try done.
  exists fl, (run_bytes lines). split_and!; [done..|].
  rewrite payloads_concat by done. rewrite payloads_run_bytes; [done..|].
  rewrite Hperm. apply Forall_fmap.
  eapply Forall_impl; [exact Hvalid|]. intros w. apply good_line_payload.
Qed.

(** X15: for the same input files, [Sort] succeeds and the records of
    the output file are in ascending byte order; the temporary files are
    gone. *)
Theorem Sort_sorted :
  ∃ fl output,
    Sort toString_utf8 this fuel inFilename outFilename st
    = (Fs fl (dirs st) (handles st), Ok ())
    ∧ fl !! outFilename = Some output
    ∧ sorted_records (chunks (lineSizeBytes this) output)
    ∧ (∀ i, i < length ws / numberOfLinesPerSegment this →
         fl !! tempFilePath (slice_0_minus4 inFilename) i = None).
Proof.
  destruct Sort_whole_records
    as (fl & lines & HSort & Hfile & Hperm & Hsorted & _ & Htemp); try done.
  exists fl, (run_bytes lines). split_and!; [done..| |done].
  apply sorted_records_run_bytes; [done| |done].
  rewrite Hperm. apply Forall_fmap.
  eapply Forall_impl; [exact Hvalid|]. intros w. apply good_line_payload.
Qed.

(** X16: for the same input files, the output file is exactly the
    payloads of the input records in ascending order, each followed by CR
    LF, whatever white space the input records had around their payload and
    whatever the segment size is; it has the size of the input file. *)
Theorem Sort_output :
  ∃ fl,
    Sort toString_utf8 this fuel inFilename outFilename st
    = (Fs fl (dirs st) (handles st), Ok ())
    ∧ fl !! outFilename = Some (run_bytes (sort (payload <$> ws)))
    ∧ length (run_bytes (sort (payload <$> ws))) = length (concat ws).
Proof.
  destruct Sort_whole_records
    as (fl & lines & HSort & Hfile & Hperm & Hsorted & _); try done.
  exists fl. rewrite <- (sorted_perm_sort lines (payload <$> ws)) by done.
  split_and!; [done..|].
  rewrite (length_run_bytes (lineSizeBytes this)).
  - rewrite Hperm, length_fmap. symmetry. apply length_concat_windows.
    eapply Forall_impl; [exact Hvalid|]. by intros w [? _].
  - rewrite Hperm. apply Forall_fmap.
    eapply Forall_impl; [exact Hvalid|]. intros w. apply good_line_payload.
Qed.

End WholeRecords.

Lemma Sort_permutation_witness :
  let ws := [record "charl"; record "alice"; record "brian"; record "danie"] in
  let st := Fs {[ "in.txt" := concat ws; "out.txt" := [] ]} ∅ [] in
  ∃ fl output,
    Sort toString_utf8_7bit (sorter 2 7) 100 "in.txt" "out.txt" st
    = (Fs fl (dirs st) (handles st), Ok ())
    ∧ fl !! "out.txt" = Some output
    ∧ payloads 7 output ≡ₚ payloads 7 (concat ws).
Proof.
  intros ws st.
  apply (Sort_permutation toString_utf8_7bit (sorter 2 7) 100 "in.txt"
           "out.txt" st ws []).
  - apply toString_utf8_7bit_ok.
  - vm_compute. lia.
  - discriminate.
  - reflexivity.
  - vm_compute. lia.
  - repeat constructor.
  - repeat (constructor; [repeat (constructor; [reflexivity|])|]);
      constructor.
  - repeat (constructor; [discriminate|]). constructor.
  - reflexivity.
  - reflexivity.
  - reflexivity.
  - intros i. unfold writable, parent_exists.
    rewrite dirname_tempFilePath. reflexivity.
  - intros i. discriminate.
  - vm_compute. lia.
Defined.

(** C2: an input file with one record that begins with the character 127
    and goes on passes validation, and its record count is a multiple of
    the segment size 1; [findMinLine] never selects the record (it returns
    the sentinel and the index [-1]), the merge writes the sentinel as a
    record and throws a [TypeError], and the payloads of the output file are
    not those of the input file: the record is lost. *)
Lemma Sort_sentinel_record_lost :
  let input := ["127"%byte; "a"%byte] ++ Buffer_from_ascii EOL in
  let output := ["127"%byte; " "%byte] ++ Buffer_from_ascii EOL in
  let st := Fs {[ "in.txt" := input; "out.txt" := [] ]} ∅ [] in
  validateInput (sorter 1 4) 100 "in.txt" "out.txt" st = (st, Ok ())
  ∧ length (chunks 4 input) mod 1 = 0
  ∧ Sort toString_utf8_7bit (sorter 1 4) 100 "in.txt" "out.txt" st
    = (Fs (<["out.txt" := output]> (files st)) ∅ [], Throw TypeError)
  ∧ payloads 4 input = [[127%N; 97%N]]
  ∧ payloads 4 output = [[127%N]]
  ∧ ¬ payloads 4 output ≡ₚ payloads 4 input.
Proof.
  split_and!; try (vm_compute; reflexivity).
  change (payloads 4 (["127"%byte; " "%byte] ++ Buffer_from_ascii EOL))
    with [[127%N]].
  change (payloads 4 (["127"%byte; "a"%byte] ++ Buffer_from_ascii EOL))
    with [[127%N; 97%N]].
  intros Hperm. apply Permutation_length_1 in Hperm. discriminate.
Qed.

(** Two inputs outside the conditions of the section.  With a record width
    of 2 every payload is the empty string, the marker of an exhausted run:
    the merge loop never runs and the records are lost.  With the first
    temporary path of the input as output path, the merge reads the records
    it writes: with fuel 30 and with fuel 31 it is still running, and the
    file is one record longer with one more iteration. *)
Example Sort_empty_payloads_lost :
  let input := Buffer_from_ascii EOL ++ Buffer_from_ascii EOL in
  let st := Fs {[ "in.txt" := input; "out.txt" := record "zzzzz" ]} ∅ [] in
  Sort toString_utf8_7bit (sorter 1 2) 100 "in.txt" "out.txt" st
  = (Fs (<["out.txt" := []]> (files st)) ∅ [], Ok ())
  ∧ payloads 2 input = [[]; []]
  ∧ payloads 2 [] = [].
Proof. split_and!; vm_compute; reflexivity. Qed.

Example Sort_output_alias_still_running :
  let st := Fs {[ "in.txt" := record "brian" ++ record "alice";
                  "in-temp-0.txt" := [] ]} ∅ [] in
  let run fuel := Sort toString_utf8_7bit (sorter 1 7) fuel "in.txt"
                    "in-temp-0.txt" st in
  (run 30).2 = OutOfFuel ∧ (run 31).2 = OutOfFuel
  ∧ length <$> files (run 30).1 !! "in-temp-0.txt" = Some 212
  ∧ length <$> files (run 31).1 !! "in-temp-0.txt" = Some 219.
Proof. split_and!; vm_compute; reflexivity. Qed.

(** ** Further properties of [findMinLine] *)

(** X11: whatever the buffered lines are, [findMinLine] never selects
    an exhausted run: the line it returns is not the empty string, it is at
    most the sentinel and at most every non-exhausted buffered line, and the
    index it returns is either [-1], with the sentinel as line and no buffer
    holding the sentinel, or the first index that holds the returned
    line. *)
Theorem findMinLine_never_exhausted (lines : list jsstring) :
  (findMinLine lines).1 ≠ []
  ∧ js_le (findMinLine lines).1 MAX_ASCII_CHAR = true
  ∧ (∀ l, l ∈ lines → l ≠ [] → js_le (findMinLine lines).1 l = true)
  ∧ ((findMinLine lines).2 = (-1)%Z
     ∧ (findMinLine lines).1 = MAX_ASCII_CHAR
     ∧ MAX_ASCII_CHAR ∉ lines
     ∨ ∃ i, (findMinLine lines).2 = Z.of_nat i
            ∧ lines !! i = Some (findMinLine lines).1
            ∧ ∀ j, j < i → lines !! j ≠ Some (findMinLine lines).1).
Proof.
  destruct (findMinLine_fold lines MAX_ASCII_CHAR) as [Hr Hle].
  unfold findMinLine. cbn [fst snd].
  set (r := fold_left _ lines MAX_ASCII_CHAR) in *.
  split_and!.
  - destruct Hr as [->|(_ & Hne & _)]; done.
  - destruct Hr as [->|(_ & _ & Hlt)]; [apply js_le_refl|by apply js_lt_le].
  - done.
  - destruct (decide (r ∈ lines)) as [Hin|Hnotin].
    + right. by apply indexOf_elem.
    + left. destruct Hr as [Hr|(Hin & _)]; [|done].
      rewrite Hr in *. split_and!; [by apply indexOf_not_elem|done..].
Qed.


(** ** The temporary files of different inputs *)

Lemma string_app_cancel_r (s t u : string) : s +:+ u = t +:+ u → s = t.
Proof.
  revert t. induction s as [|c s IH]; intros [|d t] H; simpl in *.
  - done.
  - apply (f_equal String.length) in H.
    rewrite !string_length_app in H. simpl in H. lia.
  - apply (f_equal String.length) in H.
    rewrite !string_length_app in H. simpl in H. lia.
  - injection H as -> H. f_equal. eauto.
Qed.

Lemma string_app_assoc (a b c : string) : (a +:+ b) +:+ c = a +:+ (b +:+ c).
Proof.
  induction a as [|x a IH]; [done|].
  change (String x ((a +:+ b) +:+ c) = String x (a +:+ (b +:+ c))).
  by rewrite IH.
Qed.

Lemma before_last_dash_app (s t : string) :
  before_last_dash t = None →
  before_last_dash (s +:+ String "-" t) = Some s.
Proof.
  intros Ht. induction s as [|c s IH]; simpl; [by rewrite Ht|].
  by rewrite IH.
Qed.

Lemma before_last_dash_no_dash (s t : string) :
  before_last_dash t = None →
  before_last_dash (s +:+ t) = before_last_dash s.
Proof.
  intros Ht. induction s as [|c s IH]; simpl; [done|]. by rewrite IH.
Qed.

Lemma before_last_dash_pretty_N_go (x : N) (s : string) :
  before_last_dash s = None → before_last_dash (pretty_N_go x s) = None.
Proof.
  revert s. induction (N.lt_wf_0 x) as [x _ IH]; intros s Hs.
  assert (x = 0 ∨ 0 < x)%N as [->|?] by lia; [by rewrite pretty_N_go_0|].
  rewrite pretty_N_go_step by done. apply IH; [by apply N.div_lt|].
  simpl. rewrite Hs. unfold pretty_N_char. by repeat case_match.
Qed.

Lemma before_last_dash_pretty (i : nat) : before_last_dash (pretty i) = None.
Proof.
  unfold pretty, pretty_nat, pretty, pretty_N.
  case_decide; [done|]. by apply before_last_dash_pretty_N_go.
Qed.

Lemma before_last_dash_tempFilePath (fileNameNoEnd : string) (i : nat) :
  before_last_dash (tempFilePath fileNameNoEnd i)
  = Some (fileNameNoEnd +:+ "-temp").
Proof.
  unfold tempFilePath, TEMP_FILE_PREFIX.
  change ("-temp-" +:+ pretty i +:+ TEMP_FILE_EXTENSION)
    with ("-temp" +:+ String "-" (pretty i +:+ TEMP_FILE_EXTENSION)).
  rewrite <- (string_app_assoc fileNameNoEnd "-temp"
                (String "-" (pretty i +:+ TEMP_FILE_EXTENSION))).
  apply before_last_dash_app.
  rewrite before_last_dash_no_dash; [apply before_last_dash_pretty|done].
Qed.

Lemma slice_0_minus4_ext (stem ext : string) :
  String.length ext = 4 → slice_0_minus4 (stem +:+ ext) = stem.
Proof.
  intros Hext. unfold slice_0_minus4. rewrite string_length_app, Hext.
  replace (String.length stem + 4 - 4) with (String.length stem) by lia.
  apply substring_0_app.
Qed.

(** X8: the path of a temporary file determines the stem and the
    segment number it was made from: two inputs with different stems (the
    path without its last four characters) never share a temporary file,
    nor do two segments of one input, and no temporary file has the path of
    its input.  Two inputs that differ only in their last four characters
    (as [a.txt] and [a.csv]) use the same temporary files. *)
Theorem tempFilePath_collision :
  (∀ (a b : string) (i j : nat),
     tempFilePath a i = tempFilePath b j ↔ a = b ∧ i = j)
  ∧ (∀ (inFilename : string) (i : nat),
       tempFilePath (slice_0_minus4 inFilename) i ≠ inFilename)
  ∧ (∀ (stem ext ext' : string) (i : nat),
       String.length ext = 4 → String.length ext' = 4 →
       tempFilePath (slice_0_minus4 (stem +:+ ext)) i
       = tempFilePath (slice_0_minus4 (stem +:+ ext')) i).
Proof.
  split_and!.
  - intros a b i j. split; [|by intros [-> ->]].
    intros Heq.
    assert (a = b) as ->.
    { apply (f_equal before_last_dash) in Heq.
      rewrite !before_last_dash_tempFilePath in Heq.
      injection Heq as Heq. by apply string_app_cancel_r in Heq. }
    split; [done|]. by apply tempFilePath_inj in Heq.
  - apply tempFilePath_ne_input.
  - intros stem ext ext' i Hext Hext'. by rewrite !slice_0_minus4_ext.
Qed.


(** ** What the methods touch on storage *)

Lemma touches_only_refl (P : string → Prop) (st : fs) : touches_only P st st.
Proof. done. Qed.

Lemma touches_only_trans (P : string → Prop) (st1 st2 st3 : fs) :
  touches_only P st1 st2 → touches_only P st2 st3 → touches_only P st1 st3.
Proof.
  intros [Hd1 Hf1] [Hd2 Hf2]. split; [congruence|].
  intros p Hp. by rewrite Hf2, Hf1.
Qed.

Lemma touches_only_mono (P Q : string → Prop) (st st' : fs) :
  (∀ p, P p → Q p) → touches_only P st st' → touches_only Q st st'.
Proof. intros HPQ [Hd Hf]. split; [done|]. intros p Hp. apply Hf. auto. Qed.

Lemma touching_mono {A} (P Q : string → Prop) (m : M A) :
  (∀ p, P p → Q p) → touching P m → touching Q m.
Proof. intros HPQ Hm st. eapply touches_only_mono; [exact HPQ|apply Hm]. Qed.

Lemma touching_bind_Ok {A B} (P : string → Prop) (m : M A) (k : A → M B)
    (st : fs) :
  touches_only P st (m st).1 →
  (∀ a st', m st = (st', Ok a) → touches_only P st' (k a st').1) →
  touches_only P st ((m ≫= k) st).1.
Proof.
  intros Hm Hk. unfold_M. destruct (m st) as [st1 [a| |]]; [|done..].
  eapply touches_only_trans; [exact Hm|]. by apply Hk.
Qed.

Lemma touching_bind {A B} (P : string → Prop) (m : M A) (k : A → M B) :
  touching P m → (∀ a, touching P (k a)) → touching P (m ≫= k).
Proof.
  intros Hm Hk st. apply touching_bind_Ok; [apply Hm|]. intros a st' _.
  apply Hk.
Qed.

Lemma touching_try_catch {A} (P : string → Prop) (m h : M A) :
  touching P m → touching P h → touching P (try_catch m h).
Proof.
  intros Hm Hh st. specialize (Hm st). unfold try_catch.
  destruct (m st) as [st1 [a|e|]]; [done| |done].
  eapply touches_only_trans; [exact Hm|apply Hh].
Qed.

Lemma touching_try_finally {A} (P : string → Prop) (m : M A) (fin : M unit) :
  touching P m → touching P fin → touching P (try_finally m fin).
Proof.
  intros Hm Hf st. specialize (Hm st). unfold try_finally.
  destruct (m st) as [st1 [a|e|]]; [| |done].
  - specialize (Hf st1). destruct (fin st1) as [st2 [[]|e|]];
      eapply touches_only_trans; eauto.
  - specialize (Hf st1). destruct (fin st1) as [st2 [[]|e'|]];
      eapply touches_only_trans; eauto.
Qed.

Lemma touching_Promise_all {A} (P : string → Prop) (ps : list (M A)) :
  Forall (touching P) ps → touching P (Promise_all ps).
Proof.
  induction 1 as [|p ps Hp _ IH]; intros st; [done|].
  cbn [Promise_all]. specialize (Hp st). destruct (p st) as [st1 r].
  specialize (IH st1). destruct (Promise_all ps st1) as [st2 rs].
  eapply touches_only_trans; eauto.
Qed.

Lemma touching_ret {A} (P : string → Prop) (a : A) : touching P (mret a).
Proof. by intros st. Qed.

Lemma touching_throw {A} (P : string → Prop) (e : error) :
  touching P (@throw A e).
Proof. by intros st. Qed.

Lemma touching_out_of_fuel {A} (P : string → Prop) :
  touching P (@out_of_fuel A).
Proof. by intros st. Qed.

Lemma touching_access (P : string → Prop) (p : string) :
  touching P (fsp_access p).
Proof. intros st. unfold fsp_access. by destruct (_ || _). Qed.

Lemma touching_stat (P : string → Prop) (p : string) :
  touching P (fsp_stat_size p).
Proof.
  intros st. unfold fsp_stat_size.
  by destruct (files st !! p), (dirs st !! p).
Qed.

Lemma touching_open_r (P : string → Prop) (p : string) :
  touching P (fsp_open_r p).
Proof. intros st. unfold fsp_open_r. by destruct (_ || _). Qed.

Lemma touching_read (P : string → Prop) (h : string) (buf : buffer)
    (len pos : nat) :
  touching P (fh_read h buf len pos).
Proof. intros st. by rewrite fh_read_state. Qed.

Lemma touching_close (P : string → Prop) (h : string) :
  touching P (fh_close h).
Proof. by intros st. Qed.

Lemma touching_open_w (P : string → Prop) (p : string) :
  P p → touching P (fsp_open_w p).
Proof.
  intros Hp st. unfold fsp_open_w. destruct (writable st p); [|done].
  split; [done|]. intros q Hq. cbn [fst files].
  rewrite lookup_insert_ne; [done|]. by intros ->.
Qed.

Lemma touching_writeFile (P : string → Prop) (p : string) (data : buffer) :
  P p → touching P (fsp_writeFile p data).
Proof.
  intros Hp st. unfold fsp_writeFile. destruct (writable st p); [|done].
  split; [done|]. intros q Hq. cbn [fst files].
  rewrite lookup_insert_ne; [done|]. by intros ->.
Qed.

Lemma touching_unlink (P : string → Prop) (p : string) :
  P p → touching P (fsp_unlink p).
Proof.
  intros Hp st. unfold fsp_unlink. destruct (files st !! p); [|done].
  split; [done|]. intros q Hq. cbn [fst files].
  rewrite lookup_delete_ne; [done|]. by intros ->.
Qed.

Lemma touching_write (P : string → Prop) (h : string) (data : buffer) :
  P h → touching P (fh_write h data).
Proof.
  intros Hp st. unfold fh_write. destruct (files st !! h); [|done].
  split; [done|]. intros q Hq. cbn [fst files].
  rewrite lookup_insert_ne; [done|]. by intros ->.
Qed.

Lemma touching_state {A} (P : string → Prop) (m : M A) :
  (∀ st, (m st).1 = st) → touching P m.
Proof. intros Hm st. by rewrite Hm. Qed.

Lemma touching_validateInput (P : string → Prop) (this : SortFile)
    (fuel : nat) (inFilename outFilename : string) :
  touching P (validateInput this fuel inFilename outFilename).
Proof.
  unfold validateInput, checkFileExists, checkFileSizeLimit,
    validateFileContents, checkOutputDirectory.
  apply touching_bind; [|intros _].
  { apply touching_try_catch; [apply touching_access|apply touching_throw]. }
  apply touching_bind; [|intros _].
  { apply touching_bind; [apply touching_stat|]. intros size.
    destruct (_ <? _); [apply touching_throw|apply touching_ret]. }
  apply touching_bind; [|intros _].
  { apply touching_bind; [apply touching_open_r|]. intros h.
    apply touching_try_finally; [|apply touching_close].
    apply touching_state, checkLineLengthAndCount_state. }
  apply touching_try_catch; [apply touching_access|apply touching_throw].
Qed.

Section Touching.

Variable toString_utf8 : buffer → jsstring.
Variable this : SortFile.

Lemma touching_readSegment (P : string → Prop) (h : string) (start : nat) :
  touching P (readSegment toString_utf8 this h start).
Proof. intros st. unfold readSegment. by rewrite readSegmentLoop_state. Qed.

Lemma touching_sortSegmentsLoop (h noEnd : string) (fuel : nat) :
  ∀ (segments : list string) (counter bytesRead : nat),
    touching (λ p, ∃ i, p = tempFilePath noEnd i)
      (sortSegmentsLoop toString_utf8 this fuel h noEnd segments counter
         bytesRead).
Proof.
  induction fuel as [|fuel IH]; intros segments counter bytesRead.
  { apply touching_out_of_fuel. }
  cbn [sortSegmentsLoop]. apply touching_bind; [apply touching_readSegment|].
  intros lines. destruct (_ =? 0); [apply touching_ret|].
  apply touching_bind; [|intros path; apply IH].
  unfold writeSortedSegment.
  apply touching_bind; [|intros; apply touching_ret].
  apply touching_writeFile. eauto.
Qed.

Lemma touching_sortSegments (fuel : nat) (inFilename : string) :
  touching (λ p, ∃ i, p = tempFilePath (slice_0_minus4 inFilename) i)
    (sortSegments toString_utf8 this fuel inFilename).
Proof.
  unfold sortSegments. apply touching_bind; [apply touching_open_r|].
  intros h. apply touching_try_finally; [|apply touching_close].
  apply touching_sortSegmentsLoop.
Qed.

Lemma touching_readNextLine (P : string → Prop) (fileHandle : option string)
    (index : Z) (lines : list jsstring) (positions : list nat) :
  touching P (readNextLine this fileHandle index lines positions).
Proof.
  unfold readNextLine. destruct fileHandle; [|apply touching_throw].
  apply touching_bind; [apply touching_read|]. intros [n rb].
  destruct (_ =? 0); apply touching_ret.
Qed.

Lemma touching_mergeLoop (fileHandles : list string) (outFile : string)
    (fuel : nat) :
  ∀ (lines : list jsstring) (positions : list nat),
    touching (λ p, p = outFile)
      (mergeLoop this fuel fileHandles outFile lines positions).
Proof.
  induction fuel as [|fuel IH]; intros lines positions.
  { cbn [mergeLoop]. destruct (existsb _ _);
      [apply touching_out_of_fuel|apply touching_ret]. }
  cbn [mergeLoop]. destruct (existsb _ _); [|apply touching_ret].
  destruct (findMinLine lines) as [minLine minIndex].
  apply touching_bind; [by apply touching_write|]. intros _.
  apply touching_bind; [apply touching_readNextLine|].
  intros [lines' positions']. apply IH.
Qed.

Lemma touching_performMerge (fuel : nat) (fileHandles : list string)
    (outFile : string) :
  touching (λ p, p = outFile) (performMerge this fuel fileHandles outFile).
Proof.
  unfold performMerge, readInitialLines.
  apply touching_bind; [|intros lines; apply touching_mergeLoop].
  apply touching_bind; [|intros; apply touching_ret].
  apply touching_Promise_all, Forall_forall. intros m Hm.
  apply list_elem_of_In, in_map_iff in Hm as (h & <- & _).
  apply touching_read.
Qed.

Lemma touching_cleanupFiles (fileHandles : list string) (outFile : string)
    (segments : list string) :
  touching (λ p, p ∈ segments) (cleanupFiles fileHandles outFile segments).
Proof.
  unfold cleanupFiles.
  apply touching_bind; [|intros _].
  { apply touching_Promise_all, Forall_forall. intros m Hm.
    apply list_elem_of_In, in_map_iff in Hm as (h & <- & _).
    apply touching_close. }
  apply touching_bind; [apply touching_close|intros _].
  apply touching_bind; [|intros; apply touching_ret].
  apply touching_Promise_all, Forall_forall. intros m Hm.
  apply list_elem_of_In, in_map_iff in Hm as (h & <- & Hh).
  apply touching_unlink. by apply list_elem_of_In.
Qed.

Lemma touching_mergeSegments (fuel : nat) (segments : list string)
    (outFilename : string) :
  touching (λ p, p = outFilename ∨ p ∈ segments)
    (mergeSegments this fuel segments outFilename).
Proof.
  unfold mergeSegments.
  apply touching_bind; [|intros fileHandles].
  { apply touching_Promise_all, Forall_forall. intros m Hm.
    apply list_elem_of_In, in_map_iff in Hm as (h & <- & _).
    apply touching_open_r. }
  intros st. apply touching_bind_Ok; [by apply touching_open_w; left|].
  intros outFile st' Hopen.
  assert (outFile = outFilename) as ->.
  { unfold fsp_open_w in Hopen.
    destruct (writable st outFilename); congruence. }
  apply touching_try_finally.
  - eapply touching_mono; [|apply touching_performMerge]. tauto.
  - eapply touching_mono; [|apply touching_cleanupFiles]. tauto.
Qed.

End Touching.

(** ** The handles and the files after [sortSegments] and [Sort] *)

Lemma sortSegmentsLoop_handles (toString_utf8 : buffer → jsstring)
    (this : SortFile) (h noEnd : string) (fuel : nat) :
  ∀ (segments : list string) (counter bytesRead : nat) (st : fs),
    handles (sortSegmentsLoop toString_utf8 this fuel h noEnd segments
               counter bytesRead st).1 = handles st.
Proof.
  induction fuel as [|fuel IH]; intros segments counter bytesRead st; [done|].
  cbn [sortSegmentsLoop]. unfold_M. unfold readSegment.
  pose proof (readSegmentLoop_state toString_utf8 this
                (numberOfLinesPerSegment this) h bytesRead 0
                (Buffer_alloc (lineSizeBytes this)) [] st) as Hst.
  destruct (readSegmentLoop _ _ _ _ _ _ _ _ _) as [st1 [lines|e|]];
    simpl in Hst; subst st1; [|done..].
  destruct (length lines =? 0); [done|].
  unfold writeSortedSegment, fsp_writeFile. unfold_M.
  destruct (writable st _); [|done]. by rewrite IH.
Qed.

Lemma sortSegments_frame (toString_utf8 : buffer → jsstring)
    (this : SortFile) (fuel : nat) (inFilename : string) (st st' : fs)
    (r : outcome (list string)) :
  sortSegments toString_utf8 this fuel inFilename st = (st', r) →
  r ≠ OutOfFuel →
  handles st' = handles st
  ∧ touches_only (λ p, ∃ i, p = tempFilePath (slice_0_minus4 inFilename) i)
      st st'.
Proof.
  intros Hrun Hr. split.
  - revert Hrun. unfold sortSegments. unfold_M. unfold fsp_open_r.
    destruct (_ || _); [|by intros [= <- _]].
    match goal with
    | |- context [sortSegmentsLoop ?t ?th ?f ?h ?n ?s ?c ?b ?s0] =>
        pose proof (sortSegmentsLoop_handles t th h n f s c b s0) as Hh;
        destruct (sortSegmentsLoop t th f h n s c b s0) as [st1 r1]
    end.
    cbn [fst handles] in Hh. unfold fh_close.
    destruct r1 as [segs|e|]; intros [= <- <-]; cbn [handles];
      try rewrite Hh; try rewrite remove_first_head; done.
  - pose proof (touching_sortSegments toString_utf8 this fuel inFilename st)
      as Ht. by rewrite Hrun in Ht.
Qed.

Lemma sortSegments_Ok (toString_utf8 : buffer → jsstring)
    (this : SortFile) (fuel : nat) (inFilename : string) (st st' : fs)
    (segments : list string) :
  sortSegments toString_utf8 this fuel inFilename st = (st', Ok segments) →
  segments
  = tempFilePath (slice_0_minus4 inFilename) <$> seq 0 (length segments)
  ∧ ∀ p, p ∈ segments → is_Some (files st' !! p).
Proof.
  unfold sortSegments. unfold_M. unfold fsp_open_r.
  destruct (_ || _); [|done].
  destruct (sortSegmentsLoop _ _ _ _ _ _ _ _ _) as [st1 r] eqn:Hloop.
  destruct r as [segs|e|]; [|done..]. unfold fh_close.
  intros [= <- <-].
  eapply sortSegmentsLoop_paths in Hloop as [Hsegs Hfiles]; [done..|].
  intros q Hq. by apply elem_of_nil in Hq.
Qed.

(** X10: however [sortSegments] ends, by returning or by throwing, it
    leaves no handle open and touches nothing but its own temporary files:
    the open handles and the directories are as before, the input file is
    unchanged, and so is every file whose path is not
    [<input without its last four characters>-temp-<i>.txt]. *)
Theorem sortSegments_footprint (toString_utf8 : buffer → jsstring)
    (this : SortFile) (fuel : nat) (inFilename : string) (st st' : fs)
    (r : outcome (list string)) :
  sortSegments toString_utf8 this fuel inFilename st = (st', r) →
  r ≠ OutOfFuel →
  handles st' = handles st
  ∧ dirs st' = dirs st
  ∧ files st' !! inFilename = files st !! inFilename
  ∧ ∀ p, (∀ i, p ≠ tempFilePath (slice_0_minus4 inFilename) i) →
      files st' !! p = files st !! p.
Proof.
  intros Hrun Hr.
  destruct (sortSegments_frame _ _ _ _ _ _ _ Hrun Hr) as (Hh & Hd & Hf).
  split_and!; [done..| |].
  - apply Hf. intros [i Hi]. symmetry in Hi.
    by apply tempFilePath_ne_input in Hi.
  - intros p Hp. apply Hf. intros [i Hi]. by apply (Hp i).
Qed.

(** X19: however [Sort] ends, the only files it can have created,
    changed or deleted are the output path and the temporary paths of the
    input; no directory is changed, and the input file is untouched as long
    as it is not also the output path. *)
Theorem Sort_footprint (toString_utf8 : buffer → jsstring) (this : SortFile)
    (fuel : nat) (inFilename outFilename : string) (st : fs) :
  dirs (Sort toString_utf8 this fuel inFilename outFilename st).1 = dirs st
  ∧ (∀ p, p ≠ outFilename →
       (∀ i, p ≠ tempFilePath (slice_0_minus4 inFilename) i) →
       files (Sort toString_utf8 this fuel inFilename outFilename st).1 !! p
       = files st !! p)
  ∧ (outFilename ≠ inFilename →
     files (Sort toString_utf8 this fuel inFilename outFilename st).1
       !! inFilename
     = files st !! inFilename).
Proof.
  set (P := λ p, p = outFilename
                 ∨ ∃ i, p = tempFilePath (slice_0_minus4 inFilename) i).
  assert (touches_only P st
            (Sort toString_utf8 this fuel inFilename outFilename st).1)
    as [Hd Hf].
  { unfold Sort. apply touching_bind_Ok; [apply touching_validateInput|].
    intros _ st1 _. apply touching_bind_Ok.
    { eapply touching_mono; [|apply touching_sortSegments].
      intros p Hp. by right. }
    intros segments st2 Hsort.
    apply sortSegments_Ok in Hsort as [Hsegs _].
    eapply touching_mono; [|apply touching_mergeSegments].
    intros p [->|Hp]; [by left|]. right. rewrite Hsegs in Hp.
    apply list_elem_of_fmap in Hp as (i & -> & _). eauto. }
  split_and!; [done| |].
  - intros p Hp Htemp. apply Hf. intros [->|[i ->]]; [done|].
    by apply (Htemp i).
  - intros Hne. apply Hf. intros [Heq|[i Hi]]; [done|]. symmetry in Hi.
    by apply tempFilePath_ne_input in Hi.
Qed.

Lemma sortSegmentsLoop_created (toString_utf8 : buffer → jsstring)
    (this : SortFile) (h noEnd : string) (fuel : nat) :
  ∀ (segments : list string) (bytesRead : nat) (st st' : fs)
    (segments' : list string),
    sortSegmentsLoop toString_utf8 this fuel h noEnd segments
      (length segments) bytesRead st = (st', Ok segments') →
    length segments ≤ length segments'
    ∧ ∀ p, (∀ i, length segments ≤ i < length segments' →
              p ≠ tempFilePath noEnd i) →
        files st' !! p = files st !! p.
Proof.
  induction fuel as [|fuel IH]; intros segments bytesRead st st' segments';
    [done|].
  cbn [sortSegmentsLoop]. unfold_M. unfold readSegment.
  pose proof (readSegmentLoop_state toString_utf8 this
                (numberOfLinesPerSegment this) h bytesRead 0
                (Buffer_alloc (lineSizeBytes this)) [] st) as Hst.
  destruct (readSegmentLoop _ _ _ _ _ _ _ _ _) as [st1 [lines|e|]];
    simpl in Hst; subst st1; [|done..].
  destruct (length lines =? 0); [by intros [= <- <-]|].
  unfold writeSortedSegment, fsp_writeFile. unfold_M.
  destruct (writable st _); [|done].
  intros Hloop.
  replace (length segments + 1)
    with (length (segments ++ [tempFilePath noEnd (length segments)]))
    in Hloop by (rewrite length_app; simpl; lia).
  apply IH in Hloop as [Hlen Hframe]. rewrite length_app in Hlen, Hframe.
  simpl in Hlen, Hframe. split; [lia|].
  intros p Hp. rewrite Hframe by (intros i Hi; apply Hp; lia).
  cbn [files]. rewrite lookup_insert_ne; [done|].
  intros Heq. symmetry in Heq. revert Heq. apply Hp. lia.
Qed.

Lemma sortSegments_created (toString_utf8 : buffer → jsstring)
    (this : SortFile) (fuel : nat) (inFilename : string) (st st' : fs)
    (segments : list string) :
  sortSegments toString_utf8 this fuel inFilename st = (st', Ok segments) →
  ∀ p, (∀ i, i < length segments →
          p ≠ tempFilePath (slice_0_minus4 inFilename) i) →
    files st' !! p = files st !! p.
Proof.
  unfold sortSegments. unfold_M. unfold fsp_open_r.
  destruct (_ || _); [|done].
  destruct (sortSegmentsLoop _ _ _ _ _ _ _ _ _) as [st1 r] eqn:Hloop.
  destruct r as [segs|e|]; [|done..]. unfold fh_close.
  intros [= <- <-] p Hp.
  apply (sortSegmentsLoop_created _ _ _ _ _ []) in Hloop as [_ Hframe].
  cbn [files]. rewrite Hframe; [done|]. intros i [_ Hi]. by apply Hp.
Qed.

Lemma mergeSegments_Ok_writable (this : SortFile) (fuel : nat)
    (segments : list string) (outFilename : string) (st st' : fs) :
  mergeSegments this fuel segments outFilename st = (st', Ok ()) →
  writable st outFilename = true.
Proof.
  unfold mergeSegments. unfold_M.
  assert (touching (λ _, False) (Promise_all (map fsp_open_r segments)))
    as Hopen.
  { apply touching_Promise_all, Forall_forall. intros m Hm.
    apply list_elem_of_In, in_map_iff in Hm as (h & <- & _).
    apply touching_open_r. }
  destruct (Hopen st) as [Hd Hf].
  destruct (Promise_all (map fsp_open_r segments) st) as [st1 [hs|e|]];
    [|done..].
  cbn [fst] in Hd, Hf. unfold fsp_open_w.
  assert (writable st1 outFilename = writable st outFilename) as ->.
  { unfold writable, parent_exists. by rewrite Hd, Hf by tauto. }
  by destruct (writable st outFilename).
Qed.

(** X20: when [Sort] returns, every handle it opened is closed, the
    directories are as before, and the temporary files it made (the first
    [m] temporary paths of the input) are gone; every file other than these
    and the output is unchanged. *)
Theorem Sort_success_cleanup (toString_utf8 : buffer → jsstring)
    (this : SortFile) (fuel : nat) (inFilename outFilename : string)
    (st st' : fs) :
  Sort toString_utf8 this fuel inFilename outFilename st = (st', Ok ()) →
  handles st' = handles st
  ∧ dirs st' = dirs st
  ∧ ∃ m,
      (∀ i, i < m →
         files st' !! tempFilePath (slice_0_minus4 inFilename) i = None)
      ∧ (∀ p, p ≠ outFilename →
           (∀ i, i < m → p ≠ tempFilePath (slice_0_minus4 inFilename) i) →
           files st' !! p = files st !! p).
Proof.
  unfold Sort. intros Hrun.
  destruct (validateInput this fuel inFilename outFilename st)
    as [st1 rv] eqn:Hval.
  destruct rv as [[]|e|]; [|by rewrite (bind_Throw _ _ _ _ _ Hval) in Hrun|].
  2:{ unfold_M. by rewrite Hval in Hrun. }
  rewrite (bind_Ok _ _ _ _ _ Hval) in Hrun.
  assert (st1 = st) as ->
    by (eapply preserves_validateInput; [exact Hval|done]).
  destruct (sortSegments toString_utf8 this fuel inFilename st)
    as [st2 rs] eqn:Hsort.
  destruct rs as [segments|e|];
    [|by rewrite (bind_Throw _ _ _ _ _ Hsort) in Hrun|].
  2:{ unfold_M. by rewrite Hsort in Hrun. }
  rewrite (bind_Ok _ _ _ _ _ Hsort) in Hrun.
  destruct (sortSegments_frame _ _ _ _ _ _ _ Hsort ltac:(done))
    as (Hh2 & Hd2 & _).
  pose proof (sortSegments_created _ _ _ _ _ _ _ Hsort) as Hf2.
  apply sortSegments_Ok in Hsort as [Hsegs Hexist].
  pose proof (mergeSegments_Ok_writable _ _ _ _ _ _ Hrun) as Hwr.
  destruct (mergeSegments_cleanup this fuel segments outFilename st2 st'
              (Ok ()))
    as (Hh & Hd & Hgone & Hframe); try done.
  { by apply Forall_forall. }
  split_and!; [congruence..|].
  exists (length segments). split.
  - intros i Hi. apply Hgone. rewrite Hsegs. apply list_elem_of_fmap.
    exists i. split; [done|]. apply elem_of_seq. lia.
  - intros p Hp Htemp.
    assert (p ∉ segments) as Hnotin.
    { rewrite Hsegs. intros (i & -> & Hi%elem_of_seq)%list_elem_of_fmap.
      apply (Htemp i); [lia|done]. }
    rewrite Hframe by done. by apply Hf2.
Qed.

Lemma sortSegments_footprint_witness :
  let st := Fs {[ "in.txt" := record "brian" ++ record "alice";
                  "other.txt" := record "zzzzz" ]} ∅ ["other.txt"] in
  let st' := (sortSegments toString_utf8_7bit (sorter 1 7) 100 "in.txt" st).1 in
  handles st' = handles st
  ∧ dirs st' = dirs st
  ∧ files st' !! "in.txt" = files st !! "in.txt"
  ∧ ∀ p, (∀ i, p ≠ tempFilePath (slice_0_minus4 "in.txt") i) →
      files st' !! p = files st !! p.
Proof.
  intros st st'.
  apply (sortSegments_footprint toString_utf8_7bit (sorter 1 7) 100 "in.txt"
           st st' (Ok ["in-temp-0.txt"; "in-temp-1.txt"])).
  - vm_compute. reflexivity.
  - discriminate.
Defined.

Lemma Sort_success_cleanup_witness :
  let st := Fs {[ "in.txt" := record "brian" ++ record "alice";
                  "out.txt" := [] ]} ∅ [] in
  let st' := (Sort toString_utf8_7bit (sorter 1 7) 100 "in.txt" "out.txt"
                st).1 in
  handles st' = handles st
  ∧ dirs st' = dirs st
  ∧ ∃ m,
      (∀ i, i < m →
         files st' !! tempFilePath (slice_0_minus4 "in.txt") i = None)
      ∧ (∀ p, p ≠ "out.txt" →
           (∀ i, i < m → p ≠ tempFilePath (slice_0_minus4 "in.txt") i) →
           files st' !! p = files st !! p).
Proof.
  intros st st'.
  apply (Sort_success_cleanup toString_utf8_7bit (sorter 1 7) 100 "in.txt"
           "out.txt" st st').
  vm_compute. reflexivity.
Defined.


(** ** The errors the methods throw *)

Lemma throws_only_mono {A} (P Q : error → Prop) (m : M A) :
  (∀ e, P e → Q e) → throws_only P m → throws_only Q m.
Proof. intros HPQ Hm st st' e He. eauto. Qed.

Lemma throws_only_bind {A B} (P : error → Prop) (m : M A) (k : A → M B) :
  throws_only P m → (∀ a, throws_only P (k a)) → throws_only P (m ≫= k).
Proof.
  intros Hm Hk st st' e. unfold_M.
  destruct (m st) as [st1 [a|e1|]] eqn:Hrun; [| |done].
  - apply Hk.
  - intros [= <- <-]. eauto.
Qed.

Lemma throws_only_ret {A} (P : error → Prop) (a : A) : throws_only P (mret a).
Proof. by intros st st' e. Qed.

Lemma throws_only_throw {A} (P : error → Prop) (e : error) :
  P e → throws_only P (@throw A e).
Proof. intros He st st' e' [= <- <-]. done. Qed.

Lemma throws_only_out_of_fuel {A} (P : error → Prop) :
  throws_only P (@out_of_fuel A).
Proof. by intros st st' e. Qed.

Lemma throws_only_try_catch {A} (P : error → Prop) (m h : M A) :
  throws_only P h → throws_only P (try_catch m h).
Proof.
  intros Hh st st' e. unfold try_catch.
  destruct (m st) as [st1 [a|e1|]]; [done| |done]. apply Hh.
Qed.

Lemma throws_only_try_finally {A} (P : error → Prop) (m : M A)
    (fin : M unit) :
  throws_only P m → throws_only P fin → throws_only P (try_finally m fin).
Proof.
  intros Hm Hf st st' e. unfold try_finally.
  destruct (m st) as [st1 [a|e1|]] eqn:Hrun; [| |done];
    destruct (fin st1) as [st2 [[]|e2|]] eqn:Hfin; try done;
    intros [= <- <-]; eauto.
Qed.

Lemma throws_only_Promise_all {A} (P : error → Prop) (ps : list (M A)) :
  Forall (throws_only P) ps → throws_only P (Promise_all ps).
Proof.
  induction 1 as [|p ps Hp _ IH]; intros st st' e; [done|].
  cbn [Promise_all]. destruct (p st) as [st1 r] eqn:Hrun.
  destruct (Promise_all ps st1) as [st2 rs] eqn:Hrest.
  destruct r as [a|e1|], rs as [l|e2|]; try done; intros [= <- <-]; eauto.
Qed.

Lemma throws_only_access (p : string) :
  throws_only (λ e, e = IOFailure) (fsp_access p).
Proof.
  intros st st' e. unfold fsp_access. destruct (_ || _); [done|].
  by intros [= <- <-].
Qed.

Lemma throws_only_stat (p : string) :
  throws_only (λ e, e = IOFailure) (fsp_stat_size p).
Proof.
  intros st st' e. unfold fsp_stat_size.
  destruct (files st !! p), (dirs st !! p); try done. by intros [= <- <-].
Qed.

Lemma throws_only_open_r (p : string) :
  throws_only (λ e, e = IOFailure) (fsp_open_r p).
Proof.
  intros st st' e. unfold fsp_open_r. destruct (_ || _); [done|].
  by intros [= <- <-].
Qed.

Lemma throws_only_open_w (p : string) :
  throws_only (λ e, e = IOFailure) (fsp_open_w p).
Proof.
  intros st st' e. unfold fsp_open_w. destruct (writable st p); [done|].
  by intros [= <- <-].
Qed.

Lemma throws_only_writeFile (p : string) (data : buffer) :
  throws_only (λ e, e = IOFailure) (fsp_writeFile p data).
Proof.
  intros st st' e. unfold fsp_writeFile. destruct (writable st p); [done|].
  by intros [= <- <-].
Qed.

Lemma throws_only_unlink (p : string) :
  throws_only (λ e, e = IOFailure) (fsp_unlink p).
Proof.
  intros st st' e. unfold fsp_unlink. destruct (files st !! p); [done|].
  by intros [= <- <-].
Qed.

Lemma throws_only_read (h : string) (buf : buffer) (len pos : nat) :
  throws_only (λ e, e = IOFailure) (fh_read h buf len pos).
Proof.
  intros st st' e. unfold fh_read. destruct (files st !! h); [done|].
  by intros [= <- <-].
Qed.

Lemma throws_only_write (h : string) (data : buffer) :
  throws_only (λ e, e = IOFailure) (fh_write h data).
Proof.
  intros st st' e. unfold fh_write. destruct (files st !! h); [done|].
  by intros [= <- <-].
Qed.

Lemma throws_only_close (P : error → Prop) (h : string) :
  throws_only P (fh_close h).
Proof. by intros st st' e. Qed.

Lemma throws_only_map {A} (P : error → Prop) (f : string → M A)
    (l : list string) :
  (∀ x, throws_only P (f x)) → Forall (throws_only P) (map f l).
Proof.
  intros Hf. apply Forall_forall. intros m Hm.
  apply list_elem_of_In, in_map_iff in Hm as (h & <- & _). apply Hf.
Qed.

Section Throws.

Variable toString_utf8 : buffer → jsstring.
Variable this : SortFile.

Lemma throws_only_checkLineLoop (fuel : nat) (h : string) :
  ∀ (bytesRead : nat) (buf : buffer) (count : nat),
    throws_only (λ e, e = MalformedRecordWidth ∨ e = IOFailure)
      (checkLineLoop this fuel h bytesRead buf count).
Proof.
  induction fuel as [|fuel IH]; intros bytesRead buf count.
  { apply throws_only_out_of_fuel. }
  cbn [checkLineLoop]. apply throws_only_bind.
  { eapply throws_only_mono; [|apply throws_only_read]. intros e ->. by right. }
  intros [n rb]. destruct (_ =? 0); [apply throws_only_ret|].
  destruct (negb _); [apply throws_only_throw; by left|apply IH].
Qed.

Lemma throws_only_validateFileContents (fuel : nat) (filename : string) :
  throws_only (λ e, e = MalformedRecordWidth ∨ e = RecordCountNotDivisible
                    ∨ e = IOFailure)
    (validateFileContents this fuel filename).
Proof.
  unfold validateFileContents. apply throws_only_bind.
  { eapply throws_only_mono; [|apply throws_only_open_r]. intros e ->. tauto. }
  intros h. apply throws_only_try_finally; [|apply throws_only_close].
  unfold checkLineLengthAndCount. apply throws_only_bind.
  { eapply throws_only_mono; [|apply throws_only_checkLineLoop].
    intros e [->| ->]; tauto. }
  intros count. destruct (rem_nonzero _ _);
    [apply throws_only_throw; tauto|apply throws_only_ret].
Qed.

Lemma throws_only_checkFileSizeLimit (filename : string) :
  throws_only (λ e, e = FileTooLarge ∨ e = IOFailure)
    (checkFileSizeLimit this filename).
Proof.
  unfold checkFileSizeLimit. apply throws_only_bind.
  { eapply throws_only_mono; [|apply throws_only_stat]. intros e ->. tauto. }
  intros size. destruct (_ <? _);
    [apply throws_only_throw; tauto|apply throws_only_ret].
Qed.

Lemma throws_only_readSegmentLoop (todo : nat) (h : string) (start : nat) :
  ∀ (i : nat) (buf : buffer) (lines : list jsstring),
    throws_only (λ e, e = IOFailure)
      (readSegmentLoop toString_utf8 this todo h start i buf lines).
Proof.
  induction todo as [|todo IH]; intros i buf lines.
  { apply throws_only_ret. }
  cbn [readSegmentLoop]. apply throws_only_bind; [apply throws_only_read|].
  intros [n rb]. destruct (_ =? 0); [apply throws_only_ret|apply IH].
Qed.

Lemma throws_only_sortSegmentsLoop (h noEnd : string) (fuel : nat) :
  ∀ (segments : list string) (counter bytesRead : nat),
    throws_only (λ e, e = IOFailure)
      (sortSegmentsLoop toString_utf8 this fuel h noEnd segments counter
         bytesRead).
Proof.
  induction fuel as [|fuel IH]; intros segments counter bytesRead.
  { apply throws_only_out_of_fuel. }
  cbn [sortSegmentsLoop]. apply throws_only_bind;
    [apply throws_only_readSegmentLoop|].
  intros lines. destruct (_ =? 0); [apply throws_only_ret|].
  apply throws_only_bind; [|intros path; apply IH].
  unfold writeSortedSegment. apply throws_only_bind;
    [apply throws_only_writeFile|intros; apply throws_only_ret].
Qed.

Lemma throws_only_sortSegments (fuel : nat) (inFilename : string) :
  throws_only (λ e, e = IOFailure)
    (sortSegments toString_utf8 this fuel inFilename).
Proof.
  unfold sortSegments. apply throws_only_bind; [apply throws_only_open_r|].
  intros h. apply throws_only_try_finally; [|apply throws_only_close].
  apply throws_only_sortSegmentsLoop.
Qed.

Lemma throws_only_readNextLine (fileHandle : option string) (index : Z)
    (lines : list jsstring) (positions : list nat) :
  throws_only (λ e, e = IOFailure ∨ e = TypeError)
    (readNextLine this fileHandle index lines positions).
Proof.
  unfold readNextLine. destruct fileHandle;
    [|apply throws_only_throw; by right].
  apply throws_only_bind.
  { eapply throws_only_mono; [|apply throws_only_read]. intros e ->. by left. }
  intros [n rb]. destruct (_ =? 0); apply throws_only_ret.
Qed.

Lemma throws_only_mergeSegments (fuel : nat) (segments : list string)
    (outFilename : string) :
  throws_only (λ e, e = IOFailure ∨ e = TypeError)
    (mergeSegments this fuel segments outFilename).
Proof.
  assert (∀ A (m : M A), throws_only (λ e, e = IOFailure) m →
            throws_only (λ e, e = IOFailure ∨ e = TypeError) m) as Hio.
  { intros A m. apply throws_only_mono. intros e ->. by left. }
  unfold mergeSegments. apply throws_only_bind.
  { apply Hio, throws_only_Promise_all, throws_only_map.
    apply throws_only_open_r. }
  intros fileHandles. apply throws_only_bind;
    [apply Hio, throws_only_open_w|]. intros outFile.
  apply throws_only_try_finally.
  - unfold performMerge. apply throws_only_bind.
    { unfold readInitialLines. apply throws_only_bind;
        [|intros; apply throws_only_ret].
      apply Hio, throws_only_Promise_all, throws_only_map. intros x.
      apply throws_only_read. }
    intros lines.
    generalize (replicate (length fileHandles) (lineSizeBytes this)).
    revert lines. induction fuel as [|fuel IH]; intros lines positions.
    { cbn [mergeLoop]. destruct (existsb _ _);
        [apply throws_only_out_of_fuel|apply throws_only_ret]. }
    cbn [mergeLoop]. destruct (existsb _ _); [|apply throws_only_ret].
    destruct (findMinLine lines) as [minLine minIndex].
    apply throws_only_bind; [apply Hio, throws_only_write|]. intros _.
    apply throws_only_bind; [apply throws_only_readNextLine|].
    intros [lines' positions']. apply IH.
  - unfold cleanupFiles. apply throws_only_bind.
    { apply throws_only_Promise_all, throws_only_map. intros x.
      apply throws_only_close. }
    intros _. apply throws_only_bind; [apply throws_only_close|]. intros _.
    apply throws_only_bind; [|intros; apply throws_only_ret].
    apply Hio, throws_only_Promise_all, throws_only_map.
    apply throws_only_unlink.
Qed.

End Throws.

(** ** Where the errors of [Sort] come from *)

Lemma validateInput_checkFileExists (this : SortFile) (fuel : nat)
    (inFilename outFilename : string) (st : fs) :
  validateInput this fuel inFilename outFilename st
  = if accessible st inFilename
    then (checkFileSizeLimit this inFilename;;
          validateFileContents this fuel inFilename;;
          checkOutputDirectory outFilename) st
    else (st, Throw InputNotFound).
Proof.
  unfold validateInput, checkFileExists, accessible. unfold_M.
  unfold fsp_access. by destruct (_ || _).
Qed.

Lemma Sort_Throw (toString_utf8 : buffer → jsstring) (this : SortFile)
    (fuel : nat) (inFilename outFilename : string) (st st' : fs) (e : error) :
  Sort toString_utf8 this fuel inFilename outFilename st = (st', Throw e) →
  validateInput this fuel inFilename outFilename st = (st, Throw e) ∧ st' = st
  ∨ validateInput this fuel inFilename outFilename st = (st, Ok ())
    ∧ (e = IOFailure ∨ e = TypeError).
Proof.
  unfold Sort. intros Hrun.
  destruct (validateInput this fuel inFilename outFilename st)
    as [st1 rv] eqn:Hval.
  destruct rv as [[]|e1|].
  - assert (st1 = st) as ->
      by (eapply preserves_validateInput; [exact Hval|done]).
    right. split; [done|].
    rewrite (bind_Ok _ _ _ _ _ Hval) in Hrun.
    destruct (sortSegments toString_utf8 this fuel inFilename st)
      as [st2 rs] eqn:Hsort.
    destruct rs as [segments|e2|].
    + rewrite (bind_Ok _ _ _ _ _ Hsort) in Hrun.
      by apply throws_only_mergeSegments in Hrun.
    + rewrite (bind_Throw _ _ _ _ _ Hsort) in Hrun.
      injection Hrun as <- <-. left.
      by apply throws_only_sortSegments in Hsort.
    + unfold_M. by rewrite Hsort in Hrun.
  - assert (st1 = st) as ->
      by (eapply preserves_validateInput; [exact Hval|done]).
    rewrite (bind_Throw _ _ _ _ _ Hval) in Hrun.
    injection Hrun as <- <-. by left.
  - unfold_M. by rewrite Hval in Hrun.
Qed.

Lemma Sort_validation_Throw (toString_utf8 : buffer → jsstring)
    (this : SortFile) (fuel : nat) (inFilename outFilename : string)
    (st : fs) (e : error) :
  e ≠ IOFailure → e ≠ TypeError →
  (Sort toString_utf8 this fuel inFilename outFilename st).2 = Throw e
  ↔ (validateInput this fuel inFilename outFilename st).2 = Throw e.
Proof.
  intros Hio Hty. split.
  - destruct (Sort _ _ _ _ _ _) as [st' r] eqn:Hrun. simpl. intros ->.
    apply Sort_Throw in Hrun as [[-> _]|[_ [?|?]]]; done.
  - destruct (validateInput _ _ _ _ _) as [st' r] eqn:Hval. simpl.
    intros ->. unfold Sort. by rewrite (bind_Throw _ _ _ _ _ Hval).
Qed.

Lemma throws_only_after_checkFileExists (this : SortFile) (fuel : nat)
    (inFilename outFilename : string) :
  throws_only (λ e, e ≠ InputNotFound)
    (checkFileSizeLimit this inFilename;;
     validateFileContents this fuel inFilename;;
     checkOutputDirectory outFilename).
Proof.
  apply throws_only_bind.
  { eapply throws_only_mono; [|apply throws_only_checkFileSizeLimit].
    by intros e [->| ->]. }
  intros _. apply throws_only_bind.
  { eapply throws_only_mono; [|apply throws_only_validateFileContents].
    by intros e [->|[->| ->]]. }
  intros _. apply throws_only_try_catch. by apply throws_only_throw.
Qed.

Lemma throws_only_after_checkFileSizeLimit (this : SortFile) (fuel : nat)
    (inFilename outFilename : string) :
  throws_only (λ e, e ≠ FileTooLarge)
    (validateFileContents this fuel inFilename;;
     checkOutputDirectory outFilename).
Proof.
  apply throws_only_bind.
  { eapply throws_only_mono; [|apply throws_only_validateFileContents].
    by intros e [->|[->| ->]]. }
  intros _. apply throws_only_try_catch. by apply throws_only_throw.
Qed.

(** X1: [Sort] throws the error of [checkFileExists] exactly when
    the input path names neither a file nor a directory: no other check and
    no later stage raises it. *)
Theorem Sort_input_not_found (toString_utf8 : buffer → jsstring)
    (this : SortFile) (fuel : nat) (inFilename outFilename : string)
    (st : fs) :
  (Sort toString_utf8 this fuel inFilename outFilename st).2
  = Throw InputNotFound
  ↔ files st !! inFilename = None ∧ dirs st !! inFilename = None.
Proof.
  rewrite Sort_validation_Throw by done.
  rewrite validateInput_checkFileExists. unfold accessible.
  pose proof (throws_only_after_checkFileExists this fuel inFilename
                outFilename st) as Hrest.
  destruct (files st !! inFilename) as [data|] eqn:Hf,
    (dirs st !! inFilename) as [size|] eqn:Hd.
  - rewrite bool_decide_eq_true_2 by eauto. cbn [orb]. split; [|by intros []].
    match goal with
    | |- (?m st).2 = _ → _ => destruct (m st) as [st' r]
    end.
    simpl. intros ->. by destruct (Hrest st' InputNotFound).
  - rewrite bool_decide_eq_true_2 by eauto. cbn [orb]. split; [|by intros []].
    match goal with
    | |- (?m st).2 = _ → _ => destruct (m st) as [st' r]
    end.
    simpl. intros ->. by destruct (Hrest st' InputNotFound).
  - rewrite bool_decide_eq_false_2 by (by intros []).
    rewrite bool_decide_eq_true_2 by eauto. cbn [orb].
    split; [|by intros []].
    match goal with
    | |- (?m st).2 = _ → _ => destruct (m st) as [st' r]
    end.
    simpl. intros ->. by destruct (Hrest st' InputNotFound).
  - rewrite !bool_decide_eq_false_2 by (by intros []). done.
Qed.

Lemma checkFileSizeLimit_stat (this : SortFile) (filename : string)
    (st : fs) (size : nat) :
  fsp_stat_size filename st = (st, Ok size) →
  checkFileSizeLimit this filename st
  = (st, if maxFileSizeBytes this <? size then Throw FileTooLarge else Ok ()).
Proof.
  intros Hstat. unfold checkFileSizeLimit.
  rewrite (bind_Ok _ _ _ _ _ Hstat). by destruct (_ <? _).
Qed.

Lemma validateInput_file_too_large (this : SortFile) (fuel : nat)
    (inFilename outFilename : string) (st : fs) (size : nat) :
  fsp_stat_size inFilename st = (st, Ok size) →
  (validateInput this fuel inFilename outFilename st).2 = Throw FileTooLarge
  ↔ maxFileSizeBytes this < size.
Proof.
  intros Hstat. rewrite validateInput_checkFileExists.
  assert (accessible st inFilename = true) as ->.
  { revert Hstat. unfold fsp_stat_size, accessible.
    by destruct (files st !! inFilename), (dirs st !! inFilename). }
  pose proof (checkFileSizeLimit_stat this _ _ _ Hstat) as Hcheck.
  destruct (Nat.ltb_spec (maxFileSizeBytes this) size) as [Hlt|Hge].
  - by rewrite (bind_Throw _ _ _ _ _ Hcheck).
  - rewrite (bind_Ok _ _ _ _ _ Hcheck). split; [|lia].
    pose proof (throws_only_after_checkFileSizeLimit this fuel inFilename
                  outFilename st) as Hrest.
    match goal with
    | |- (?m st).2 = _ → _ => destruct (m st) as [st' r]
    end.
    simpl. intros ->. by destruct (Hrest st' FileTooLarge).
Qed.

(** X2: [Sort] throws the error of [checkFileSizeLimit] exactly
    when [stat] succeeds on the input path with a size strictly above
    [maxFileSizeBytes]; an input of exactly [maxFileSizeBytes] bytes is not
    rejected for its size, and an input above it is rejected whatever it
    holds and whatever the output path is. *)
Theorem Sort_file_too_large (toString_utf8 : buffer → jsstring)
    (this : SortFile) (fuel : nat) (inFilename outFilename : string)
    (st : fs) :
  (Sort toString_utf8 this fuel inFilename outFilename st).2
  = Throw FileTooLarge
  ↔ ∃ size, (fsp_stat_size inFilename st).2 = Ok size
            ∧ maxFileSizeBytes this < size.
Proof.
  rewrite Sort_validation_Throw by done.
  destruct (fsp_stat_size inFilename st) as [st1 rs] eqn:Hstat.
  assert (st1 = st) as -> by (eapply preserves_stat; [exact Hstat|];
    revert Hstat; unfold fsp_stat_size;
    by destruct (files st !! inFilename), (dirs st !! inFilename);
      intros [= <- <-]).
  destruct rs as [size|e|].
  - rewrite (validateInput_file_too_large _ _ _ _ _ _ Hstat). simpl. split.
    + eauto.
    + by intros (size' & [= <-] & Hlt).
  - simpl. split; [|by intros (? & ? & _)].
    rewrite validateInput_checkFileExists.
    assert (accessible st inFilename = false) as ->; [|done].
    revert Hstat. unfold fsp_stat_size, accessible.
    by destruct (files st !! inFilename), (dirs st !! inFilename).
  - revert Hstat. unfold fsp_stat_size.
    by destruct (files st !! inFilename), (dirs st !! inFilename).
Qed.

(** X5: when [Sort] throws one of the five errors of the validation
    methods (any error but a rejection of an [fs] call and the engine's
    [TypeError]), it is [validateInput] that threw it, and nothing has been
    done: the files, the directories and the open handles are as
    before. *)
Theorem Sort_validation_error_atomic (toString_utf8 : buffer → jsstring)
    (this : SortFile) (fuel : nat) (inFilename outFilename : string)
    (st st' : fs) (e : error) :
  Sort toString_utf8 this fuel inFilename outFilename st = (st', Throw e) →
  e ≠ IOFailure → e ≠ TypeError →
  st' = st
  ∧ validateInput this fuel inFilename outFilename st = (st, Throw e).
Proof.
  intros Hrun Hio Hty. by apply Sort_Throw in Hrun as [[? ->]|[_ [?|?]]].
Qed.

Lemma Sort_validation_error_atomic_witness :
  let st := Fs {[ "in.txt" := record "abcd "; "out.txt" := [] ]} ∅ [] in
  st = st
  ∧ validateInput (sorter 1 7) 100 "in.txt" "out.txt" st
    = (st, Throw MalformedRecordWidth).
Proof.
  intros st.
  apply (Sort_validation_error_atomic toString_utf8_7bit (sorter 1 7) 100
           "in.txt" "out.txt" st st MalformedRecordWidth).
  - vm_compute. reflexivity.
  - discriminate.
  - discriminate.
Defined.


(** ** What the validation decides *)

Lemma Forall_or_first {A} (P : A → Prop) `{!∀ x, Decision (P x)}
    (l : list A) :
  Forall P l ∨ ∃ l1 x l2, l = l1 ++ x :: l2 ∧ Forall P l1 ∧ ¬ P x.
Proof.
  induction l as [|x l IH]; [by left|].
  destruct (decide (P x)) as [Hx|Hx].
  - destruct IH as [IH|(l1 & y & l2 & -> & Hl1 & Hy)].
    + left. by constructor.
    + right. exists (x :: l1), y, l2. split_and!; [done| |done].
      by constructor.
  - right. exists [], x, l. by split_and!.
Qed.

Lemma checkLineLengthAndCount_invalid (this : SortFile) (fuel : nat)
    (h : string) (st : fs) (ws : list buffer) :
  lineSizeBytes this ≠ 0 →
  Forall (λ w, length w = lineSizeBytes this) ws →
  ¬ Forall (valid_window (lineSizeBytes this)) ws →
  files st !! h = Some (concat ws) →
  length ws < fuel →
  checkLineLengthAndCount this fuel h st = (st, Throw MalformedRecordWidth).
Proof.
  intros HL Hlen Hnot Hfile Hfuel.
  destruct (Forall_or_first (valid_window (lineSizeBytes this)) ws)
    as [?|(l1 & w & l2 & -> & Hl1 & Hw)]; [done|].
  apply Forall_app in Hlen as [_ Hlen]. apply Forall_cons in Hlen as [Hw' _].
  rewrite concat_app, concat_cons in Hfile.
  rewrite length_app in Hfuel. simpl in Hfuel.
  unfold checkLineLengthAndCount.
  erewrite bind_Throw; [done|].
  apply (checkLineLoop_invalid_window this h st l1 w (concat l2) HL Hl1 Hw')
    with (pre := []).
  - intros Hp. apply Hw. by split.
  - apply length_replicate.
  - done.
  - lia.
Qed.

(** X4: on an input file made of whole windows of [lineSizeBytes]
    bytes, [validateInput] changes nothing and reports the first failing
    check in the order of the source: the size limit, then the width of the
    records (some window whose trimmed text has not [lineSizeBytes - 2]
    characters), then the divisibility of their number (a segment size of 0
    always fails it), then the output path, which passes when it names an
    existing file or directory. *)
Theorem validateInput_decision (this : SortFile) (fuel : nat)
    (inFilename outFilename : string) (st : fs) (ws : list buffer) :
  lineSizeBytes this ≠ 0 →
  files st !! inFilename = Some (concat ws) →
  Forall (λ w, length w = lineSizeBytes this) ws →
  length ws < fuel →
  validateInput this fuel inFilename outFilename st
  = (st,
     if maxFileSizeBytes this <? length (concat ws) then Throw FileTooLarge
     else if negb (bool_decide (Forall (valid_window (lineSizeBytes this)) ws))
     then Throw MalformedRecordWidth
     else if rem_nonzero (length ws) (numberOfLinesPerSegment this)
     then Throw RecordCountNotDivisible
     else if accessible st outFilename then Ok ()
     else Throw OutputDirectoryMissing).
Proof.
  intros HL Hfile Hlen Hfuel. rewrite validateInput_checkFileExists.
  assert (accessible st inFilename = true) as ->.
  { unfold accessible. by rewrite bool_decide_eq_true_2 by eauto. }
  assert (fsp_stat_size inFilename st = (st, Ok (length (concat ws))))
    as Hstat by (unfold fsp_stat_size; by rewrite Hfile).
  pose proof (checkFileSizeLimit_stat this _ _ _ Hstat) as Hsize.
  destruct (_ <? _); [by rewrite (bind_Throw _ _ _ _ _ Hsize)|].
  rewrite (bind_Ok _ _ _ _ _ Hsize).
  assert (validateFileContents this fuel inFilename st
          = (st,
             if negb (bool_decide
                        (Forall (valid_window (lineSizeBytes this)) ws))
             then Throw MalformedRecordWidth
             else if rem_nonzero (length ws) (numberOfLinesPerSegment this)
             then Throw RecordCountNotDivisible else Ok ())) as Hcontents.
  { eapply validateFileContents_run; [done| |].
    - case_bool_decide as Hvalid; cbn [negb].
      + by apply (checkLineLengthAndCount_windows this fuel inFilename
                    (with_handle inFilename st) ws).
      + by apply (checkLineLengthAndCount_invalid this fuel inFilename
                    (with_handle inFilename st) ws).
    - case_bool_decide; cbn [negb]; [by destruct (rem_nonzero _ _)|done]. }
  case_bool_decide; cbn [negb] in *.
  - destruct (rem_nonzero _ _).
    + by rewrite (bind_Throw _ _ _ _ _ Hcontents).
    + rewrite (bind_Ok _ _ _ _ _ Hcontents). apply checkOutputDirectory_spec.
  - by rewrite (bind_Throw _ _ _ _ _ Hcontents).
Qed.

Lemma validateInput_decision_witness :
  let ws := [record "brian"; record "abc  "] in
  let st := Fs {[ "in.txt" := concat ws; "out.txt" := [] ]} ∅ [] in
  validateInput (sorter 1 7) 100 "in.txt" "out.txt" st
  = (st, Throw MalformedRecordWidth).
Proof.
  intros ws st.
  apply (validateInput_decision (sorter 1 7) 100 "in.txt" "out.txt" st ws).
  - discriminate.
  - reflexivity.
  - repeat constructor.
  - vm_compute. lia.
Defined.


(** ** Files the validation accepts *)

Lemma split_windows (width : nat) (n : nat) :
  width ≠ 0 →
  ∀ data : buffer, length data ≤ n →
    ∃ ws tail, data = concat ws ++ tail
               ∧ Forall (λ w, length w = width) ws ∧ length tail < width.
Proof.
  intros Hw. induction n as [|n IH]; intros data Hn.
  { exists [], data. split_and!; [done..|]. lia. }
  destruct (decide (length data < width)) as [Hlt|Hge].
  { exists [], data. by split_and!. }
  destruct (IH (drop width data)) as (ws & tail & Heq & Hws & Htail).
  { rewrite length_drop. lia. }
  exists (take width data :: ws), tail. split_and!; [|constructor|]; try done.
  - rewrite concat_cons, <- app_assoc, <- Heq. by rewrite take_drop.
  - rewrite length_take. lia.
Qed.

Lemma chunks_short (width : nat) (t : buffer) :
  0 < length t < width → chunks width t = [t].
Proof.
  intros Hlen. unfold chunks.
  replace ((length t + width - 1) / width) with 1.
  - cbn [seq fmap list_fmap]. rewrite Nat.mul_0_l, drop_0.
    rewrite take_ge; [done|lia].
  - apply Nat.div_unique with (length t - 1); lia.
Qed.

Lemma chunks_windows_tail (width : nat) (ws : list buffer) (tail : buffer) :
  width ≠ 0 → Forall (λ w, length w = width) ws → length tail < width →
  chunks width (concat ws ++ tail)
  = ws ++ (if decide (tail = []) then [] else [tail]).
Proof.
  intros Hw Hws Htail. induction Hws as [|w ws Hlen _ IH].
  - simpl. case_decide as Ht.
    + subst tail. by apply chunks_nil.
    + apply chunks_short. destruct tail; [done|]. simpl in *. lia.
  - rewrite concat_cons, <- app_assoc, chunks_app by done. by rewrite IH.
Qed.

Lemma checkLineLoop_Ok (this : SortFile) (h : string) (st : fs)
    (tail : buffer) (ws : list buffer) :
  Forall (λ w, length w = lineSizeBytes this) ws →
  length tail < lineSizeBytes this →
  ∀ (fuel : nat) (pre buf : buffer) (count count' : nat) (st' : fs),
    length buf = lineSizeBytes this →
    files st !! h = Some (pre ++ concat ws ++ tail) →
    checkLineLoop this fuel h (length pre) buf count st = (st', Ok count') →
    Forall (valid_window (lineSizeBytes this)) ws
    ∧ count' = count + length ws + (if decide (tail = []) then 0 else 1).
Proof.
  intros Hws Htail. induction Hws as [|w ws Hlen _ IH];
    intros fuel pre buf count count' st' Hbuf Hfile Hrun.
  - split; [done|]. simpl in *. destruct fuel as [|fuel]; [done|].
    cbn [checkLineLoop] in Hrun.
    rewrite (bind_Ok _ _ _ _ _ (fh_read_file _ _ _ _ _ _ Hfile)) in Hrun.
    rewrite drop_app_length in Hrun.
    rewrite take_ge in Hrun by lia.
    case_decide as Ht.
    + subst tail. simpl in Hrun.
      cbv [mret M_ret] in Hrun.
      injection Hrun as _ <-. lia.
    + destruct (Nat.eqb_spec (length tail) 0) as [H0|_].
      { by destruct tail. }
      destruct (negb _); [done|].
      destruct fuel as [|fuel]; [done|]. cbn [checkLineLoop] in Hrun.
      rewrite (bind_Ok _ _ _ _ _ (fh_read_file _ _ _ _ _ _ Hfile)) in Hrun.
      rewrite <- length_app, drop_all, take_nil in Hrun. simpl in Hrun.
      cbv [mret M_ret] in Hrun.
      injection Hrun as _ <-. lia.
  - destruct fuel as [|fuel]; [done|]. cbn [checkLineLoop] in Hrun.
    rewrite (bind_Ok _ _ _ _ _ (fh_read_file _ _ _ _ _ _ Hfile)) in Hrun.
    rewrite drop_app_length, concat_cons, <- app_assoc in Hrun.
    rewrite take_app_length' in Hrun by done.
    rewrite Hlen, <- Hbuf, drop_all, app_nil_r in Hrun.
    destruct (Nat.eqb_spec (length buf) 0) as [H0|_]; [|].
    { lia. }
    destruct (Nat.eqb_spec (length (trim (toString_ascii w)) + length EOL)
                (length buf)) as [Hvalid|_]; [|done].
    cbn [negb] in Hrun.
    replace (length pre + length buf) with (length (pre ++ w)) in Hrun
      by (rewrite length_app; lia).
    eapply IH in Hrun as [Hall ->].
    + split; [|simpl; lia]. constructor; [|done]. split; [done|].
      unfold payload. by rewrite Hvalid.
    + lia.
    + rewrite <- app_assoc. by rewrite concat_cons, <- app_assoc in Hfile.
Qed.

Lemma validateFileContents_Ok (this : SortFile) (fuel : nat)
    (filename : string) (st st' : fs) :
  validateFileContents this fuel filename st = (st', Ok ()) →
  ∃ count,
    checkLineLoop this fuel filename 0 (Buffer_alloc (lineSizeBytes this)) 0
      (with_handle filename st) = (with_handle filename st, Ok count)
    ∧ rem_nonzero count (numberOfLinesPerSegment this) = false.
Proof.
  unfold validateFileContents, checkLineLengthAndCount. unfold_M.
  unfold fsp_open_r. destruct (_ || _); [|done].
  change (Fs (files st) (dirs st) (filename :: handles st))
    with (with_handle filename st).
  pose proof (checkLineLoop_state this fuel filename 0
                (Buffer_alloc (lineSizeBytes this)) 0
                (with_handle filename st)) as Hst.
  destruct (checkLineLoop _ _ _ _ _ _ _) as [st1 [count|e|]];
    simpl in Hst; subst st1; [|done..].
  destruct (rem_nonzero _ _) eqn:Hrem; [done|]. eauto.
Qed.

(** X3: in every file [validateFileContents] accepts, whatever its
    length, each complete record (a window of [lineSizeBytes] bytes) has a
    trimmed text of [lineSizeBytes - 2] characters, and the number of
    records, a shorter last one included, is a multiple of
    [numberOfLinesPerSegment]: only a last record shorter than
    [lineSizeBytes] can pass without that form. *)
Theorem validateFileContents_accepts (this : SortFile) (fuel : nat)
    (filename : string) (st st' : fs) :
  validateFileContents this fuel filename st = (st', Ok ()) →
  ∃ data,
    files st !! filename = Some data
    ∧ (∀ w, w ∈ chunks (lineSizeBytes this) data →
         length w = lineSizeBytes this →
         valid_window (lineSizeBytes this) w)
    ∧ rem_nonzero (length (chunks (lineSizeBytes this) data))
        (numberOfLinesPerSegment this) = false.
Proof.
  intros (count & Hloop & Hrem)%validateFileContents_Ok.
  destruct (files st !! filename) as [data|] eqn:Hfile.
  2:{ destruct fuel as [|fuel]; [done|]. cbn [checkLineLoop] in Hloop.
      unfold_M. unfold fh_read in Hloop. cbn [files with_handle] in Hloop.
      by rewrite Hfile in Hloop. }
  exists data. split; [done|].
  destruct (decide (lineSizeBytes this = 0)) as [H0|HL].
  - assert (chunks (lineSizeBytes this) data = []) as ->.
    { unfold chunks. rewrite H0. by rewrite Nat.div_0_r. }
    split; [by intros w Hw%elem_of_nil|].
    destruct fuel as [|fuel]; [done|]. cbn [checkLineLoop] in Hloop.
    erewrite bind_Ok in Hloop; [|by apply fh_read_file].
    rewrite H0 in Hloop. simpl in Hloop. cbv [mret M_ret] in Hloop.
    by injection Hloop as <-.
  - destruct (split_windows (lineSizeBytes this) (length data) HL data)
      as (ws & tail & -> & Hws & Htail); [done|].
    rewrite chunks_windows_tail by done.
    eapply (checkLineLoop_Ok this filename _ tail ws Hws Htail fuel [])
      in Hloop as [Hvalid ->]; [| |done].
    2:{ apply length_replicate. }
    split.
    + intros w [Hw|Hw]%elem_of_app Hlen.
      * by apply (proj1 (Forall_forall _ _) Hvalid).
      * case_decide; [by apply elem_of_nil in Hw|].
        apply list_elem_of_singleton in Hw as ->. lia.
    + rewrite length_app. case_decide; simpl in *;
        by rewrite ?Nat.add_0_r in *.
Qed.

Lemma validateFileContents_accepts_witness :
  let st := Fs {[ "in.txt" := record "abcde" ++ list_byte_of_string "xy" ]}
               ∅ [] in
  ∃ data,
    files st !! "in.txt" = Some data
    ∧ (∀ w, w ∈ chunks 7 data → length w = 7 → valid_window 7 w)
    ∧ rem_nonzero (length (chunks 7 data)) 1 = false.
Proof.
  intros st.
  apply (validateFileContents_accepts (sorter 1 7) 100 "in.txt" st st).
  vm_compute. reflexivity.
Defined.


(** ** Records written and read back *)









(** ** The segment [readSegment] reads and the file [writeSortedSegment]
    writes *)

(** X6: on a file of whole records, [readSegment] at the offset of
    record [k] returns the trimmed texts of the next
    [numberOfLinesPerSegment] records in file order, fewer at the end of
    the file and none at or after it, and changes nothing. *)
Theorem readSegment_records (toString_utf8 : buffer → jsstring)
    (this : SortFile) (h : string) (st : fs) (ws : list buffer) (k : nat) :
  lineSizeBytes this ≠ 0 →
  Forall (λ w, length w = lineSizeBytes this) ws →
  files st !! h = Some (concat ws) →
  readSegment toString_utf8 this h (k * lineSizeBytes this) st
  = (st, Ok ((λ w, trim (toString_utf8 w))
               <$> take (numberOfLinesPerSegment this) (drop k ws))).
Proof.
  intros HL Hws Hfile. unfold readSegment.
  destruct (decide (k ≤ length ws)) as [Hk|Hk].
  - rewrite <- (take_drop k ws), concat_app in Hfile.
    rewrite (readSegmentLoop_windows toString_utf8 this h
               (k * lineSizeBytes this) st (numberOfLinesPerSegment this) HL
               (drop k ws) (concat (take k ws))); try done.
    + by apply Forall_drop.
    + apply length_replicate.
    + rewrite (length_concat_windows (lineSizeBytes this))
        by (by apply Forall_take).
      rewrite length_take. replace (k `min` length ws) with k by lia. lia.
  - rewrite drop_ge by lia. rewrite take_nil. simpl.
    eapply readSegmentLoop_eof; [done|].
    rewrite (length_concat_windows (lineSizeBytes this)) by done. nia.
Qed.

Lemma readSegment_records_witness :
  let ws := [record "charl"; record "alice"; record "brian"] in
  let st := Fs {[ "in.txt" := concat ws ]} ∅ ["in.txt"] in
  readSegment toString_utf8_7bit (sorter 2 7) "in.txt" (2 * 7) st
  = (st, Ok ((λ w, trim (toString_utf8_7bit w)) <$> take 2 (drop 2 ws))).
Proof.
  intros ws st.
  apply (readSegment_records toString_utf8_7bit (sorter 2 7) "in.txt" st ws 2).
  - discriminate.
  - repeat constructor.
  - reflexivity.
Defined.

(** X7: [writeSortedSegment], given at least one line, writes to
    the temporary path (or throws and changes nothing when the path cannot
    be written) the lines in ascending order, each followed by CR LF, the
    last one too: the same lines, rearranged.  When [width] is at least 3
    and every line has [width - 2] characters, all below 128, the first and
    the last no white space, the file has [width] bytes per line and its
    records, decoded as ASCII and trimmed, are the sorted lines. *)
Theorem writeSortedSegment_run (lines : list jsstring) (segmentCounter : nat)
    (fileNameNoEnd : string) (st : fs) :
  lines ≠ [] →
  writeSortedSegment lines segmentCounter fileNameNoEnd st
  = (if writable st (tempFilePath fileNameNoEnd segmentCounter)
     then (Fs (<[tempFilePath fileNameNoEnd segmentCounter
                 := run_bytes (sort lines)]> (files st))
              (dirs st) (handles st),
           Ok (tempFilePath fileNameNoEnd segmentCounter))
     else (st, Throw IOFailure))
  ∧ sort lines ≡ₚ lines
  ∧ StronglySorted js_ordered (sort lines)
  ∧ ∀ width, 3 ≤ width → Forall (good_line width) lines →
      length (run_bytes (sort lines)) = length lines * width
      ∧ payloads width (run_bytes (sort lines)) = sort lines.
Proof.
  intros Hne. split_and!.
  - unfold writeSortedSegment, fsp_writeFile. unfold_M.
    destruct (writable st _); [|done]. rewrite join_EOL; [done|].
    intros Hnil. apply (f_equal length) in Hnil.
    rewrite length_sort in Hnil. by destruct lines.
  - apply sort_perm.
  - apply sort_sorted.
  - intros width Hw Hgood.
    assert (Forall (good_line width) (sort lines)) as Hgood'
      by (by rewrite sort_perm).
    split.
    + by rewrite (length_run_bytes width), length_sort.
    + by apply payloads_run_bytes.
Qed.

Lemma writeSortedSegment_run_witness :
  let lines := [[98%N; 98%N]; [97%N; 97%N]] in
  let st := Fs ∅ ∅ [] in
  writeSortedSegment lines 3 "in" st
  = (if writable st (tempFilePath "in" 3)
     then (Fs (<[tempFilePath "in" 3 := run_bytes (sort lines)]> (files st))
              (dirs st) (handles st),
           Ok (tempFilePath "in" 3))
     else (st, Throw IOFailure))
  ∧ sort lines ≡ₚ lines
  ∧ StronglySorted js_ordered (sort lines)
  ∧ ∀ width, 3 ≤ width → Forall (good_line width) lines →
      length (run_bytes (sort lines)) = length lines * width
      ∧ payloads width (run_bytes (sort lines)) = sort lines.
Proof.
  intros lines st. apply (writeSortedSegment_run lines 3 "in" st).
  discriminate.
Defined.




(** ** The merge of sorted runs *)

(** X13: let [lineSizeBytes] be at least 3, the run paths distinct and none
    of them the output path, the output path one that can be written, and
    let each run file hold a non-empty ascending sequence of lines (of any
    number) of [lineSizeBytes - 2] characters, all below 128, the first and
    the last no white space and the first not the sentinel character, each
    followed by CR LF.  With fuel for every line, [mergeSegments] returns:
    it has written to the output all the lines of all the runs in ascending
    order, each followed by CR LF, deleted the run files, closed its
    handles and changed no other file. *)
Theorem mergeSegments_merges (this : SortFile) (fuel : nat)
    (segments : list string) (outFilename : string) (st : fs)
    (runs : list (list jsstring)) :
  3 ≤ lineSizeBytes this →
  NoDup segments →
  outFilename ∉ segments →
  writable st outFilename = true →
  Forall2 (λ segment r, files st !! segment = Some (run_bytes r))
    segments runs →
  Forall (λ r, r ≠ []
               ∧ Forall (good_line (lineSizeBytes this)) r
               ∧ Forall below_sentinel r
               ∧ StronglySorted js_ordered r) runs →
  length (concat runs) ≤ fuel →
  ∃ fl,
    mergeSegments this fuel segments outFilename st
    = (Fs fl (dirs st) (handles st), Ok ())
    ∧ fl !! outFilename = Some (run_bytes (sort (concat runs)))
    ∧ ∀ p, p ≠ outFilename →
        fl !! p = if decide (p ∈ segments) then None else files st !! p.
Proof.
  intros HL Hnodup Hout Hwr Hfiles Hruns Hfuel.
  destruct (mergeSegments_runs this fuel segments outFilename st runs)
    as (fl & lines & Hmerge & Hfile & Hperm & Hsorted & Hframe); try done.
  exists fl. split_and!; [done| |done].
  by rewrite <- (sorted_perm_sort lines (concat runs)).
Qed.

Lemma mergeSegments_merges_witness :
  let a := [97%N; 97%N] in
  let b := [98%N; 98%N] in
  let c := [99%N; 99%N] in
  let runs := [[a; c]; [b]] in
  let st := Fs {[ "r0" := run_bytes [a; c]; "r1" := run_bytes [b] ]} ∅ [] in
  ∃ fl,
    mergeSegments (sorter 2 4) 10 ["r0"; "r1"] "out" st
    = (Fs fl (dirs st) (handles st), Ok ())
    ∧ fl !! "out" = Some (run_bytes (sort (concat runs)))
    ∧ ∀ p, p ≠ "out" →
        fl !! p = if decide (p ∈ ["r0"; "r1"]) then None else files st !! p.
Proof.
  intros a b c runs st.
  apply (mergeSegments_merges (sorter 2 4) 10 ["r0"; "r1"] "out" st runs).
  - vm_compute. lia.
  - apply NoDup_cons. split; [|apply NoDup_singleton].
    intros Hin. apply list_elem_of_singleton in Hin. discriminate.
  - intros Hin.
    repeat (apply elem_of_cons in Hin as [Hin|Hin]; [discriminate|]).
    by apply elem_of_nil in Hin.
  - reflexivity.
  - repeat constructor.
  - repeat constructor; try discriminate; reflexivity.
  - vm_compute. lia.
Defined.

(** X14: once [mergeSegments] could open the runs and the output,
    the cleanup is unconditional: whether the merge returns or throws,
    every handle it opened is closed again, every run file is deleted, and
    no file other than the runs and the output is changed. *)
Theorem mergeSegments_cleans_up (this : SortFile) (fuel : nat)
    (segments : list string) (outFilename : string) (st st' : fs)
    (r : outcome ()) :
  Forall (λ segment, is_Some (files st !! segment)) segments →
  writable st outFilename = true →
  mergeSegments this fuel segments outFilename st = (st', r) →
  r ≠ OutOfFuel →
  handles st' = handles st
  ∧ dirs st' = dirs st
  ∧ (∀ p, p ∈ segments → files st' !! p = None)
  ∧ (∀ p, p ∉ segments → p ≠ outFilename → files st' !! p = files st !! p).
Proof. apply mergeSegments_cleanup. Qed.

Lemma mergeSegments_cleans_up_witness :
  let st := Fs {[ "r0" := ["127"%byte; "a"%byte] ++ Buffer_from_ascii EOL;
                  "keep" := [] ]} ∅ ["keep"] in
  let st' := (mergeSegments (sorter 1 4) 10 ["r0"] "out" st).1 in
  handles st' = handles st
  ∧ dirs st' = dirs st
  ∧ (∀ p, p ∈ ["r0"] → files st' !! p = None)
  ∧ (∀ p, p ∉ ["r0"] → p ≠ "out" → files st' !! p = files st !! p).
Proof.
  intros st st'.
  apply (mergeSegments_cleans_up (sorter 1 4) 10 ["r0"] "out" st st'
           (Throw TypeError)).
  - repeat constructor.
    by exists (["127"%byte; "a"%byte] ++ Buffer_from_ascii EOL).
  - reflexivity.
  - vm_compute. reflexivity.
  - discriminate.
Defined.


(** ** [Sort] from end to end *)

Lemma Sort_sorted_witness :
  let ws := [record "charl"; record "alice"; record "brian"; record "danie"] in
  let st := Fs {[ "in.txt" := concat ws; "out.txt" := [] ]} ∅ [] in
  ∃ fl output,
    Sort toString_utf8_7bit (sorter 2 7) 100 "in.txt" "out.txt" st
    = (Fs fl (dirs st) (handles st), Ok ())
    ∧ fl !! "out.txt" = Some output
    ∧ sorted_records (chunks 7 output)
    ∧ (∀ i, i < length ws / 2 →
         fl !! tempFilePath (slice_0_minus4 "in.txt") i = None).
Proof.
  intros ws st.
  apply (Sort_sorted toString_utf8_7bit (sorter 2 7) 100 "in.txt"
           "out.txt" st ws []).
  - apply toString_utf8_7bit_ok.
  - vm_compute. lia.
  - discriminate.
  - reflexivity.
  - vm_compute. lia.
  - repeat constructor.
  - repeat (constructor; [repeat (constructor; [reflexivity|])|]);
      constructor.
  - repeat (constructor; [discriminate|]). constructor.
  - reflexivity.
  - reflexivity.
  - reflexivity.
  - intros i. unfold writable, parent_exists.
    rewrite dirname_tempFilePath. reflexivity.
  - intros i. discriminate.
  - vm_compute. lia.
Defined.

Lemma Sort_output_witness :
  let ws := [list_byte_of_string " brian" ++ ["010"%byte];
             record "alice"] in
  let st := Fs {[ "in.txt" := concat ws; "out.txt" := [] ]} ∅ [] in
  ∃ fl,
    Sort toString_utf8_7bit (sorter 1 7) 100 "in.txt" "out.txt" st
    = (Fs fl (dirs st) (handles st), Ok ())
    ∧ fl !! "out.txt" = Some (run_bytes (sort (payload <$> ws)))
    ∧ length (run_bytes (sort (payload <$> ws))) = length (concat ws).
Proof.
  intros ws st.
  apply (Sort_output toString_utf8_7bit (sorter 1 7) 100 "in.txt"
           "out.txt" st ws []).
  - apply toString_utf8_7bit_ok.
  - vm_compute. lia.
  - discriminate.
  - reflexivity.
  - vm_compute. lia.
  - repeat constructor.
  - repeat (constructor; [repeat (constructor; [reflexivity|])|]);
      constructor.
  - repeat (constructor; [discriminate|]). constructor.
  - reflexivity.
  - reflexivity.
  - reflexivity.
  - intros i. unfold writable, parent_exists.
    rewrite dirname_tempFilePath. reflexivity.
  - intros i. discriminate.
  - vm_compute. lia.
Defined.

(** X17: [Sort] can sort a file in place: with the input path as
    output path (the input is read to the end and closed before the output
    is opened), for an input file as above, it succeeds and leaves in the
    file the payloads of its records in ascending order, each followed by
    CR LF. *)
Theorem Sort_in_place (toString_utf8 : buffer → jsstring) (this : SortFile)
    (fuel : nat) (path : string) (st : fs) (ws : list buffer) :
  utf8_on_7bit toString_utf8 →
  3 ≤ lineSizeBytes this →
  numberOfLinesPerSegment this ≠ 0 →
  files st !! path = Some (concat ws) →
  length (concat ws) ≤ maxFileSizeBytes this →
  Forall (valid_window (lineSizeBytes this)) ws →
  Forall seven_bit ws →
  Forall (λ w, below_sentinel (payload w)) ws →
  length ws mod numberOfLinesPerSegment this = 0 →
  dirs st !! path = None →
  (∀ i, writable st (tempFilePath (slice_0_minus4 path) i) = true) →
  length ws < fuel →
  ∃ fl,
    Sort toString_utf8 this fuel path path st
    = (Fs fl (dirs st) (handles st), Ok ())
    ∧ fl !! path = Some (run_bytes (sort (payload <$> ws))).
Proof.
  intros Hutf8 HL Hn Hin Hsize Hvalid H7 Hbelow Hmod Hdir Hwr Hfuel.
  destruct (Sort_whole_records toString_utf8 this fuel path path st ws
              (concat ws))
    as (fl & lines & HSort & Hfile & Hperm & Hsorted & _); try done.
  { apply tempFilePath_ne_input. }
  exists fl. by rewrite <- (sorted_perm_sort lines (payload <$> ws)).
Qed.

Lemma Sort_in_place_witness :
  let ws := [record "charl"; record "alice"; record "brian"; record "danie"] in
  let st := Fs {[ "data.txt" := concat ws ]} ∅ [] in
  ∃ fl,
    Sort toString_utf8_7bit (sorter 2 7) 100 "data.txt" "data.txt" st
    = (Fs fl (dirs st) (handles st), Ok ())
    ∧ fl !! "data.txt" = Some (run_bytes (sort (payload <$> ws))).
Proof.
  intros ws st.
  apply (Sort_in_place toString_utf8_7bit (sorter 2 7) 100 "data.txt" st ws).
  - apply toString_utf8_7bit_ok.
  - vm_compute. lia.
  - discriminate.
  - reflexivity.
  - vm_compute. lia.
  - repeat constructor.
  - repeat (constructor; [repeat (constructor; [reflexivity|])|]);
      constructor.
  - repeat (constructor; [discriminate|]). constructor.
  - reflexivity.
  - reflexivity.
  - intros i. unfold writable, parent_exists.
    rewrite dirname_tempFilePath. reflexivity.
  - vm_compute. lia.
Defined.

(** X18: [Sort] reproduces a file that is sorted already.  Let the decoder
    be ASCII on 7-bit bytes, [lineSizeBytes] at least 3 and
    [numberOfLinesPerSegment] not 0; let the input file hold, within
    [maxFileSizeBytes], lines of [lineSizeBytes - 2] characters below 128
    (the first and the last no white space, the first not the sentinel
    character) in ascending order, each followed by CR LF, their number a
    multiple of [numberOfLinesPerSegment]; let the output path be an
    existing regular file, no directory and none of the temporary paths of
    the input, and the temporary paths be paths that can be written.  With
    fuel above the number of lines, [Sort] succeeds and the output file
    has the bytes of the input file. *)
Theorem Sort_sorted_input (toString_utf8 : buffer → jsstring)
    (this : SortFile) (fuel : nat) (inFilename outFilename : string)
    (st : fs) (lines : list jsstring) (old : buffer) :
  utf8_on_7bit toString_utf8 →
  3 ≤ lineSizeBytes this →
  numberOfLinesPerSegment this ≠ 0 →
  files st !! inFilename = Some (run_bytes lines) →
  length (run_bytes lines) ≤ maxFileSizeBytes this →
  Forall (good_line (lineSizeBytes this)) lines →
  Forall below_sentinel lines →
  StronglySorted js_ordered lines →
  length lines mod numberOfLinesPerSegment this = 0 →
  files st !! outFilename = Some old →
  dirs st !! outFilename = None →
  (∀ i, writable st (tempFilePath (slice_0_minus4 inFilename) i) = true) →
  (∀ i, tempFilePath (slice_0_minus4 inFilename) i ≠ outFilename) →
  length lines < fuel →
  ∃ fl,
    Sort toString_utf8 this fuel inFilename outFilename st
    = (Fs fl (dirs st) (handles st), Ok ())
    ∧ fl !! outFilename = files st !! inFilename.
Proof.
  intros Hutf8 HL Hn Hin Hsize Hgood Hbelow Hsorted Hmod Hout Hdir Hwr Halias
    Hfuel.
  assert (payload <$> (line_record <$> lines) = lines) as Hpay.
  { rewrite <- list_fmap_compose. rewrite <- (list_fmap_id lines) at 2.
    apply list_fmap_ext. intros _ l Hl%list_elem_of_lookup_2. simpl.
    apply (payload_line_record (lineSizeBytes this)); [done|].
    by apply (proj1 (Forall_forall _ _) Hgood). }
  destruct (Sort_whole_records toString_utf8 this fuel inFilename outFilename
              st (line_record <$> lines) old)
    as (fl & lines' & HSort & Hfile & Hperm & Hsorted' & _); try done.
  - apply Forall_fmap. eapply Forall_impl; [exact Hgood|]. intros l Hl.
    split; [by apply (length_line_record (lineSizeBytes this))|].
    rewrite (payload_line_record (lineSizeBytes this)) by done.
    by destruct Hl.
  - apply Forall_fmap. eapply Forall_impl; [exact Hgood|].
    intros l (_ & H7 & _). apply seven_bit_from_ascii.
    apply Forall_app. split; [done|by repeat constructor].
  - rewrite Forall_fmap. 
    apply Forall_forall. intros l Hl. simpl.
    rewrite (payload_line_record (lineSizeBytes this)); [|done|].
    + by apply (proj1 (Forall_forall _ _) Hbelow).
    + by apply (proj1 (Forall_forall _ _) Hgood).
  - by rewrite length_fmap.
  - by rewrite length_fmap.
  - exists fl. split; [done|]. rewrite Hfile, Hin. do 2 f_equal.
    rewrite Hpay in Hperm. by apply sorted_perm_eq.
Qed.

Lemma Sort_sorted_input_witness :
  let lines := [[97%N; 108%N; 105%N; 99%N; 101%N];
                [98%N; 114%N; 105%N; 97%N; 110%N]] in
  let st := Fs {[ "in.txt" := run_bytes lines; "out.txt" := [] ]} ∅ [] in
  ∃ fl,
    Sort toString_utf8_7bit (sorter 1 7) 100 "in.txt" "out.txt" st
    = (Fs fl (dirs st) (handles st), Ok ())
    ∧ fl !! "out.txt" = files st !! "in.txt".
Proof.
  intros lines st.
  apply (Sort_sorted_input toString_utf8_7bit (sorter 1 7) 100 "in.txt"
           "out.txt" st lines []).
  - apply toString_utf8_7bit_ok.
  - vm_compute. lia.
  - discriminate.
  - reflexivity.
  - vm_compute. lia.
  - repeat (constructor;
            [split_and!; [reflexivity|repeat constructor|split; reflexivity]|]).
    constructor.
  - repeat (constructor; [discriminate|]). constructor.
  - repeat constructor.
  - reflexivity.
  - reflexivity.
  - reflexivity.
  - intros i. unfold writable, parent_exists.
    rewrite dirname_tempFilePath. reflexivity.
  - intros i. discriminate.
  - vm_compute. lia.
Defined.


(** ** [Sort] ends *)

Lemma sum_seq_decrease (w w' : nat → nat) (k i : nat) :
  i < k → (∀ j, j ≠ i → w' j = w j) → w' i < w i →
  sum_list_with w' (seq 0 k) < sum_list_with w (seq 0 k).
Proof.
  intros Hi Hsame Hlt.
  assert (∀ k, k ≤ i →
            sum_list_with w' (seq 0 k) = sum_list_with w (seq 0 k))
    as Hbelow.
  { intros m. induction m as [|m IH]; intros Hm; [done|].
    rewrite !seq_S, !sum_list_with_app. simpl.
    rewrite IH, Hsame by lia. done. }
  induction k as [|k IH]; [lia|].
  rewrite !seq_S, !sum_list_with_app. simpl.
  destruct (decide (i = k)) as [->|Hne].
  - rewrite Hbelow by lia. lia.
  - rewrite (Hsame k) by lia. assert (i < k) as Hik by lia.
    specialize (IH Hik). lia.
Qed.

Lemma findMinLine_selected (lines : list jsstring) (h : string)
    (fileHandles : list string) :
  array_get fileHandles (findMinLine lines).2 = Some h →
  ∃ i c l, (findMinLine lines).2 = Z.of_nat i
           ∧ fileHandles !! i = Some h
           ∧ lines !! i = Some (c :: l).
Proof.
  unfold array_get. destruct (Z.ltb_spec (findMinLine lines).2 0) as [|Hge];
    [done|].
  intros Hh. apply findMinLine_valid_index in Hge as Hex.
  destruct (findMinLine_fold lines MAX_ASCII_CHAR) as [Hr _].
  unfold findMinLine in *. cbn [fst snd] in *.
  set (r := fold_left _ lines MAX_ASCII_CHAR) in *.
  assert (r ∈ lines) as Hin.
  { destruct (decide (r ∈ lines)) as [|Hnotin]; [done|].
    apply indexOf_not_elem in Hnotin. lia. }
  apply indexOf_elem in Hin as (i & Hi & Hlook & _).
  rewrite Hi, Nat2Z.id in Hh.
  destruct r as [|c l] eqn:Er.
  { destruct Hr as [Hr|(_ & Hne & _)]; done. }
  exists i, c, l. by rewrite Hi.
Qed.

Section MergeEnds.

Variable this : SortFile.
Variables (fileHandles : list string) (outFile : string).
Hypothesis Hout : outFile ∉ fileHandles.

Lemma merge_weight_write (st : fs) (data : buffer) (lines : list jsstring)
    (positions : list nat) (i : nat) :
  length lines = length fileHandles →
  merge_weight (Fs (<[outFile := data]> (files st)) (dirs st) (handles st))
    fileHandles lines positions i
  = merge_weight st fileHandles lines positions i.
Proof.
  intros Hlen. unfold merge_weight.
  destruct (lines !! i) as [[|c l]|] eqn:Hl; [done| |done].
  destruct (fileHandles !! i) as [h|] eqn:Hh.
  - change (default EmptyString (Some h)) with h.
    unfold file_size. cbn [files]. rewrite lookup_insert_ne; [done|].
    intros <-. apply Hout. by eapply list_elem_of_lookup_2.
  - apply lookup_lt_Some in Hl. apply lookup_ge_None in Hh. lia.
Qed.

Lemma merge_weight_step (st : fs) (written : buffer)
    (lines : list jsstring) (positions : list nat) (i : nat) (h : string)
    (data : buffer) (c : N) (l line' : jsstring) :
  length lines = length fileHandles →
  length positions = length fileHandles →
  fileHandles !! i = Some h →
  files st !! h = Some data →
  lines !! i = Some (c :: l) →
  line' = []
  ∨ lineSizeBytes this ≠ 0 ∧ default 0 (positions !! i) < length data →
  sum_list_with
    (merge_weight
       (Fs (<[outFile := written]> (files st)) (dirs st) (handles st))
       fileHandles (<[i := line']> lines)
       (<[i := default 0 (positions !! i) + lineSizeBytes this]> positions))
    (seq 0 (length fileHandles))
  < sum_list_with (merge_weight st fileHandles lines positions)
      (seq 0 (length fileHandles)).
Proof.
  intros Hl Hp Hh Hdata Hline Hcase.
  assert (i < length fileHandles) as Hi by (by eapply lookup_lt_Some).
  apply sum_seq_decrease with (i := i); [done| |].
  - intros j Hj. rewrite merge_weight_write by (by rewrite length_insert).
    unfold merge_weight. by rewrite !list_lookup_insert_ne.
  - rewrite merge_weight_write by (by rewrite length_insert).
    unfold merge_weight, file_size.
    rewrite !list_lookup_insert_eq by lia. rewrite Hline, Hh.
    change (default EmptyString (Some h)) with h. rewrite Hdata.
    destruct line' as [|c' l']; [lia|].
    destruct Hcase as [?|[HL Hpos]]; [done|].
    cbn [default from_option id]. lia.
Qed.

Lemma mergeLoop_ends (fuel : nat) :
  ∀ (lines : list jsstring) (positions : list nat) (st : fs),
    length lines = length fileHandles →
    length positions = length fileHandles →
    sum_list_with (merge_weight st fileHandles lines positions)
      (seq 0 (length fileHandles)) < fuel →
    (mergeLoop this fuel fileHandles outFile lines positions st).2
    ≠ OutOfFuel.
Proof.
  induction fuel as [|fuel IH]; intros lines positions st Hl Hp Hsum; [lia|].
  cbn [mergeLoop]. destruct (existsb _ _); [|done].
  pose proof (findMinLine_selected lines) as Hsel.
  destruct (findMinLine lines) as [minLine minIndex]. cbn [snd] in Hsel.
  unfold writeLineToOutput, fh_write. unfold_M.
  destruct (files st !! outFile) as [old|] eqn:Hold; [|done].
  unfold readNextLine.
  destruct (array_get fileHandles minIndex) as [h|] eqn:Hget; [|done].
  destruct (Hsel h fileHandles Hget) as (i & c & l & -> & Hh & Hline).
  rewrite Nat2Z.id. unfold_M. unfold fh_read. cbn [files].
  rewrite lookup_insert_ne
    by (intros <-; apply Hout; by eapply list_elem_of_lookup_2).
  destruct (files st !! h) as [data|] eqn:Hdata; [|done].
  destruct (Nat.eqb_spec
              (length (take (lineSizeBytes this)
                         (drop (default 0 (positions !! i)) data))) 0)
    as [Hz|Hz].
  - apply IH; [by rewrite length_insert..|].
    eapply Nat.lt_le_trans; [|apply Nat.lt_succ_r, Hsum].
    eapply merge_weight_step; eauto.
  - apply IH; [by rewrite length_insert..|].
    eapply Nat.lt_le_trans; [|apply Nat.lt_succ_r, Hsum].
    eapply merge_weight_step; eauto. right.
    rewrite length_take, length_drop in Hz. lia.
Qed.

End MergeEnds.

Lemma Promise_all_ends {A} (ps : list (M A)) :
  Forall (λ p, ∀ st, (p st).2 ≠ OutOfFuel) ps →
  ∀ st, (Promise_all ps st).2 ≠ OutOfFuel.
Proof.
  induction 1 as [|p ps Hp _ IH]; intros st; [done|].
  cbn [Promise_all]. specialize (Hp st). destruct (p st) as [st1 r].
  specialize (IH st1). destruct (Promise_all ps st1) as [st2 rs].
  simpl in *. by destruct r, rs.
Qed.

Lemma Promise_all_length {A} (ps : list (M A)) :
  ∀ (st st' : fs) (l : list A),
    Promise_all ps st = (st', Ok l) → length l = length ps.
Proof.
  induction ps as [|p ps IH]; intros st st' l.
  { by intros [= <- <-]. }
  cbn [Promise_all]. destruct (p st) as [st1 r].
  destruct (Promise_all ps st1) as [st2 rs] eqn:Hrest.
  destruct r as [a|e|], rs as [l'|e'|]; try done.
  intros [= <- <-]. simpl. f_equal. by eapply IH.
Qed.

Lemma Promise_all_open_Ok (segments : list string) :
  ∀ (st st' : fs) (l : list string),
    Promise_all (map fsp_open_r segments) st = (st', Ok l) → l = segments.
Proof.
  induction segments as [|s segments IH]; intros st st' l.
  { by intros [= <- <-]. }
  cbn [map Promise_all]. unfold fsp_open_r at 1.
  destruct (_ || _).
  - destruct (Promise_all _ _) as [st2 rs] eqn:Hrest.
    destruct rs as [l'|e'|]; try done.
    intros [= <- <-]. f_equal. by eapply IH.
  - destruct (Promise_all _ _) as [st2 rs]. by destruct rs.
Qed.

Lemma sum_seq_le_list {A} (w : nat → nat) (f : A → nat) (l : list A) :
  (∀ i x, l !! i = Some x → w i ≤ f x) →
  sum_list_with w (seq 0 (length l)) ≤ sum_list_with f l.
Proof.
  induction l as [|x l IH] using rev_ind; intros Hw; [done|].
  rewrite length_app. simpl. rewrite Nat.add_1_r, seq_S.
  rewrite !sum_list_with_app. simpl.
  assert (w (length l) ≤ f x) as Hx.
  { apply Hw. by rewrite list_lookup_middle. }
  assert (sum_list_with w (seq 0 (length l)) ≤ sum_list_with f l) as Hl.
  { apply IH. intros i y Hy. apply Hw. by apply lookup_app_l_Some. }
  lia.
Qed.

Lemma sum_list_with_eq {A} (f g : A → nat) (l : list A) :
  (∀ x, x ∈ l → f x = g x) → sum_list_with f l = sum_list_with g l.
Proof.
  induction l as [|x l IH]; intros Hfg; [done|]. simpl.
  rewrite (Hfg x) by left. rewrite IH; [done|]. intros y Hy. apply Hfg.
  by right.
Qed.

Lemma performMerge_ends (this : SortFile) (fuel : nat)
    (fileHandles : list string) (outFile : string) (st : fs) :
  outFile ∉ fileHandles →
  sum_list_with (λ h, S (file_size st h)) fileHandles < fuel →
  (performMerge this fuel fileHandles outFile st).2 ≠ OutOfFuel.
Proof.
  intros Hout Hfuel. unfold performMerge, readInitialLines.
  apply bind_total.
  - apply bind_total; [|done].
    apply Promise_all_ends, Forall_forall. intros m Hm.
    apply list_elem_of_In, in_map_iff in Hm as (h & <- & _).
    intros st0. unfold fh_read. by destruct (files st0 !! h).
  - intros lines st1. unfold_M.
    pose proof (Promise_all_read_state this fileHandles st) as Hst.
    destruct (Promise_all _ st) as [st2 [results|e|]] eqn:Hread;
      simpl in Hst; subst st2; [|done..].
    intros [= <- <-]. apply Promise_all_length in Hread.
    rewrite length_map in Hread.
    apply mergeLoop_ends; [done| |by rewrite length_replicate|].
    { by rewrite length_map. }
    eapply Nat.le_lt_trans; [|exact Hfuel].
    apply sum_seq_le_list. intros i h Hh. unfold merge_weight. cbn beta.
    destruct (map _ results !! i) as [[|c l]|]; [lia| |lia]. rewrite Hh.
    change (default EmptyString (Some h)) with h. lia.
Qed.

(** With fuel above the number of the runs and of their bytes,
    [mergeSegments] returns or throws when the output is none of the
    runs. *)
Lemma mergeSegments_ends (this : SortFile) (fuel : nat)
    (segments : list string) (outFilename : string) (st : fs) :
  outFilename ∉ segments →
  sum_list_with (λ segment, S (file_size st segment)) segments < fuel →
  (mergeSegments this fuel segments outFilename st).2 ≠ OutOfFuel.
Proof.
  intros Hout Hfuel. unfold mergeSegments. apply bind_total.
  { apply Promise_all_ends, Forall_forall. intros m Hm.
    apply list_elem_of_In, in_map_iff in Hm as (h & <- & _).
    intros st0. unfold fsp_open_r. by destruct (_ || _). }
  intros fileHandles st1 Hopen.
  assert (touches_only (λ _, False) st st1) as [_ Hf1].
  { assert (touching (λ _, False) (Promise_all (map fsp_open_r segments)))
      as Ht.
    { apply touching_Promise_all, Forall_forall. intros m Hm.
      apply list_elem_of_In, in_map_iff in Hm as (h & <- & _).
      apply touching_open_r. }
    specialize (Ht st). by rewrite Hopen in Ht. }
  apply Promise_all_open_Ok in Hopen as ->.
  apply bind_total.
  { unfold fsp_open_w. by destruct (writable st1 outFilename). }
  intros outFile st2. unfold fsp_open_w.
  destruct (writable st1 outFilename); [|done]. intros [= <- <-].
  set (st2 := Fs _ _ _).
  assert ((performMerge this fuel segments outFilename st2).2 ≠ OutOfFuel)
    as Hmerge.
  { apply performMerge_ends; [done|].
    eapply Nat.le_lt_trans; [|exact Hfuel]. apply Nat.eq_le_incl.
    apply sum_list_with_eq. intros h Hh. unfold file_size, st2. cbn [files].
    rewrite lookup_insert_ne by (by intros <-). by rewrite Hf1 by tauto. }
  unfold try_finally.
  destruct (performMerge this fuel segments outFilename st2) as [st3 rm].
  assert ((cleanupFiles segments outFilename segments st3).2 ≠ OutOfFuel)
    as Hclean.
  { unfold cleanupFiles. apply bind_total.
    { apply Promise_all_ends, Forall_forall. intros m Hm.
      apply list_elem_of_In, in_map_iff in Hm as (h & <- & _). done. }
    intros _ st4 _. apply bind_total; [done|]. intros _ st5 _.
    apply bind_total; [|done].
    apply Promise_all_ends, Forall_forall. intros m Hm.
    apply list_elem_of_In, in_map_iff in Hm as (h & <- & _).
    intros st0. unfold fsp_unlink. by destruct (files st0 !! h). }
  destruct (cleanupFiles segments outFilename segments st3) as [st4 rc].
  simpl in *. by destruct rm, rc.
Qed.

Lemma length_trimStart (s : jsstring) : length (trimStart s) ≤ length s.
Proof.
  destruct (trimStart_suffix s) as [ws Hws]. rewrite Hws at 2.
  rewrite length_app. lia.
Qed.

Lemma length_trim (s : jsstring) : length (trim s) ≤ length s.
Proof.
  unfold trim, trimEnd. rewrite length_rev.
  etransitivity; [apply length_trimStart|]. rewrite length_rev.
  apply length_trimStart.
Qed.

Lemma length_run_bytes_le (width : nat) (ls : list jsstring) :
  Forall (λ l, length l ≤ width) ls →
  length (run_bytes ls) ≤ length ls * (width + 2).
Proof.
  induction 1 as [|l ls Hl _ IH]; [done|].
  rewrite run_bytes_cons, length_app. unfold line_record, Buffer_from_ascii.
  rewrite length_map, length_app. simpl in *. lia.
Qed.

Section SortEnds.

Variable toString_utf8 : buffer → jsstring.
Variable this : SortFile.
Hypothesis Hdecode : ∀ buf, length (toString_utf8 buf) ≤ length buf.

Lemma readSegmentLoop_lines (h : string) (start : nat) (st : fs)
    (todo : nat) :
  ∀ (i : nat) (buf : buffer) (lines : list jsstring) (st' : fs)
    (lines' : list jsstring),
    length buf = lineSizeBytes this →
    readSegmentLoop toString_utf8 this todo h start i buf lines st
    = (st', Ok lines') →
    ∃ new, lines' = lines ++ new ∧ length new ≤ todo
           ∧ Forall (λ l, length l ≤ lineSizeBytes this) new.
Proof.
  induction todo as [|todo IH]; intros i buf lines st' lines' Hbuf.
  { intros [= <- <-]. exists []. by rewrite app_nil_r. }
  cbn [readSegmentLoop]. unfold_M. unfold fh_read.
  destruct (files st !! h) as [data|]; [|done].
  set (chunk := take (lineSizeBytes this)
                  (drop (start + i * lineSizeBytes this) data)).
  destruct (length chunk =? 0).
  { intros [= <- <-]. exists []. rewrite app_nil_r.
    split_and!; [done|simpl; lia|done]. }
  intros Hrun. apply IH in Hrun as (new & -> & Hlen & Hall).
  - eexists (_ :: new). rewrite <- app_assoc. split_and!; [done|simpl; lia|].
    constructor; [|done]. etransitivity; [apply length_trim|].
    etransitivity; [apply Hdecode|].
    rewrite length_app, length_drop. unfold chunk. rewrite length_take. lia.
  - rewrite length_app, length_drop. unfold chunk. rewrite length_take. lia.
Qed.

Lemma sortSegmentsLoop_sizes (h noEnd : string) (data : buffer) :
  (∀ j, tempFilePath noEnd j ≠ h) →
  ∀ (fuel : nat) (segments : list string) (bytesRead : nat) (st st' : fs)
    (segments' : list string),
    files st !! h = Some data →
    segments = tempFilePath noEnd <$> seq 0 (length segments) →
    sortSegmentsLoop toString_utf8 this fuel h noEnd segments
      (length segments) bytesRead st = (st', Ok segments') →
    sum_list_with (λ s, S (file_size st' s)) segments'
    ≤ sum_list_with (λ s, S (file_size st s)) segments
      + (length data - bytesRead)
        * (1 + numberOfLinesPerSegment this * (lineSizeBytes this + 2)).
Proof.
  intros Htemp fuel.
  induction fuel as [|fuel IH];
    intros segments bytesRead st st' segments' Hdata Hsegs; [done|].
  cbn [sortSegmentsLoop]. unfold_M.
  pose proof (readSegmentLoop_state toString_utf8 this
                (numberOfLinesPerSegment this) h bytesRead 0
                (Buffer_alloc (lineSizeBytes this)) [] st) as Hst.
  fold (readSegment toString_utf8 this h bytesRead) in Hst |- *.
  destruct (readSegment toString_utf8 this h bytesRead st)
    as [st1 [lines| |]] eqn:Hread; simpl in Hst; subst st1; [|done..].
  destruct (Nat.eqb_spec (length lines) 0) as [|Hne].
  { intros [= <- <-]. apply Nat.le_add_r. }
  destruct (readSegment_progress _ _ _ _ _ _ _ Hread)
    as (data' & Hdata' & Hlt & HL); [by intros ->|].
  rewrite Hdata in Hdata'. injection Hdata' as <-.
  apply readSegmentLoop_lines in Hread as (new & Hnew & Hcount & Hlens);
    [|apply length_replicate].
  simpl in Hnew. subst new.
  unfold writeSortedSegment, fsp_writeFile. unfold_M.
  destruct (writable st _); [|done].
  set (path := tempFilePath noEnd (length segments)).
  set (content := Buffer_from_ascii (join EOL (sort lines) ++ EOL)).
  set (st1 := Fs (<[path := content]> (files st)) (dirs st) (handles st)).
  intros Hloop.
  replace (length segments + 1) with (length (segments ++ [path])) in Hloop
    by (rewrite length_app; simpl; lia).
  apply IH in Hloop.
  - etransitivity; [exact Hloop|]. rewrite sum_list_with_app. simpl.
    assert (sum_list_with (λ s, S (file_size st1 s)) segments
            = sum_list_with (λ s, S (file_size st s)) segments) as ->.
    { apply sum_list_with_eq. intros s Hs. unfold file_size, st1. cbn [files].
      rewrite lookup_insert_ne; [done|]. intros <-. rewrite Hsegs in Hs.
      apply list_elem_of_fmap in Hs as (j & Heq & Hj%elem_of_seq).
      apply tempFilePath_inj in Heq. lia. }
    assert (file_size st1 path
            ≤ numberOfLinesPerSegment this * (lineSizeBytes this + 2))
      as Hsize.
    { unfold file_size, st1. cbn [files]. rewrite lookup_insert_eq.
      cbn [default from_option id]. unfold content. rewrite join_EOL.
      - etransitivity; [apply (length_run_bytes_le (lineSizeBytes this))|].
        + by rewrite sort_perm.
        + rewrite length_sort. nia.
      - intros Hnil. apply (f_equal length) in Hnil.
        rewrite length_sort in Hnil. simpl in Hnil. lia. }
    assert (1 ≤ length lines * lineSizeBytes this) by nia.
    set (B := 1 + numberOfLinesPerSegment this * (lineSizeBytes this + 2))
      in *.
    assert (length data - (bytesRead + length lines * lineSizeBytes this)
            ≤ length data - bytesRead - 1) as Hrem by lia.
    assert ((length data - bytesRead - 1) * B + B
            = (length data - bytesRead) * B) as Heq by nia.
    nia.
  - unfold st1. cbn [files]. by rewrite lookup_insert_ne by apply Htemp.
  - rewrite length_app. simpl. rewrite Nat.add_1_r, seq_S, fmap_app.
    by rewrite <- Hsegs.
Qed.

(** X21: [Sort] always ends, by returning or by throwing, when the
    output path is none of the temporary paths of the input: with a decoder
    that yields at most one code unit per byte, fuel above
    [size * (1 + numberOfLinesPerSegment * (lineSizeBytes + 2))] for an
    input of [size] bytes is never used up by the loops of the validation,
    of the segments and of the merge together. *)
Theorem Sort_ends (fuel : nat) (inFilename outFilename : string) (st : fs) :
  (∀ i, tempFilePath (slice_0_minus4 inFilename) i ≠ outFilename) →
  file_size st inFilename
  * (1 + numberOfLinesPerSegment this * (lineSizeBytes this + 2)) < fuel →
  (Sort toString_utf8 this fuel inFilename outFilename st).2 ≠ OutOfFuel.
Proof.
  intros Halias Hfuel.
  assert (0 < fuel) as Hpos by lia.
  assert (∀ data, files st !! inFilename = Some data → length data < fuel)
    as Hsize.
  { intros data Hdata. unfold file_size in Hfuel. rewrite Hdata in Hfuel.
    simpl in Hfuel. nia. }
  unfold Sort. apply bind_total; [by apply validateInput_total|].
  intros [] st1 Hval.
  assert (st1 = st) as ->
    by (eapply preserves_validateInput; [exact Hval|done]).
  apply bind_total; [by apply sortSegments_total|].
  intros segments st2 Hsort.
  pose proof (sortSegments_Ok _ _ _ _ _ _ _ Hsort) as [Hsegs _].
  apply mergeSegments_ends.
  { rewrite Hsegs. intros (i & Heq & _)%list_elem_of_fmap.
    by apply (Halias i). }
  eapply Nat.le_lt_trans; [|exact Hfuel].
  revert Hsort. unfold sortSegments. unfold_M. unfold fsp_open_r.
  destruct (_ || _); [|done].
  destruct (sortSegmentsLoop _ _ _ _ _ _ _ _ _) as [st3 r] eqn:Hloop.
  destruct r as [segs|e|]; [|done..]. unfold fh_close.
  intros [= <- <-].
  destruct (files st !! inFilename) as [data|] eqn:Hdata.
  - eapply (sortSegmentsLoop_sizes inFilename _ data
              (tempFilePath_ne_input inFilename) fuel []) in Hloop; [|done..].
    simpl in Hloop. unfold file_size at 2. rewrite Hdata. simpl.
    rewrite Nat.sub_0_r in Hloop. exact Hloop.
  - destruct fuel as [|fuel']; [done|]. cbn [sortSegmentsLoop] in Hloop.
    unfold_M. unfold readSegment in Hloop.
    destruct (numberOfLinesPerSegment this) as [|todo].
    + cbn [readSegmentLoop] in Hloop. unfold_M. simpl in Hloop.
      injection Hloop as <- <-. simpl. lia.
    + cbn [readSegmentLoop] in Hloop. unfold_M. unfold fh_read in Hloop.
      cbn [files with_handle] in Hloop. by rewrite Hdata in Hloop.
Qed.

End SortEnds.

Lemma Sort_ends_witness :
  let ws := [record "charl"; record "alice"; record "brian"; record "danie"] in
  let st := Fs {[ "in.txt" := concat ws; "out.txt" := [] ]} ∅ [] in
  (Sort toString_utf8_7bit (sorter 2 7) 600 "in.txt" "out.txt" st).2
  ≠ OutOfFuel.
Proof.
  intros ws st.
  apply (Sort_ends toString_utf8_7bit (sorter 2 7)).
  - intros buf. unfold toString_utf8_7bit. by rewrite length_fmap.
  - intros i. discriminate.
  - vm_compute. lia.
Defined.

